(** * rainman2: the simulated cellular network and its reward function

    A shallow embedding of
    - [rainman2/lib/environment/cellular/dev/utils.py] (geometry, throughput,
      signal power, SLA),
    - [rainman2/lib/environment/cellular/dev/network.py] (class
      [StaticNetwork]),
    - the reward functions, the two caches and the average SLA of
      [rainman2/lib/environment/cellular/base.py].

    Conventions.  Python integers are [Z].  Grid coordinates are [Z] (UE
    coordinates come from [np.random.randint], AP coordinates are
    [(1 + 2*i) * scale]).  Python floats are idealised as real numbers
    ([R]); overflow, underflow and NaN are outside the model.  A Python
    exception is a value of [exn]; a function that can raise returns a
    [result].  Methods that mutate [self] are functions from the state to a
    result and the state reached, so the mutations done before an exception
    stay visible. *)

From Stdlib Require Import ZArith List Reals Lra Lia.
From stdpp Require Import base option list sorting gmap sets.

Local Open Scope Z_scope.

(** ** Python prelude *)

Inductive exn : Set :=
  | KeyError | TypeError | IndexError | ZeroDivisionError
  | AttributeError | UnboundLocalError | ValueError.

Inductive result (A : Type) : Type :=
  | Ok (a : A)
  | Raise (e : exn).
Arguments Ok {A} a.
Arguments Raise {A} e.

Definition rbind {A B} (r : result A) (k : A -> result B) : result B :=
  match r with
  | Ok a => k a
  | Raise e => Raise e
  end.

Notation "'let?' x ':=' r 'in' k" := (rbind r (fun x => k))
  (at level 10, x pattern, r at level 100, k at level 200,
   format "'[v' 'let?'  x  ':='  r  'in' '/' k ']'").

(** Truth value of a Python integer: [0] is false, the rest is true. *)
Definition truthy (n : Z) : bool := negb (n =? 0).

(** [l[i]] for a Python list or tuple: a negative index counts from the end,
    an index out of range raises [IndexError]. *)
Definition py_index {A} (l : list A) (i : Z) : result A :=
  let n := Z.of_nat (length l) in
  let j := if i <? 0 then i + n else i in
  if (j <? 0) || (n <=? j) then Raise IndexError
  else match l !! Z.to_nat j with
       | Some x => Ok x
       | None => Raise IndexError
       end.

(** ** base.py: the UE-based reward term *)

Module Env.

(** [reward_based_on_ue_state(self, action, old_sla, new_sla)].  The local
    variable [reward] is bound by the branches that assign it; reading it
    unbound (in the final [logger.debug] and [return]) raises
    [UnboundLocalError]. *)
Definition reward_based_on_ue_state (action old_sla new_sla : Z) : result Z :=
  let reward : option Z :=
    if action =? 1 then
      if negb (truthy old_sla) && negb (truthy new_sla) then Some (-2)
      else if negb (truthy old_sla) && truthy new_sla then Some 3
      else if truthy old_sla && negb (truthy new_sla) then Some (-4)
      else Some (-1)
    else
      if negb (truthy old_sla) && negb (truthy new_sla) then Some (-1)
      else if truthy old_sla && truthy new_sla then Some 1
      else None in
  match reward with
  | Some r => Ok r
  | None => Raise UnboundLocalError
  end.

(** The two fields of [NETWORK_STATE] that the AP-based reward reads. *)
Record NETWORK_STATE : Type :=
  { avg_video_sla : R; avg_web_sla : R }.

(** [reward_based_on_ap_state(self, action, old_state, new_state)]. *)
Definition reward_based_on_ap_state (action : Z)
    (old_state new_state : NETWORK_STATE) : R :=
  let old_v := avg_video_sla old_state in
  let new_v := avg_video_sla new_state in
  let old_w := avg_web_sla old_state in
  let new_w := avg_web_sla new_state in
  let reward := 0%R in
  if action =? 1 then
    let reward :=
      if Req_dec_T old_v 1 then
        if Req_dec_T old_v new_v then (reward - 0.5)%R
        else if Rlt_dec old_v new_v then (reward + 1)%R
        else if Rlt_dec new_v old_v then (reward - 1)%R
        else reward
      else
        if Req_dec_T old_v new_v then (reward - 1)%R
        else if Rlt_dec old_v new_v then (reward + 1)%R
        else if Rlt_dec new_v old_v then (reward - 1)%R
        else reward in
    let reward :=
      if Req_dec_T old_w 1 then
        if Req_dec_T old_w new_w then (reward - 0.25)%R
        else if Rlt_dec old_w new_w then (reward + 0.5)%R
        else if Rlt_dec new_w old_w then (reward - 0.5)%R
        else reward
      else
        if Req_dec_T old_w new_w then (reward - 0.5)%R
        else if Rlt_dec old_w new_w then (reward + 0.5)%R
        else if Rlt_dec new_w old_w then (reward - 0.5)%R
        else reward in
    reward
  else
    let reward := if Req_dec_T old_v 1 then (reward + 1)%R else reward in
    let reward := if Req_dec_T old_w 1 then (reward + 0.5)%R else reward in
    reward.

(** [get_reward(self, action, old_state, new_state, ue, ue_old_sla)], with
    [ue.sla] passed as [ue_new_sla].  The closing [logger.debug] evaluates
    [ACTIONS[action]], which raises [KeyError] for an action other than 0
    and 1. *)
Definition get_reward (action : Z) (old_state new_state : NETWORK_STATE)
    (ue_new_sla ue_old_sla : Z) : result R :=
  let? ue_reward := reward_based_on_ue_state action ue_old_sla ue_new_sla in
  let ap_reward := reward_based_on_ap_state action old_state new_state in
  if (action =? 0) || (action =? 1)
  then Ok (0 + IZR ue_reward + ap_reward)%R
  else Raise KeyError.

End Env.

(** ** utils.py: neighbour search on the grid *)

Module utils.

Definition loc : Type := Z * Z.

(** [get_interval(value, num_list)].  Python returns a tuple, or [None] when
    the [for] loop ends without a [return]. *)
Fixpoint get_interval_loop (value : Z) (num_list : list Z)
    (index : Z) (rest : list Z) : result (option (Z * Z)) :=
  match rest with
  | [] => Ok None
  | num :: rest' =>
      if value <=? num then
        let? a := py_index num_list (index - 1) in
        let? b := py_index num_list index in
        Ok (Some (a, b))
      else get_interval_loop value num_list (index + 1) rest'
  end.

Definition get_interval (value : Z) (num_list : list Z)
    : result (option (Z * Z)) :=
  let? first := py_index num_list 0 in
  if value <? first then Ok (Some (first, first)) else
  let? last := py_index num_list (-1) in
  if last <? value then Ok (Some (last, last)) else
  if value =? first then
    let? second := py_index num_list 1 in Ok (Some (first, second))
  else if value =? last then
    let? before := py_index num_list (-2) in Ok (Some (before, last))
  else get_interval_loop value num_list 0 num_list.

(** [list(set(l))]: the elements without repetition.  CPython lists them in
    hash order; the model lists them in the order of stdpp's [elements]. *)
Definition list_of_set (l : list loc) : list loc :=
  elements (list_to_set l : gset loc).

(** [get_aps_in_grid]: [product] of a tuple with [None] raises [TypeError]. *)
Definition get_aps_in_grid (ue_location : loc) (aps_per_axis : list Z)
    : result (list loc) :=
  let '(_min, _max) := ue_location in
  let? _min_interval := get_interval _min aps_per_axis in
  let? _max_interval := get_interval _max aps_per_axis in
  match _min_interval, _max_interval with
  | Some (a, b), Some (c, d) =>
      Ok (list_of_set [(a, c); (a, d); (b, c); (b, d)])
  | _, _ => Raise TypeError
  end.

Definition valid_ap (ap : loc) (aps_per_axis : list Z) : bool :=
  bool_decide (ap.1 ∈ aps_per_axis) && bool_decide (ap.2 ∈ aps_per_axis).

Definition get_valid_neighbors (ap : loc) (aps_per_axis : list Z)
    : result (list loc) :=
  let? a1 := py_index aps_per_axis 1 in
  let? a0 := py_index aps_per_axis 0 in
  let scale := a1 - a0 in
  let _aps := [ (ap.1 - scale, ap.2); (ap.1 + scale, ap.2);
                (ap.1, ap.2 - scale); (ap.1, ap.2 + scale) ] in
  Ok (List.filter (fun p => valid_ap p aps_per_axis) _aps).

(** The [for ap in closest_aps: all_aps.update(...)] loop. *)
Fixpoint extend_all_aps (all_aps : gset loc) (closest_aps : list loc)
    (aps_per_axis : list Z) : result (gset loc) :=
  match closest_aps with
  | [] => Ok all_aps
  | ap :: others =>
      let? valid := get_valid_neighbors ap aps_per_axis in
      extend_all_aps (all_aps ∪ list_to_set valid) others aps_per_axis
  end.

(** [get_extended_neighboring_aps]; the recursion is on [radius], which the
    only caller passes as [radius - 1] with [radius > 1]. *)
Fixpoint get_extended_neighboring_aps (closest_aps : list loc)
    (aps_per_axis : list Z) (radius : nat) : result (list loc) :=
  match radius with
  | O => Ok closest_aps
  | S radius' =>
      let? all_aps :=
        extend_all_aps (list_to_set closest_aps) closest_aps aps_per_axis in
      get_extended_neighboring_aps (elements all_aps) aps_per_axis radius'
  end.

Record NEIGHBORING_APS : Type :=
  { within_grid : list loc; rest : list loc }.

Definition get_neighboring_aps (ue_location : loc) (aps_per_axis : list Z)
    (radius : Z) : result NEIGHBORING_APS :=
  let? neighboring_aps_in_grid := get_aps_in_grid ue_location aps_per_axis in
  let? rest_set :=
    if 1 <? radius then
      let? ext := get_extended_neighboring_aps neighboring_aps_in_grid
                    aps_per_axis (Z.to_nat (radius - 1)) in
      Ok ((list_to_set ext : gset loc) ∖ list_to_set neighboring_aps_in_grid)
    else Ok (∅ : gset loc) in
  Ok {| within_grid := neighboring_aps_in_grid; rest := elements rest_set |}.

(** ** utils.py: distance, throughput, signal power, SLA *)

Section Numerics.
Local Open Scope R_scope.

(** Round to the nearest integer, ties to the even one: Python's [round(x)]
    and the rounding inside [np.around]. *)
Definition rint (x : R) : Z :=
  let f := Int_part x in
  let d := x - IZR f in
  if Rlt_dec d (1 / 2) then f
  else if Rlt_dec (1 / 2) d then (f + 1)%Z
  else if Z.even f then f else (f + 1)%Z.

(** [np.around(x, decimals=3)]. *)
Definition np_around3 (x : R) : R := IZR (rint (x * 1000)) / 1000.

(** True division; dividing by zero raises. *)
Definition py_div (x y : R) : result R :=
  if Req_dec_T y 0 then Raise ZeroDivisionError else Ok (x / y).

Definition log10 (x : R) : R := ln x / ln 10.

(** [math.log10]; a non-positive argument raises [ValueError]. *)
Definition math_log10 (x : R) : result R :=
  if Rlt_dec 0 x then Ok (log10 x) else Raise ValueError.

(** Python's [min(a, b, c)]: the first of the smallest. *)
Definition py_min3 (a b c : R) : R :=
  let m := if Rlt_dec b a then b else a in
  if Rlt_dec c m then c else m.

(** The square of [np.linalg.norm(a - b)], an integer on the integer grid. *)
Definition sq_norm (a b : loc) : Z :=
  ((a.1 - b.1) * (a.1 - b.1) + (a.2 - b.2) * (a.2 - b.2))%Z.

Definition get_ue_ap_distance (ap_location ue_location : loc) : R :=
  np_around3 (sqrt (IZR (sq_norm ap_location ue_location))).

Fixpoint closest_ap_loop (closest_ap : loc) (min_distance : R)
    (others : list loc) (ue_location : loc) : loc :=
  match others with
  | [] => closest_ap
  | ap_location :: others' =>
      let distance := get_ue_ap_distance ap_location ue_location in
      if Rlt_dec distance min_distance
      then closest_ap_loop ap_location distance others' ue_location
      else closest_ap_loop closest_ap min_distance others' ue_location
  end.

Definition get_closest_ap_location (neighboring_aps : list loc)
    (ue_location : loc) : result loc :=
  let? closest_ap := py_index neighboring_aps 0 in
  let min_distance := get_ue_ap_distance closest_ap ue_location in
  Ok (closest_ap_loop closest_ap min_distance (tail neighboring_aps)
        ue_location).

Definition get_ue_ap (ue_location : loc) (aps_per_axis : list Z)
    (radius : Z) : result (loc * list loc) :=
  let? neighboring_aps := get_neighboring_aps ue_location aps_per_axis radius in
  let? closest_ap_location :=
    get_closest_ap_location (within_grid neighboring_aps) ue_location in
  Ok (closest_ap_location,
      within_grid neighboring_aps ++ rest neighboring_aps).

(** [calculate_distance_factor].  The division is the one of Python
    numbers, which raises at [scale = 0]; on a numpy scalar, as the distance
    stored in a UE is, numpy yields an infinity or NaN there instead. *)
Definition calculate_distance_factor (ue_ap_distance scale : R) : result R :=
  let? q := py_div (- ue_ap_distance) (2 * scale) in
  Ok (np_around3 (exp q)).

Definition calculate_radio_bandwidth (distance_factor ap_channel_bandwidth : R)
    : R :=
  np_around3 (distance_factor * ap_channel_bandwidth).

Definition calculate_network_bandwidth (n_ues_on_ap : Z)
    (ap_uplink_bandwidth : R) : R :=
  let ap_factor := if truthy n_ues_on_ap then 1 / IZR n_ues_on_ap else 1 in
  np_around3 (ap_factor * ap_uplink_bandwidth).

Definition get_ue_throughput (scale ue_ap_distance : R) (n_ues_on_ap : Z)
    (ap_uplink_bandwidth ap_channel_bandwidth app_required_bandwidth : R)
    : result R :=
  let? distance_factor := calculate_distance_factor ue_ap_distance scale in
  let radio_bandwidth :=
    calculate_radio_bandwidth distance_factor ap_channel_bandwidth in
  let network_bandwidth :=
    calculate_network_bandwidth n_ues_on_ap ap_uplink_bandwidth in
  Ok (py_min3 radio_bandwidth network_bandwidth app_required_bandwidth).

(** [get_ue_sig_power]: when the distance is falsy the body is skipped and
    the function returns [None].  [math.pow(d, 2)] is [d * d]. *)
Definition get_ue_sig_power (ue_ap_distance : R) : result (option Z) :=
  if Req_dec_T ue_ap_distance 0 then Ok None
  else
    let? inv := py_div 1 (ue_ap_distance * ue_ap_distance) in
    let? lg := math_log10 inv in
    let distance := 10 * lg in
    let distance := distance / 10 in
    Ok (Some (rint distance)).

Definition get_ue_sla (ue_throughput ue_required_bandwidth : R) : Z :=
  if Rle_dec ue_required_bandwidth ue_throughput then 1%Z else 0%Z.

End Numerics.

(** ** utils.py: application classes and the AP and UE records *)

Inductive app_type : Set := web | video | voice | others.

#[global] Instance app_type_eq_dec : EqDecision app_type.
Proof. solve_decision. Defined.

Definition APPS_DICT (app : app_type) : R :=
  match app with
  | web => 0.25 | video => 2 | voice => 0.1 | others => 0.05
  end%R.

(** A dictionary whose keys are the four application classes, and the
    assignment [d[k] = v]. *)
Definition app_dict (A : Type) : Type := app_type -> A.

Definition dict_set {A} (d : app_dict A) (k : app_type) (v : A) : app_dict A :=
  fun app => if decide (app = k) then v else d app.

Module AP.
Record t : Type := mk
  { ap_id : Z;
    location : loc;
    n_ues : app_dict (gset Z);
    ues_meeting_sla : app_dict Z;
    max_connections : Z;
    uplink_bandwidth : R;
    channel_bandwidth : R }.

(** [AP(ap_id=..., location=...)] with the defaults of the constructor. *)
Definition new (ap_id : Z) (location : loc) : t :=
  {| ap_id := ap_id; location := location;
     n_ues := fun _ => ∅; ues_meeting_sla := fun _ => 0;
     max_connections := 50;
     uplink_bandwidth := 25; channel_bandwidth := 10 |}.

Definition set_n_ues (ap : t) (v : app_dict (gset Z)) : t :=
  mk (ap_id ap) (location ap) v (ues_meeting_sla ap) (max_connections ap)
     (uplink_bandwidth ap) (channel_bandwidth ap).

Definition set_ues_meeting_sla (ap : t) (v : app_dict Z) : t :=
  mk (ap_id ap) (location ap) (n_ues ap) v (max_connections ap)
     (uplink_bandwidth ap) (channel_bandwidth ap).
End AP.

Module UE.
Record t : Type := mk
  { ue_id : Z;
    ap : Z;
    location : loc;
    app : app_type;
    required_bandwidth : R;
    neighboring_aps : list Z;
    distance : R;
    throughput : R;
    sla : Z;
    signal_power : option Z }.

(** [UE(ue_id, ap, location, app, required_bandwidth, neighboring_aps)] with
    the defaults of the constructor for the derived fields. *)
Definition new (ue_id ap : Z) (location : loc) (app : app_type)
    (required_bandwidth : R) (neighboring_aps : list Z) : t :=
  {| ue_id := ue_id; ap := ap; location := location; app := app;
     required_bandwidth := required_bandwidth;
     neighboring_aps := neighboring_aps;
     distance := 0; throughput := 0; sla := 1; signal_power := Some (-100) |}.

Definition set_ap (ue : t) (v : Z) : t :=
  mk (ue_id ue) v (location ue) (app ue) (required_bandwidth ue)
     (neighboring_aps ue) (distance ue) (throughput ue) (sla ue)
     (signal_power ue).

Definition set_neighboring_aps (ue : t) (v : list Z) : t :=
  mk (ue_id ue) (ap ue) (location ue) (app ue) (required_bandwidth ue)
     v (distance ue) (throughput ue) (sla ue) (signal_power ue).

Definition set_distance (ue : t) (v : R) : t :=
  mk (ue_id ue) (ap ue) (location ue) (app ue) (required_bandwidth ue)
     (neighboring_aps ue) v (throughput ue) (sla ue) (signal_power ue).

Definition set_throughput (ue : t) (v : R) : t :=
  mk (ue_id ue) (ap ue) (location ue) (app ue) (required_bandwidth ue)
     (neighboring_aps ue) (distance ue) v (sla ue) (signal_power ue).

Definition set_sla (ue : t) (v : Z) : t :=
  mk (ue_id ue) (ap ue) (location ue) (app ue) (required_bandwidth ue)
     (neighboring_aps ue) (distance ue) (throughput ue) v (signal_power ue).

Definition set_signal_power (ue : t) (v : option Z) : t :=
  mk (ue_id ue) (ap ue) (location ue) (app ue) (required_bandwidth ue)
     (neighboring_aps ue) (distance ue) (throughput ue) (sla ue) v.
End UE.

(** [get_ue_app()]: [prob] is the random number drawn, in thousandths (it is
    rounded to three decimals before the test [prob < 0.7]). *)
Definition get_ue_app (prob_milli : Z) : app_type :=
  if prob_milli <? 700 then web else video.

(** [get_ue_location]: the random coordinates [drawn] are an input of the
    model.  For a video UE the centre of the grid is computed first,
    [sum(aps_per_axis) / len(aps_per_axis)], which divides by zero on an
    empty grid.  The range of the coordinates is not modelled. *)
Definition get_ue_location (app_type_ : app_type) (aps_per_axis : list Z)
    (drawn : loc) : result loc :=
  match app_type_, aps_per_axis with
  | video, [] => Raise ZeroDivisionError
  | _, _ => Ok drawn
  end.

End utils.

(** ** network.py: class StaticNetwork *)

Module network.
Import utils.

(** The instance attributes.  [_ap_dict] and [_ue_dict] are [None] after
    [reset_network] has cleared them.  [ue_sla_stats] holds the two
    counters ["Meets"] and ["Doesnot"]. *)
Record StaticNetwork : Type := mkNet
  { num_ues : Z;
    num_aps : Z;
    scale : Z;
    explore_radius : Z;
    x_units : Z;
    aps_per_axis : list Z;
    _location_to_ap_lookup : gmap loc Z;
    _ap_dict : option (gmap Z AP.t);
    _ue_dict : option (gmap Z UE.t);
    ue_app_stats : app_dict Z;
    ue_sla_stats : Z * Z }.

Definition set_lookup (self : StaticNetwork) (v : gmap loc Z) :=
  mkNet (num_ues self) (num_aps self) (scale self) (explore_radius self)
    (x_units self) (aps_per_axis self) v (_ap_dict self) (_ue_dict self)
    (ue_app_stats self) (ue_sla_stats self).

Definition set_ap_dict (self : StaticNetwork) (v : option (gmap Z AP.t)) :=
  mkNet (num_ues self) (num_aps self) (scale self) (explore_radius self)
    (x_units self) (aps_per_axis self) (_location_to_ap_lookup self) v
    (_ue_dict self) (ue_app_stats self) (ue_sla_stats self).

Definition set_ue_dict (self : StaticNetwork) (v : option (gmap Z UE.t)) :=
  mkNet (num_ues self) (num_aps self) (scale self) (explore_radius self)
    (x_units self) (aps_per_axis self) (_location_to_ap_lookup self)
    (_ap_dict self) v (ue_app_stats self) (ue_sla_stats self).

Definition set_ue_app_stats (self : StaticNetwork) (v : app_dict Z) :=
  mkNet (num_ues self) (num_aps self) (scale self) (explore_radius self)
    (x_units self) (aps_per_axis self) (_location_to_ap_lookup self)
    (_ap_dict self) (_ue_dict self) v (ue_sla_stats self).

Definition set_ue_sla_stats (self : StaticNetwork) (v : Z * Z) :=
  mkNet (num_ues self) (num_aps self) (scale self) (explore_radius self)
    (x_units self) (aps_per_axis self) (_location_to_ap_lookup self)
    (_ap_dict self) (_ue_dict self) (ue_app_stats self) v.

(** Writing a mutated object back to its slot of the dictionary. *)
Definition put_ap (k : Z) (ap : AP.t) (self : StaticNetwork) : StaticNetwork :=
  set_ap_dict self (insert k ap <$> _ap_dict self).

Definition put_ue (k : Z) (ue : UE.t) (self : StaticNetwork) : StaticNetwork :=
  set_ue_dict self (insert k ue <$> _ue_dict self).

(** [d[k]] on an attribute that holds a dictionary or [None]. *)
Definition subscript {V} (d : option (gmap Z V)) (k : Z) : result V :=
  match d with
  | None => Raise TypeError
  | Some m => match m !! k with
              | Some v => Ok v
              | None => Raise KeyError
              end
  end.

Definition lookup_location (self : StaticNetwork) (l : loc) : result Z :=
  match _location_to_ap_lookup self !! l with
  | Some ap_id => Ok ap_id
  | None => Raise KeyError
  end.

(** *** Neighbouring APs *)

Fixpoint neighboring_ap_ids (self : StaticNetwork) (current_ap_location : loc)
    (neighboring_aps : list loc) : result (list Z) :=
  match neighboring_aps with
  | [] => Ok []
  | ap_location :: more =>
      if decide (current_ap_location = ap_location)
      then neighboring_ap_ids self current_ap_location more
      else
        let? ap_id := lookup_location self ap_location in
        let? ids := neighboring_ap_ids self current_ap_location more in
        Ok (ap_id :: ids)
  end.

Definition fetch_neighboring_aps (self : StaticNetwork) (ue : UE.t)
    (ap : AP.t) : result (list Z) :=
  let? neighboring_aps :=
    get_neighboring_aps (UE.location ue) (aps_per_axis self)
      (explore_radius self) in
  let all_neighboring_aps :=
    within_grid neighboring_aps ++ rest neighboring_aps in
  neighboring_ap_ids self (AP.location ap) all_neighboring_aps.

(** *** UE statistics *)

(** [reduce(lambda x, y: x+y, [len(values) for values in n_ues_dict.values()])]
    over the four keys, in the order of [APPS_DICT]. *)
Definition total_ues (n_ues_dict : app_dict (gset Z)) : Z :=
  Z.of_nat (size (n_ues_dict web)) + Z.of_nat (size (n_ues_dict video))
  + Z.of_nat (size (n_ues_dict voice)) + Z.of_nat (size (n_ues_dict others)).

Definition calculate_ue_throughput (self : StaticNetwork) (current_ap : AP.t)
    (ue_ap_distance ue_required_bandwidth : R) : result R :=
  let ap_n_ues := total_ues (AP.n_ues current_ap) in
  get_ue_throughput (IZR (scale self)) ue_ap_distance ap_n_ues
    (AP.uplink_bandwidth current_ap) (AP.channel_bandwidth current_ap)
    ue_required_bandwidth.

Definition calculate_ue_sla (self : StaticNetwork)
    (ue_throughput ue_required_bandwidth : R) : Z * StaticNetwork :=
  let meets := get_ue_sla ue_throughput ue_required_bandwidth in
  let '(n_meets, n_doesnot) := ue_sla_stats self in
  if truthy meets
  then (meets, set_ue_sla_stats self (n_meets + 1, n_doesnot))
  else (meets, set_ue_sla_stats self (n_meets, n_doesnot + 1)).

Definition calculate_ue_signal_power (ue_ap_distance : R)
    : result (option Z) :=
  get_ue_sig_power ue_ap_distance.

(** [update_ue_stats(self, ue, ap)] mutates the two objects it is given and
    the counters of [self]; the three are returned as they are when the
    method returns or raises. *)
Definition update_ue_stats (self : StaticNetwork) (ue : UE.t) (ap : AP.t)
    : result unit * (StaticNetwork * UE.t * AP.t) :=
  let ue := UE.set_distance ue
              (get_ue_ap_distance (UE.location ue) (AP.location ap)) in
  match calculate_ue_throughput self ap (UE.distance ue)
          (UE.required_bandwidth ue) with
  | Raise e => (Raise e, (self, ue, ap))
  | Ok t =>
      let ue := UE.set_throughput ue t in
      let '(meets, self) :=
        calculate_ue_sla self (UE.throughput ue) (UE.required_bandwidth ue) in
      let ue := UE.set_sla ue meets in
      let ap := AP.set_ues_meeting_sla ap
                  (dict_set (AP.ues_meeting_sla ap) (UE.app ue)
                     (AP.ues_meeting_sla ap (UE.app ue) + UE.sla ue)) in
      match calculate_ue_signal_power (UE.distance ue) with
      | Raise e => (Raise e, (self, ue, ap))
      | Ok p => (Ok tt, (self, UE.set_signal_power ue p, ap))
      end
  end.

(** *** Placing APs and instantiating UEs *)

(** The two nested [for] loops of [_place_aps] visit these locations. *)
Definition grid_locations (aps_per_axis : list Z) : list loc :=
  flat_map (fun xloc => map (fun yloc => (xloc, yloc)) aps_per_axis)
    aps_per_axis.

Fixpoint place_loop (locations : list loc) (ap_id : Z)
    (lookup_ : gmap loc Z) (ap_dict : gmap Z AP.t)
    : gmap loc Z * gmap Z AP.t :=
  match locations with
  | [] => (lookup_, ap_dict)
  | location :: more =>
      place_loop more (ap_id + 1) (<[location := ap_id]> lookup_)
        (<[ap_id := AP.new ap_id location]> ap_dict)
  end.

(** [_place_aps] fills [self._location_to_ap_lookup] and returns the new
    dictionary of APs; it does not assign [self._ap_dict]. *)
Definition _place_aps (self : StaticNetwork)
    : gmap Z AP.t * StaticNetwork :=
  let '(lookup_, ap_dict) :=
    place_loop (grid_locations (aps_per_axis self)) 1
      (_location_to_ap_lookup self) ∅ in
  (ap_dict, set_lookup self lookup_).

(** One round of the loop of [_instantiate_ues].  [draw] is what the random
    generator yields for this UE: the number behind [get_ue_app] and the
    coordinates behind [get_ue_location]. *)
Definition instantiate_ue (ue_id : Z) (draw : Z * loc)
    (self : StaticNetwork) (ue_dict : gmap Z UE.t)
    : result (gmap Z UE.t) * StaticNetwork :=
  let ue_app := get_ue_app draw.1 in
  let self := set_ue_app_stats self
                (dict_set (ue_app_stats self) ue_app
                   (ue_app_stats self ue_app + 1)) in
  let required_bandwidth := APPS_DICT ue_app in
  match get_ue_location ue_app (aps_per_axis self) draw.2 with
  | Raise e => (Raise e, self)
  | Ok ue_location =>
  match get_ue_ap ue_location (aps_per_axis self) (explore_radius self) with
  | Raise e => (Raise e, self)
  | Ok (current_ap_location, neighboring_aps) =>
  match lookup_location self current_ap_location with
  | Raise e => (Raise e, self)
  | Ok current_ap_id =>
  match subscript (_ap_dict self) current_ap_id with
  | Raise e => (Raise e, self)
  | Ok current_ap =>
      let current_ap := AP.set_n_ues current_ap
            (dict_set (AP.n_ues current_ap) ue_app
               (AP.n_ues current_ap ue_app ∪ {[ue_id]})) in
      match neighboring_ap_ids self current_ap_location neighboring_aps with
      | Raise e => (Raise e, put_ap current_ap_id current_ap self)
      | Ok ids =>
          let new_ue := UE.new ue_id current_ap_id ue_location ue_app
                          required_bandwidth ids in
          let '(r, (self, new_ue, current_ap)) :=
            update_ue_stats self new_ue current_ap in
          let self := put_ap current_ap_id current_ap self in
          match r with
          | Raise e => (Raise e, self)
          | Ok _ => (Ok (<[ue_id := new_ue]> ue_dict), self)
          end
      end
  end end end end.

Fixpoint instantiate_loop (ue_ids : list Z) (rng : Z -> Z * loc)
    (self : StaticNetwork) (ue_dict : gmap Z UE.t)
    : result (gmap Z UE.t) * StaticNetwork :=
  match ue_ids with
  | [] => (Ok ue_dict, self)
  | ue_id :: more =>
      match instantiate_ue ue_id (rng ue_id) self ue_dict with
      | (Ok ue_dict, self) => instantiate_loop more rng self ue_dict
      | (Raise e, self) => (Raise e, self)
      end
  end.

(** [range(1, n + 1)]. *)
Definition range1 (n : Z) : list Z :=
  map (fun i => Z.of_nat i) (seq 1 (Z.to_nat n)).

(** [_instantiate_ues] returns the new dictionary of UEs; it does not assign
    [self._ue_dict].  [rng ue_id] is the random draw for UE [ue_id]. *)
Definition _instantiate_ues (rng : Z -> Z * loc) (self : StaticNetwork)
    : result (gmap Z UE.t) * StaticNetwork :=
  instantiate_loop (range1 (num_ues self)) rng self ∅.

(** [StaticNetwork(num_ues, num_aps, scale, explore_radius)]: [math.sqrt] of
    a negative number raises [ValueError]; an exception leaves no object. *)
Definition __init__ (num_ues num_aps scale explore_radius : Z)
    (rng : Z -> Z * loc) : result StaticNetwork :=
  if num_aps <? 0 then Raise ValueError else
  let x_units := Z.sqrt num_aps in
  let aps_per_axis :=
    map (fun i => (1 + 2 * Z.of_nat i) * scale) (seq 0 (Z.to_nat x_units)) in
  let self :=
    {| num_ues := num_ues; num_aps := num_aps; scale := scale;
       explore_radius := explore_radius; x_units := x_units;
       aps_per_axis := aps_per_axis; _location_to_ap_lookup := ∅;
       _ap_dict := None; _ue_dict := None;
       ue_app_stats := fun _ => 0; ue_sla_stats := (0, 0) |} in
  let '(ap_dict, self) := _place_aps self in
  let self := set_ap_dict self (Some ap_dict) in
  match _instantiate_ues rng self with
  | (Raise e, _) => Raise e
  | (Ok ue_dict, self) => Ok (set_ue_dict self (Some ue_dict))
  end.

(** *** Handoff *)

Definition validate_ue (self : StaticNetwork) (ue_id : Z) : result UE.t :=
  subscript (_ue_dict self) ue_id.

Definition validate_ap (self : StaticNetwork) (ap_id : Z) : result AP.t :=
  subscript (_ap_dict self) ap_id.

Record handoff_result : Type :=
  { DONE : bool;
    UE : option UE.t;
    OLD_AP : option AP.t;
    NEW_AP : option AP.t }.

(** [handoff_to_ap(self, ue, current_ap, new_ap_id)].  [ue] is the object in
    slot [ue_key] of [self._ue_dict] and [current_ap] the object in slot
    [cur_key] of [self._ap_dict]; every mutation is written to its slot.
    [set.remove] raises [KeyError] when the element is missing. *)
Definition handoff_to_ap (self : StaticNetwork) (ue_key : Z) (ue : UE.t)
    (cur_key : Z) (current_ap : AP.t) (new_ap_id : Z)
    : result handoff_result * StaticNetwork :=
  if decide (UE.ue_id ue ∈ AP.n_ues current_ap (UE.app ue)) then
    let current_ap := AP.set_n_ues current_ap
          (dict_set (AP.n_ues current_ap) (UE.app ue)
             (AP.n_ues current_ap (UE.app ue) ∖ {[UE.ue_id ue]})) in
    let current_ap := AP.set_ues_meeting_sla current_ap
          (dict_set (AP.ues_meeting_sla current_ap) (UE.app ue)
             (AP.ues_meeting_sla current_ap (UE.app ue) - UE.sla ue)) in
    let self := put_ap cur_key current_ap self in
    match validate_ap self new_ap_id with
    | Raise e => (Raise e, self)
    | Ok new_ap =>
        let ue := UE.set_ap ue new_ap_id in
        let new_ap := AP.set_n_ues new_ap
              (dict_set (AP.n_ues new_ap) (UE.app ue)
                 (AP.n_ues new_ap (UE.app ue) ∪ {[UE.ue_id ue]})) in
        match fetch_neighboring_aps self ue new_ap with
        | Raise e => (Raise e, put_ue ue_key ue (put_ap new_ap_id new_ap self))
        | Ok ids =>
            let ue := UE.set_neighboring_aps ue ids in
            let '(r, (self, ue, new_ap)) := update_ue_stats self ue new_ap in
            let self := put_ue ue_key ue (put_ap new_ap_id new_ap self) in
            match r with
            | Raise e => (Raise e, self)
            | Ok _ =>
                (Ok {| DONE := true; UE := Some ue;
                       OLD_AP := Some current_ap; NEW_AP := Some new_ap |},
                 self)
            end
        end
    end
  else (Raise KeyError, self).

Definition perform_handoff (ue_id ap_id : Z) (self : StaticNetwork)
    : result handoff_result * StaticNetwork :=
  match validate_ue self ue_id with
  | Raise e => (Raise e, self)
  | Ok ue =>
      match subscript (_ap_dict self) (UE.ap ue) with
      | Raise e => (Raise e, self)
      | Ok current_ap =>
          if decide (UE.ap ue = ap_id) then
            (Ok {| DONE := false; UE := None;
                   OLD_AP := None; NEW_AP := None |}, self)
          else handoff_to_ap self ue_id ue (UE.ap ue) current_ap ap_id
      end
  end.

(** *** Reset and queries *)

(** [reset_network]: both dictionaries are cleared, then [_place_aps] and
    [_instantiate_ues] are called and what they return is dropped. *)
Definition reset_network (rng : Z -> Z * loc) (self : StaticNetwork)
    : result unit * StaticNetwork :=
  let self := set_ap_dict self None in
  let self := set_ue_dict self None in
  let '(_, self) := _place_aps self in
  match _instantiate_ues rng self with
  | (Raise e, self) => (Raise e, self)
  | (Ok _, self) => (Ok tt, self)
  end.

(** [d.values()] on an attribute that holds a dictionary or [None]; the
    dictionaries of this class get their keys in increasing order, which is
    the order of the values. *)
Definition values {V} (d : option (gmap Z V)) : result (list V) :=
  match d with
  | None => Raise AttributeError
  | Some m =>
      Ok (omap (fun k => m !! k) (merge_sort Z.le (elements (dom m))))
  end.

Definition ap_list (self : StaticNetwork) : result (list AP.t) :=
  values (_ap_dict self).

Definition ap_info (self : StaticNetwork) (ap_id : Z) : result AP.t :=
  validate_ap self ap_id.

Definition ue_list (self : StaticNetwork) : result (list UE.t) :=
  values (_ue_dict self).

Definition ue_info (self : StaticNetwork) (ue_id : Z) : result UE.t :=
  validate_ue self ue_id.

Definition ue_sla (self : StaticNetwork) (ue_id : Z) : result Z :=
  let? ue := validate_ue self ue_id in Ok (UE.sla ue).

End network.

(** ** Notions used to state the properties *)

Module Spec.
Import utils network.

(** The stored [sla] field of UE [uid] is 1. *)
Definition meets_sla (ues : gmap Z UE.t) (uid : Z) : Prop :=
  UE.sla <$> ues !! uid = Some 1.

#[global] Instance meets_sla_dec ues uid : Decision (meets_sla ues uid).
Proof. unfold meets_sla. apply _. Defined.

(** The number of UE ids of a set whose stored [sla] field is 1. *)
Definition sla_count (ues : gmap Z UE.t) (X : gset Z) : Z :=
  Z.of_nat (size (filter (meets_sla ues) X)).

(** The attributes that no method changes after the APs are placed. *)
Definition same_config (self self' : StaticNetwork) : Prop :=
  num_ues self' = num_ues self
  /\ num_aps self' = num_aps self
  /\ scale self' = scale self
  /\ explore_radius self' = explore_radius self
  /\ x_units self' = x_units self
  /\ aps_per_axis self' = aps_per_axis self
  /\ _location_to_ap_lookup self' = _location_to_ap_lookup self.

(** The neighbour list of a UE is the one [fetch_neighboring_aps] computes
    for the AP it is attached to. *)
Definition neighbours_up_to_date (self : StaticNetwork)
    (aps : gmap Z AP.t) (ue : UE.t) : Prop :=
  exists ap, aps !! UE.ap ue = Some ap
    /\ fetch_neighboring_aps self ue ap = Ok (UE.neighboring_aps ue).

(** The two-way relation between the dictionary of UEs and the per-class
    sets and counters of the APs. *)
Record consistent (self : StaticNetwork) (aps : gmap Z AP.t)
    (ues : gmap Z UE.t) : Prop :=
  { ue_attached : forall k ue, ues !! k = Some ue ->
      UE.ue_id ue = k
      /\ (UE.sla ue = 0 \/ UE.sla ue = 1)
      /\ (exists ap, aps !! UE.ap ue = Some ap
                     /\ k ∈ AP.n_ues ap (UE.app ue))
      /\ neighbours_up_to_date self aps ue;
    ap_members : forall a ap cls uid, aps !! a = Some ap ->
      uid ∈ AP.n_ues ap cls ->
      exists ue, ues !! uid = Some ue /\ UE.ap ue = a /\ UE.app ue = cls;
    ap_counter : forall a ap cls, aps !! a = Some ap ->
      AP.ues_meeting_sla ap cls = sla_count ues (AP.n_ues ap cls);
    ap_key : forall a ap, aps !! a = Some ap -> AP.ap_id ap = a;
    lookup_ap : forall l a, _location_to_ap_lookup self !! l = Some a ->
      exists ap, aps !! a = Some ap /\ AP.location ap = l }.

(** A network object whose two dictionaries are present and consistent. *)
Definition well_formed (self : StaticNetwork) : Prop :=
  exists aps ues, _ap_dict self = Some aps /\ _ue_dict self = Some ues
    /\ consistent self aps ues.

(** The simulator states reached by the constructor followed by calls of
    [perform_handoff] that return. *)
Inductive reachable : StaticNetwork -> Prop :=
  | reachable_init n_ues n_aps scl radius rng self :
      __init__ n_ues n_aps scl radius rng = Ok self -> reachable self
  | reachable_handoff self ue_id ap_id res self' :
      reachable self ->
      perform_handoff ue_id ap_id self = (Ok res, self') ->
      reachable self'.

(** The states a simulator can be in: built by the constructor, then
    driven by calls of [perform_handoff] and [reset_network], whether they
    return or raise. *)
Inductive operated : StaticNetwork -> Prop :=
  | operated_init n_ues n_aps scl radius rng self :
      __init__ n_ues n_aps scl radius rng = Ok self -> operated self
  | operated_handoff self ue_id ap_id r self' :
      operated self ->
      perform_handoff ue_id ap_id self = (r, self') ->
      operated self'
  | operated_reset self rng r self' :
      operated self ->
      reset_network rng self = (r, self') ->
      operated self'.

(** The AP that each UE names is in the dictionary of APs. *)
Definition ue_aps_exist (self : StaticNetwork) : Prop :=
  forall ues, _ue_dict self = Some ues ->
    exists aps, _ap_dict self = Some aps
      /\ forall k ue, ues !! k = Some ue -> is_Some (aps !! UE.ap ue).

(** The UE is attached to the AP at the location that
    [get_closest_ap_location] selects among [within_grid], and no location
    of [within_grid] is at a smaller (rounded) distance. *)
Definition attached_to_closest (self : StaticNetwork) (ue : UE.t) : Prop :=
  exists nb closest,
    get_neighboring_aps (UE.location ue) (aps_per_axis self)
      (explore_radius self) = Ok nb
    /\ get_closest_ap_location (within_grid nb) (UE.location ue) = Ok closest
    /\ closest ∈ within_grid nb
    /\ (forall l, l ∈ within_grid nb ->
          (get_ue_ap_distance closest (UE.location ue)
           <= get_ue_ap_distance l (UE.location ue))%R)
    /\ _location_to_ap_lookup self !! closest = Some (UE.ap ue).

(** Random draws that make every UE a web UE at (50, 50), outside the
    corner of the grid. *)
Definition corner_draws : Z -> Z * loc := fun _ => (0, (50, 50)).


(** UE [k] has the application class and the location that the random
    generator drew for it. *)
Definition drawn_as (rng : Z -> Z * loc) (k : Z) (ue : UE.t) : Prop :=
  UE.app ue = get_ue_app (rng k).1
  /\ UE.location ue = (rng k).2
  /\ UE.required_bandwidth ue = APPS_DICT (UE.app ue).

(** The grid has at least two APs per axis, the scale is not zero and every
    grid location is in the lookup table. *)
Definition usable_grid (self : StaticNetwork) : Prop :=
  (2 <= length (aps_per_axis self))%nat
  /\ scale self <> 0
  /\ (forall l, l ∈ grid_locations (aps_per_axis self) ->
        is_Some (_location_to_ap_lookup self !! l)).

End Spec.

(** ** network.py: the derived per-UE accessors *)

Module network_queries.
Import utils network.

Definition ue_throughput (self : StaticNetwork) (ue_id : Z) : result R :=
  let? ue := validate_ue self ue_id in Ok (UE.throughput ue).

Definition ue_signal_power (self : StaticNetwork) (ue_id : Z)
    : result (option Z) :=
  let? ue := validate_ue self ue_id in Ok (UE.signal_power ue).

(** [ue_neighboring_aps] computes the list again instead of reading the
    field of the UE. *)
Definition ue_neighboring_aps (self : StaticNetwork) (ue_id : Z)
    : result (list Z) :=
  let? ue := validate_ue self ue_id in
  let? current_ap := validate_ap self (UE.ap ue) in
  fetch_neighboring_aps self ue current_ap.

Definition ap_sla (self : StaticNetwork) (ap_id : Z) : result (app_dict Z) :=
  let? ap := validate_ap self ap_id in Ok (AP.ues_meeting_sla ap).

End network_queries.

(** ** base.py: the caches of CellularNetworkEnv and the average SLA *)

Module base.
Import utils.

(** [APPS_ID = {"web": 1, "video": 2}]; any other key raises [KeyError]. *)
Definition APPS_ID (app : app_type) : result Z :=
  match app with
  | web => Ok 1
  | video => Ok 2
  | voice | others => Raise KeyError
  end.

(** The classes [AP] and [UE] of base.py. *)
Module AP.
Record t : Type := mk
  { ap_id : Z;
    location : loc;
    n_ues : app_dict (gset Z);
    ues_meeting_sla : app_dict Z }.
End AP.

Module UE.
Record t : Type := mk
  { ue_id : Z;
    ap : Z;
    location : loc;
    neighboring_aps : list Z;
    signal_power : option Z;
    app : Z;
    sla : Z }.
End UE.

(** The caches of a [CellularNetworkEnv]; the order of the two
    [OrderedDict]s plays no part in what follows.  [ue_sla_stats] is [None]
    until [build_ue_dict] runs, then the counters ["Meets"] and
    ["Doesnot"]. *)
Record CellularNetworkEnv : Type := mkEnv
  { _ap_dict : gmap Z AP.t;
    _reverse_ap_lookup : gmap loc Z;
    _ue_dict : gmap Z UE.t;
    ue_sla_stats : option (Z * Z) }.

(** [CellularNetworkEnv(env_config, client)]. *)
Definition __init__ : CellularNetworkEnv :=
  {| _ap_dict := ∅; _reverse_ap_lookup := ∅; _ue_dict := ∅;
     ue_sla_stats := None |}.

(** One round of the loop of [build_ap_dict]; [ap] is an element of the
    list the client returned, with the keys of [utils.AP.to_dict]. *)
Definition build_ap (self : CellularNetworkEnv) (ap : utils.AP.t)
    : CellularNetworkEnv :=
  let ap_id := utils.AP.ap_id ap in
  match _ap_dict self !! ap_id with
  | Some _ => self
  | None =>
      let location := utils.AP.location ap in
      {| _ap_dict :=
           <[ap_id := AP.mk ap_id location (utils.AP.n_ues ap)
                        (utils.AP.ues_meeting_sla ap)]> (_ap_dict self);
         _reverse_ap_lookup := <[location := ap_id]> (_reverse_ap_lookup self);
         _ue_dict := _ue_dict self;
         ue_sla_stats := ue_sla_stats self |}
  end.

Definition build_ap_dict (self : CellularNetworkEnv)
    (ap_list : list utils.AP.t) : CellularNetworkEnv :=
  fold_left build_ap ap_list self.

(** One round of the loop of [build_ue_dict]: the counters first, then the
    new UE, whose [APPS_ID[ue_app]] can raise. *)
Definition build_ue (self : CellularNetworkEnv) (ue : utils.UE.t)
    : result unit * CellularNetworkEnv :=
  let ue_id := utils.UE.ue_id ue in
  let ue_sla := utils.UE.sla ue in
  let '(n_meets, n_doesnot) :=
    match ue_sla_stats self with Some c => c | None => (0, 0) end in
  let stats :=
    if ue_sla =? 1 then (n_meets + 1, n_doesnot)
    else (n_meets, n_doesnot + 1) in
  let self :=
    mkEnv (_ap_dict self) (_reverse_ap_lookup self) (_ue_dict self)
      (Some stats) in
  match _ue_dict self !! ue_id with
  | Some _ => (Ok tt, self)
  | None =>
      match APPS_ID (utils.UE.app ue) with
      | Raise e => (Raise e, self)
      | Ok app_id =>
          let ue_obj :=
            UE.mk ue_id (utils.UE.ap ue) (utils.UE.location ue)
              (utils.UE.neighboring_aps ue) (utils.UE.signal_power ue)
              app_id ue_sla in
          (Ok tt,
           mkEnv (_ap_dict self) (_reverse_ap_lookup self)
             (<[ue_id := ue_obj]> (_ue_dict self)) (ue_sla_stats self))
      end
  end.

Fixpoint build_ue_loop (self : CellularNetworkEnv) (ue_list : list utils.UE.t)
    : result unit * CellularNetworkEnv :=
  match ue_list with
  | [] => (Ok tt, self)
  | ue :: more =>
      match build_ue self ue with
      | (Ok _, self) => build_ue_loop self more
      | (Raise e, self) => (Raise e, self)
      end
  end.

(** [build_ue_dict] starts from fresh counters. *)
Definition build_ue_dict (self : CellularNetworkEnv)
    (ue_list : list utils.UE.t) : result unit * CellularNetworkEnv :=
  build_ue_loop
    (mkEnv (_ap_dict self) (_reverse_ap_lookup self) (_ue_dict self)
       (Some (0, 0)))
    ue_list.

(** Python's [round(x, 1)], ties to the even digit; the representation
    error of binary floats at such ties is outside the model. *)
Definition py_round1 (x : R) : R := (IZR (rint (x * 10)) / 10)%R.

(** [get_avg_app_sla(self, n_app_ues, ues_meeting_sla)]. *)
Definition get_avg_app_sla (n_app_ues ues_meeting_sla : Z) : R :=
  let avg_app_sla :=
    if truthy n_app_ues && truthy ues_meeting_sla
    then (IZR ues_meeting_sla / IZR n_app_ues)%R
    else 0%R in
  py_round1 avg_app_sla.

End base.

(** ** Further notions *)

Module Spec_more.
Import utils network Spec.

(** [q] is at most [n] steps away from [p], each step leading to one of
    the valid neighbours of the location it leaves. *)
Inductive within_steps (aps_per_axis : list Z) : nat -> loc -> loc -> Prop :=
  | within_steps_here n p : within_steps aps_per_axis n p p
  | within_steps_step n p v m q :
      get_valid_neighbors p aps_per_axis = Ok v -> m ∈ v ->
      within_steps aps_per_axis n m q ->
      within_steps aps_per_axis (S n) p q.

(** The test [ue_sla == 1] of [build_ue_dict] on an entry of the list. *)
Definition sla_is_1 (ue : UE.t) : bool := UE.sla ue =? 1.

(** The fields of an AP that no method assigns after the constructor. *)
Definition same_ap_identity (ap ap' : AP.t) : Prop :=
  AP.ap_id ap' = AP.ap_id ap
  /\ AP.location ap' = AP.location ap
  /\ AP.max_connections ap' = AP.max_connections ap
  /\ AP.uplink_bandwidth ap' = AP.uplink_bandwidth ap
  /\ AP.channel_bandwidth ap' = AP.channel_bandwidth ap.

(** The fields of a UE that no method assigns after the constructor. *)
Definition same_ue_identity (ue ue' : UE.t) : Prop :=
  UE.ue_id ue' = UE.ue_id ue
  /\ UE.location ue' = UE.location ue
  /\ UE.app ue' = UE.app ue
  /\ UE.required_bandwidth ue' = UE.required_bandwidth ue.

(** The derived fields of a UE are those [update_ue_stats] computes against
    an AP at [ap_location] that serves [n] UEs. *)
Definition stats_against (self : StaticNetwork) (ap_location : loc)
    (ue : UE.t) : Prop :=
  UE.distance ue = get_ue_ap_distance (UE.location ue) ap_location
  /\ (exists (n : Z) (uplink channel : R),
        1 <= n
        /\ get_ue_throughput (IZR (scale self)) (UE.distance ue) n uplink
             channel (UE.required_bandwidth ue) = Ok (UE.throughput ue))
  /\ UE.sla ue = get_ue_sla (UE.throughput ue) (UE.required_bandwidth ue)
  /\ get_ue_sig_power (UE.distance ue) = Ok (UE.signal_power ue).

(** Every UE carries the statistics computed against the location of the
    AP it is attached to. *)
Definition stats_up_to_date (self : StaticNetwork) : Prop :=
  exists aps ues,
    _ap_dict self = Some aps /\ _ue_dict self = Some ues
    /\ forall k ue, ues !! k = Some ue ->
         exists ap, aps !! UE.ap ue = Some ap
           /\ stats_against self (AP.location ap) ue.

(** The ids of the two dictionaries are those the constructor made. *)
Definition ids_as_built (self : StaticNetwork) : Prop :=
  exists aps ues,
    _ap_dict self = Some aps /\ _ue_dict self = Some ues
    /\ (forall a, is_Some (aps !! a) <-> 1 <= a <= x_units self * x_units self)
    /\ (forall k, is_Some (ues !! k) <-> 1 <= k <= num_ues self).

End Spec_more.

(** * Properties *)

Import utils network Spec network_queries Spec_more.

(** ** The UE-based reward *)

(** The six rows of the reward table that the method computes. *)
Lemma reward_based_on_ue_state_table :
  Env.reward_based_on_ue_state 1 0 0 = Ok (-2)
  /\ Env.reward_based_on_ue_state 1 0 1 = Ok 3
  /\ Env.reward_based_on_ue_state 1 1 0 = Ok (-4)
  /\ Env.reward_based_on_ue_state 1 1 1 = Ok (-1)
  /\ Env.reward_based_on_ue_state 0 0 0 = Ok (-1)
  /\ Env.reward_based_on_ue_state 0 1 1 = Ok 1.
Proof. repeat split; reflexivity. Qed.

(** C1: on STAY (action 0) with an SLA that changed, [reward] is never
    assigned, so [reward_based_on_ue_state] raises [UnboundLocalError]
    where the table of the specification gives 0, and [get_reward] raises
    with it. *)
Theorem reward_based_on_ue_state_stay_changed_sla :
  Env.reward_based_on_ue_state 0 0 1 = Raise UnboundLocalError
  /\ Env.reward_based_on_ue_state 0 1 0 = Raise UnboundLocalError
  /\ (forall old_state new_state,
        Env.get_reward 0 old_state new_state 1 0 = Raise UnboundLocalError)
  /\ (forall old_state new_state,
        Env.get_reward 0 old_state new_state 0 1 = Raise UnboundLocalError).
Proof. split_and!; reflexivity. Qed.

(** ** get_interval *)

Lemma py_index_lookup {A} (l : list A) (i : nat) (x : A) :
  l !! i = Some x -> py_index l (Z.of_nat i) = Ok x.
Proof.
  intros H. unfold py_index.
  pose proof (lookup_lt_Some _ _ _ H) as Hlt.
  destruct (Z.ltb_spec (Z.of_nat i) 0) as [?|_]; [lia|].
  destruct (Z.ltb_spec (Z.of_nat i) 0) as [?|_]; [lia|].
  destruct (Z.leb_spec (Z.of_nat (length l)) (Z.of_nat i)) as [?|_]; [lia|].
  simpl. rewrite Nat2Z.id, H. reflexivity.
Qed.

Lemma py_index_from_end {A} (l : list A) (k : nat) (x : A) :
  (0 < k <= length l)%nat -> l !! (length l - k)%nat = Some x ->
  py_index l (- Z.of_nat k) = Ok x.
Proof.
  intros Hk H. unfold py_index.
  destruct (Z.ltb_spec (- Z.of_nat k) 0) as [_|?]; [|lia].
  destruct (Z.ltb_spec (- Z.of_nat k + Z.of_nat (length l)) 0) as [?|_]; [lia|].
  destruct (Z.leb_spec (Z.of_nat (length l))
              (- Z.of_nat k + Z.of_nat (length l))) as [?|_]; [lia|].
  simpl.
  replace (Z.to_nat (- Z.of_nat k + Z.of_nat (length l)))
    with (length l - k)%nat by lia.
  rewrite H. reflexivity.
Qed.

(** The loop of [get_interval], entered or resumed after a prefix whose last
    element is below the value, stops at the first element that reaches
    the value and returns it with its predecessor. *)
Lemma get_interval_loop_brackets (value : Z) (num_list : list Z) :
  forall (todo pre : list Z) (a : Z),
    num_list = (pre ++ [a]) ++ todo ->
    a < value ->
    (exists x, x ∈ todo /\ value <= x) ->
    exists (i : nat) (p q : Z),
      num_list !! i = Some p /\ num_list !! S i = Some q
      /\ p < value <= q
      /\ get_interval_loop value num_list (Z.of_nat (length pre) + 1) todo
         = Ok (Some (p, q)).
Proof.
  induction todo as [|num todo IH]; intros pre a Hl Ha [x [Hx Hvx]].
  - inversion Hx.
  - assert (Hp : num_list !! length pre = Some a).
    { rewrite Hl, <- app_assoc. rewrite lookup_app_r by lia.
      replace (length pre - length pre)%nat with 0%nat by lia. reflexivity. }
    assert (Hq : num_list !! S (length pre) = Some num).
    { rewrite Hl. rewrite lookup_app_r by (rewrite length_app; simpl; lia).
      rewrite length_app. simpl.
      replace (S (length pre) - (length pre + 1))%nat with 0%nat by lia.
      reflexivity. }
    simpl. destruct (Z.leb_spec value num) as [Hle|Hgt].
    + exists (length pre), a, num. repeat split; try assumption.
      replace (Z.of_nat (length pre) + 1 - 1) with (Z.of_nat (length pre))
        by lia.
      rewrite (py_index_lookup _ _ _ Hp). simpl.
      replace (Z.of_nat (length pre) + 1) with (Z.of_nat (S (length pre)))
        by lia.
      rewrite (py_index_lookup _ _ _ Hq). reflexivity.
    + destruct (IH (pre ++ [a]) num) as (i & p & q & H1 & H2 & H3 & H4).
      * rewrite Hl. rewrite <- !app_assoc. reflexivity.
      * assumption.
      * exists x. split; [|assumption].
        apply elem_of_cons in Hx as [->|Hx]; [lia|assumption].
      * exists i, p, q. repeat split; try tauto.
        rewrite length_app in H4. simpl in H4.
        replace (Z.of_nat (length pre) + 1 + 1)
          with (Z.of_nat (length pre + 1) + 1) by lia.
        exact H4.
Qed.

(** The five ways out of [get_interval], in the order of its tests. *)
Lemma get_interval_by_cases (num_list : list Z) (value : Z)
    (first second before last : Z) :
  (2 <= length num_list)%nat ->
  num_list !! 0%nat = Some first ->
  num_list !! 1%nat = Some second ->
  num_list !! (length num_list - 2)%nat = Some before ->
  num_list !! (length num_list - 1)%nat = Some last ->
  (value < first -> get_interval value num_list = Ok (Some (first, first)))
  /\ (first <= value -> last < value ->
      get_interval value num_list = Ok (Some (last, last)))
  /\ (value = first -> first <= last ->
      get_interval value num_list = Ok (Some (first, second)))
  /\ (value = last -> first < last ->
      get_interval value num_list = Ok (Some (before, last)))
  /\ (first < value < last ->
      exists (i : nat) (p q : Z),
        num_list !! i = Some p /\ num_list !! S i = Some q
        /\ p < value <= q
        /\ get_interval value num_list = Ok (Some (p, q))).
Proof.
  intros Hlen H0 H1 Hb Hl.
  assert (E0 : py_index num_list 0 = Ok first)
    by exact (py_index_lookup num_list 0 first H0).
  assert (E1 : py_index num_list 1 = Ok second)
    by exact (py_index_lookup num_list 1 second H1).
  assert (El : py_index num_list (-1) = Ok last).
  { apply (py_index_from_end num_list 1); [lia | exact Hl]. }
  assert (Eb : py_index num_list (-2) = Ok before).
  { apply (py_index_from_end num_list 2); [lia | exact Hb]. }
  unfold get_interval. rewrite E0. simpl.
  split_and!.
  - intros Hv. destruct (Z.ltb_spec value first); [reflexivity | lia].
  - intros Hv Hv'. destruct (Z.ltb_spec value first); [lia|].
    rewrite El. simpl.
    destruct (Z.ltb_spec last value); [reflexivity | lia].
  - intros -> Hfl. rewrite Z.ltb_irrefl, El. simpl.
    destruct (Z.ltb_spec last first); [lia|].
    rewrite Z.eqb_refl, E1. reflexivity.
  - intros -> Hfl. destruct (Z.ltb_spec last first); [lia|].
    rewrite El. simpl. rewrite Z.ltb_irrefl.
    destruct (Z.eqb_spec last first); [lia|].
    rewrite Z.eqb_refl, Eb. reflexivity.
  - intros [Hlo Hhi].
    destruct (Z.ltb_spec value first); [lia|].
    rewrite El. simpl.
    destruct (Z.ltb_spec last value); [lia|].
    destruct (Z.eqb_spec value first); [lia|].
    destruct (Z.eqb_spec value last); [lia|].
    destruct num_list as [|x todo]; [discriminate|].
    simpl in H0. injection H0 as ->.
    change (get_interval_loop value (first :: todo) 0 (first :: todo))
      with (if value <=? first
            then let? a := py_index (first :: todo) (0 - 1) in
                 let? b := py_index (first :: todo) 0 in Ok (Some (a, b))
            else get_interval_loop value (first :: todo) (0 + 1) todo).
    destruct (Z.leb_spec value first); [lia|].
    apply (get_interval_loop_brackets value (first :: todo) todo [] first);
      [reflexivity | assumption |].
    exists last. split; [|lia].
    apply list_elem_of_lookup. exists (length todo - 1)%nat.
    simpl in Hlen.
    replace (length (first :: todo) - 1)%nat with (S (length todo - 1)) in Hl
      by (simpl; lia).
    exact Hl.
Qed.

(** C9 (amended): on a strictly increasing list of at least two
    coordinates, [get_interval] returns the pair of consecutive elements
    that brackets a value strictly inside the range, the first (last) two
    elements for a value equal to the first (last) element, and for a value
    outside the range the nearest end of the list twice. *)
Theorem get_interval_cases (num_list : list Z) (value : Z)
    (first second before last : Z) :
  StronglySorted Z.lt num_list ->
  (2 <= length num_list)%nat ->
  num_list !! 0%nat = Some first ->
  num_list !! 1%nat = Some second ->
  num_list !! (length num_list - 2)%nat = Some before ->
  num_list !! (length num_list - 1)%nat = Some last ->
  (value < first -> get_interval value num_list = Ok (Some (first, first)))
  /\ (last < value -> get_interval value num_list = Ok (Some (last, last)))
  /\ (value = first ->
      get_interval value num_list = Ok (Some (first, second)))
  /\ (value = last ->
      get_interval value num_list = Ok (Some (before, last)))
  /\ (first < value < last ->
      exists (i : nat) (p q : Z),
        num_list !! i = Some p /\ num_list !! S i = Some q
        /\ p < value <= q
        /\ get_interval value num_list = Ok (Some (p, q))).
Proof.
  intros Hsorted Hlen H0 H1 Hb Hl.
  assert (Hfl : first < last).
  { destruct num_list as [|x [|y l]]; simpl in Hlen; try lia.
    simpl in H0. injection H0 as ->.
    apply StronglySorted_inv in Hsorted as [_ Hall].
    rewrite Forall_forall in Hall. apply Hall.
    apply list_elem_of_lookup.
    exists (length (y :: l) - 1)%nat.
    replace (length (first :: y :: l) - 1)%nat
      with (S (length (y :: l) - 1)) in Hl by (simpl; lia).
    exact Hl. }
  destruct (get_interval_by_cases num_list value first second before last
              Hlen H0 H1 Hb Hl) as (C1 & C2 & C3 & C4 & C5).
  split_and!.
  - exact C1.
  - intros Hv. apply C2; lia.
  - intros Hv. apply C3; [exact Hv | lia].
  - intros Hv. apply C4; [exact Hv | exact Hfl].
  - exact C5.
Qed.

Lemma get_interval_cases_witness :
  get_interval 345 [100; 300; 500; 700] = Ok (Some (300, 500))
  /\ get_interval 50 [100; 300; 500; 700] = Ok (Some (100, 100)).
Proof.
  assert (Hs : StronglySorted Z.lt [100; 300; 500; 700]).
  { repeat constructor; lia. }
  destruct (get_interval_cases [100; 300; 500; 700] 50 100 300 500 700 Hs)
    as (Hlow & _); [simpl; lia | reflexivity .. |].
  split; [reflexivity | apply Hlow; lia].
Defined.

(** The assertion of [utils.main]. *)
Example get_interval_main_assert :
  get_interval 345 [100; 300; 500; 700] = Ok (Some (300, 500)).
Proof. reflexivity. Qed.

(** C9, as stated, fails below the range: the value 50 is not sent to the
    edge interval (100, 300) but to (100, 100). *)
Lemma get_interval_out_of_range_counterexample :
  get_interval 50 [100; 300; 500; 700] = Ok (Some (100, 100))
  /\ get_interval 50 [100; 300; 500; 700] <> Ok (Some (100, 300))
  /\ get_interval 900 [100; 300; 500; 700] = Ok (Some (700, 700))
  /\ get_interval 900 [100; 300; 500; 700] <> Ok (Some (500, 700)).
Proof. repeat split; try reflexivity; discriminate. Qed.

(** ** Rounding *)

Section RoundingFacts.
Local Open Scope R_scope.

Lemma Int_part_bounds (x : R) : IZR (Int_part x) <= x < IZR (Int_part x) + 1.
Proof. destruct (base_Int_part x). lra. Qed.

Lemma rint_floor_or_next (x : R) :
  rint x = Int_part x \/ rint x = (Int_part x + 1)%Z.
Proof.
  unfold rint.
  destruct (Rlt_dec _ _); [tauto|].
  destruct (Rlt_dec _ _); [tauto|].
  destruct (Z.even _); tauto.
Qed.

(** A real within one half of an integer rounds to it. *)
Lemma rint_near (x : R) (z : Z) :
  IZR z - 1 / 2 < x < IZR z + 1 / 2 -> rint x = z.
Proof.
  intros [Hlo Hhi].
  destruct (Int_part_bounds x) as [Hf1 Hf2].
  assert (Hle : (Int_part x <= z)%Z).
  { apply Z.lt_succ_r, lt_IZR. rewrite succ_IZR. lra. }
  assert (Hge : (z <= Int_part x + 1)%Z).
  { apply Z.lt_succ_r, lt_IZR. rewrite succ_IZR, plus_IZR. lra. }
  unfold rint.
  destruct (Z.eq_dec (Int_part x) z) as [E|E].
  - rewrite E in *. destruct (Rlt_dec _ _); [reflexivity | lra].
  - assert (E' : Int_part x = (z - 1)%Z) by lia.
    rewrite E' in *. rewrite minus_IZR in *.
    destruct (Rlt_dec _ _); [lra|].
    destruct (Rlt_dec _ _); [lia | lra].
Qed.

Lemma rint_IZR (z : Z) : rint (IZR z) = z.
Proof. apply rint_near. lra. Qed.

Lemma rint_ge (x : R) (z : Z) : IZR z <= x -> (z <= rint x)%Z.
Proof.
  intros H. destruct (Int_part_bounds x) as [_ Hf].
  assert ((z <= Int_part x)%Z).
  { apply Z.lt_succ_r, lt_IZR. rewrite succ_IZR. lra. }
  destruct (rint_floor_or_next x) as [-> | ->]; lia.
Qed.

Lemma np_around3_near (x : R) (z : Z) :
  IZR z - 1 / 2 < x * 1000 < IZR z + 1 / 2 -> np_around3 x = IZR z / 1000.
Proof. intros H. unfold np_around3. rewrite (rint_near _ z H). reflexivity. Qed.

Lemma np_around3_ge (x : R) (z : Z) :
  IZR z / 1000 <= x -> IZR z / 1000 <= np_around3 x.
Proof.
  intros H. unfold np_around3.
  assert (Hz : (z <= rint (x * 1000))%Z) by (apply rint_ge; lra).
  apply IZR_le in Hz. lra.
Qed.

Lemma py_min3_Rmin (a b c : R) : py_min3 a b c = Rmin (Rmin a b) c.
Proof.
  unfold py_min3, Rmin.
  destruct (Rlt_dec b a), (Rle_dec a b); try lra;
    destruct (Rlt_dec c _), (Rle_dec _ c); lra.
Qed.

Lemma py_min3_third (a b c : R) : c <= a -> c <= b -> py_min3 a b c = c.
Proof.
  intros Ha Hb. unfold py_min3.
  destruct (Rlt_dec b a); destruct (Rlt_dec c _); lra.
Qed.

Lemma py_min3_second (a b c : R) : b < a -> b <= c -> py_min3 a b c = b.
Proof.
  intros Ha Hb. unfold py_min3.
  destruct (Rlt_dec b a); destruct (Rlt_dec c _); lra.
Qed.

Lemma exp_minus_3_lower : 1 / 27 <= exp (- 3).
Proof.
  replace (- 3) with (- (1 + 1 + 1)) by lra.
  rewrite exp_Ropp, !exp_plus.
  pose proof exp_le_3 as H3. pose proof (exp_pos 1) as Hp.
  assert (H2 : 0 < exp 1 * exp 1) by (apply Rmult_lt_0_compat; assumption).
  assert (H9 : exp 1 * exp 1 <= 3 * 3)
    by (apply Rmult_le_compat; lra).
  assert (Hm : exp 1 * exp 1 * exp 1 <= 3 * 3 * 3)
    by (apply Rmult_le_compat; lra).
  assert (Hq : 0 < exp 1 * exp 1 * exp 1)
    by (apply Rmult_lt_0_compat; assumption).
  replace 27 with (3 * 3 * 3) by lra.
  unfold Rdiv. rewrite Rmult_1_l.
  apply Rinv_le_contravar; assumption.
Qed.

End RoundingFacts.

(** ** Throughput and SLA *)

Section ThroughputFacts.
Local Open Scope R_scope.

Lemma get_ue_sla_bit (t r : R) : get_ue_sla t r = 1%Z \/ get_ue_sla t r = 0%Z.
Proof. unfold get_ue_sla. destruct (Rle_dec r t); tauto. Qed.

(** C8 (amended): for a non-zero scale, [get_ue_throughput] returns the
    least of the radio bandwidth, the network bandwidth and the required
    bandwidth, where the network bandwidth is [(1/n) * uplink] rounded to
    three decimals ([uplink] rounded to three decimals when [n = 0]); the SLA
    is 1 exactly when the throughput reaches the required bandwidth; and the
    assertion of [utils.main] holds. *)
Theorem get_ue_throughput_is_min :
  (forall (grid_scale d : R) (n : Z) (uplink channel required : R),
      grid_scale <> 0 ->
      let radio := np_around3 (np_around3 (exp (- d / (2 * grid_scale))) * channel) in
      let network :=
        np_around3 ((if (n =? 0)%Z then 1 else 1 / IZR n) * uplink) in
      get_ue_throughput grid_scale d n uplink channel required
      = Ok (Rmin (Rmin radio network) required))
  /\ (forall (uplink : R),
         calculate_network_bandwidth 0 uplink = np_around3 uplink)
  /\ (forall (t r : R), get_ue_sla t r = 1%Z <-> r <= t)
  /\ (forall (t r : R), get_ue_sla t r = 0%Z <-> ~ r <= t)
  /\ get_ue_throughput 100 441.367 58 50 10 0.25 = Ok 0.25.
Proof.
  split; [|split; [|split; [|split]]].
  - intros grid_scale d n uplink channel required Hs.
    unfold get_ue_throughput, calculate_distance_factor, py_div.
    destruct (Req_dec_T (2 * grid_scale) 0) as [E|_]; [lra|].
    simpl. rewrite py_min3_Rmin.
    unfold calculate_radio_bandwidth, calculate_network_bandwidth, truthy.
    destruct (n =? 0)%Z; reflexivity.
  - intros uplink. unfold calculate_network_bandwidth. simpl. f_equal. lra.
  - intros t r. unfold get_ue_sla.
    destruct (Rle_dec r t); split; intros; tauto || discriminate.
  - intros t r. unfold get_ue_sla.
    destruct (Rle_dec r t); split; intros; tauto || discriminate.
  - unfold get_ue_throughput, calculate_distance_factor, py_div.
    destruct (Req_dec_T (2 * 100) 0) as [E|_]; [lra|].
    simpl. f_equal. apply py_min3_third.
    + unfold calculate_radio_bandwidth.
      assert (Hdf : IZR 25 / 1000 <= np_around3 (exp (- (441.367) / (2 * 100)))).
      { apply np_around3_ge.
        pose proof exp_minus_3_lower as H3.
        apply Rle_trans with (exp (- 3)); [lra|].
        apply Rlt_le, exp_increasing. lra. }
      replace 0.25 with (IZR 250 / 1000) by lra.
      apply np_around3_ge. lra.
    + unfold calculate_network_bandwidth. simpl.
      replace 0.25 with (IZR 250 / 1000) by lra.
      apply np_around3_ge. lra.
Qed.

Lemma get_ue_throughput_is_min_witness :
  get_ue_throughput 100 0 58 50 10 2
  = Ok (Rmin (Rmin (np_around3 (np_around3 (exp (- (0) / (2 * 100))) * 10))
                   (np_around3 ((if (58 =? 0)%Z then 1 else 1 / IZR 58) * 50)))
             2).
Proof.
  destruct get_ue_throughput_is_min as [H _].
  apply (H 100 0 58%Z 50 10 2). lra.
Defined.

(** C8, as stated, fails where the rounding of the network bandwidth
    shows: with 58 UEs on an uplink of 50 the code returns 0.862 and not
    [min(10, 50/58, 2) = 50/58]. *)
Lemma get_ue_throughput_counterexample :
  get_ue_throughput 100 0 58 50 10 2 = Ok 0.862
  /\ 0.862 <> Rmin (Rmin 10 (1 / 58 * 50)) 2.
Proof.
  split.
  - unfold get_ue_throughput, calculate_distance_factor, py_div.
    destruct (Req_dec_T (2 * 100) 0) as [E|_]; [lra|].
    simpl. f_equal.
    assert (Hdf : np_around3 (exp (- (0) / (2 * 100))) = 1).
    { replace (- (0) / (2 * 100)) with 0 by lra. rewrite exp_0.
      rewrite (np_around3_near 1 1000); lra. }
    unfold calculate_radio_bandwidth, calculate_network_bandwidth.
    rewrite Hdf. simpl.
    rewrite (np_around3_near (1 * 10) 10000) by lra.
    rewrite (np_around3_near (1 / 58 * 50) 862) by lra.
    rewrite py_min3_second by lra. lra.
  - unfold Rmin.
    destruct (Rle_dec 10 (1 / 58 * 50)); [lra|].
    destruct (Rle_dec (1 / 58 * 50) 2); lra.
Qed.

(** ** Signal power *)

Lemma get_ue_sig_power_zero : get_ue_sig_power 0 = Ok None.
Proof.
  unfold get_ue_sig_power. destruct (Req_dec_T 0 0); [reflexivity | lra].
Qed.

(** The guard on the distance protects the division and the logarithm. *)
Lemma get_ue_sig_power_nonzero (d : R) :
  d <> 0 ->
  get_ue_sig_power d = Ok (Some (rint ((10 * log10 (1 / (d * d))) / 10))).
Proof.
  intros Hd. unfold get_ue_sig_power, py_div, math_log10.
  destruct (Req_dec_T d 0); [lra|].
  destruct (Req_dec_T (d * d) 0); [nra|].
  simpl.
  destruct (Rlt_dec 0 (1 / (d * d))) as [_|Hn]; [reflexivity|].
  exfalso. apply Hn. apply Rdiv_lt_0_compat; nra.
Qed.



Lemma log10_inv_sq_10 : log10 (1 / (10 * 10)) = - 2.
Proof.
  unfold log10.
  assert (Hl : 0 < ln 10).
  { rewrite <- ln_1. apply ln_increasing; lra. }
  replace (1 / (10 * 10)) with (/ (10 * 10)) by lra.
  rewrite ln_Rinv by lra. rewrite ln_mult by lra.
  field. lra.
Qed.

(** At distance 10 the signal power is -2. *)
Example get_ue_sig_power_10 : get_ue_sig_power 10 = Ok (Some (-2)%Z).
Proof.
  rewrite get_ue_sig_power_nonzero by lra. rewrite log10_inv_sq_10.
  do 2 f_equal. apply rint_near. lra.
Qed.

End ThroughputFacts.

(** ** Counting the UEs that meet their SLA *)

Lemma sla_count_ext (ues ues' : gmap Z UE.t) (X : gset Z) :
  (forall x, x ∈ X -> ues !! x = ues' !! x) ->
  sla_count ues X = sla_count ues' X.
Proof.
  intros H. unfold sla_count. do 2 f_equal.
  apply set_eq. intros x. rewrite !elem_of_filter. unfold meets_sla.
  split; intros [Hm Hx]; (split; [|exact Hx]).
  - rewrite <- (H x Hx). exact Hm.
  - rewrite (H x Hx). exact Hm.
Qed.

Lemma sla_count_add (ues : gmap Z UE.t) (X : gset Z) (uid : Z) :
  uid ∉ X ->
  sla_count ues (X ∪ {[uid]})
  = sla_count ues X + (if decide (meets_sla ues uid) then 1 else 0).
Proof.
  intros Hfresh. unfold sla_count.
  assert (Eu : filter (meets_sla ues) (X ∪ {[uid]})
               = filter (meets_sla ues) X ∪ filter (meets_sla ues) {[uid]})
    by (apply leibniz_equiv, fin_sets.filter_union).
  rewrite Eu.
  assert (Hd : filter (meets_sla ues) X ## filter (meets_sla ues) {[uid]}).
  { apply disjoint_filter. intros x Hx Hx'.
    apply elem_of_singleton in Hx'. subst x. contradiction. }
  rewrite (size_union _ _ Hd).
  destruct (decide (meets_sla ues uid)) as [Hm|Hm].
  - assert (E : filter (meets_sla ues) ({[uid]} : gset Z) = {[uid]})
      by (apply leibniz_equiv, fin_sets.filter_singleton_True, Hm).
    rewrite E, size_singleton. lia.
  - assert (E : filter (meets_sla ues) ({[uid]} : gset Z) = ∅)
      by (apply leibniz_equiv, fin_sets.filter_singleton_False, Hm).
    rewrite E, size_empty. lia.
Qed.

Lemma sla_count_remove (ues : gmap Z UE.t) (X : gset Z) (uid : Z) :
  uid ∈ X ->
  sla_count ues (X ∖ {[uid]})
  = sla_count ues X - (if decide (meets_sla ues uid) then 1 else 0).
Proof.
  intros Hin.
  assert (HX : X = (X ∖ {[uid]}) ∪ {[uid]}).
  { apply set_eq. intros x. rewrite elem_of_union, elem_of_difference,
      elem_of_singleton.
    destruct (decide (x = uid)) as [->|]; tauto. }
  rewrite HX at 2. rewrite sla_count_add; [lia|].
  rewrite elem_of_difference, elem_of_singleton. tauto.
Qed.

Lemma meets_sla_bit (ues : gmap Z UE.t) (uid : Z) (ue : UE.t) :
  ues !! uid = Some ue -> UE.sla ue = 0 \/ UE.sla ue = 1 ->
  (if decide (meets_sla ues uid) then 1 else 0) = UE.sla ue.
Proof.
  intros Hu Hbit. unfold meets_sla.
  destruct (decide _) as [H|H]; rewrite Hu in H; simpl in H.
  - congruence.
  - destruct Hbit as [E|E]; [congruence|]. rewrite E in H. congruence.
Qed.

(** ** Configuration *)

Lemma same_config_refl self : same_config self self.
Proof. repeat split. Qed.

Lemma same_config_trans s1 s2 s3 :
  same_config s1 s2 -> same_config s2 s3 -> same_config s1 s3.
Proof. unfold same_config. intros; intuition congruence. Qed.

Lemma lookup_location_config self self' l :
  same_config self self' -> lookup_location self' l = lookup_location self l.
Proof.
  intros (_ & _ & _ & _ & _ & _ & H). unfold lookup_location. rewrite H.
  reflexivity.
Qed.

Lemma neighboring_ap_ids_config self self' cur l :
  same_config self self' ->
  neighboring_ap_ids self' cur l = neighboring_ap_ids self cur l.
Proof.
  intros H. induction l as [|x l IH]; simpl; [reflexivity|].
  rewrite IH, (lookup_location_config _ _ _ H). reflexivity.
Qed.

(** [fetch_neighboring_aps] reads the configuration, the location of the UE
    and the location of the AP, and nothing else. *)
Lemma fetch_neighboring_aps_config self self' ue ue' ap ap' :
  same_config self self' ->
  UE.location ue' = UE.location ue ->
  AP.location ap' = AP.location ap ->
  fetch_neighboring_aps self' ue' ap' = fetch_neighboring_aps self ue ap.
Proof.
  intros H Hu Ha. unfold fetch_neighboring_aps.
  pose proof H as (_ & _ & _ & Hr & _ & Hx & _).
  rewrite Hu, Ha, Hx, Hr.
  destruct (get_neighboring_aps _ _ _); simpl; [|reflexivity].
  apply neighboring_ap_ids_config, H.
Qed.

(** ** update_ue_stats *)

Lemma calculate_ue_sla_spec self t r meets self' :
  calculate_ue_sla self t r = (meets, self') ->
  meets = get_ue_sla t r
  /\ same_config self self'
  /\ _ap_dict self' = _ap_dict self /\ _ue_dict self' = _ue_dict self.
Proof.
  unfold calculate_ue_sla. destruct (ue_sla_stats self) as [m d].
  destruct (truthy _); intros [= <- <-]; repeat split.
Qed.

(** Whatever its outcome, [update_ue_stats] leaves the dictionaries of
    [self], the identity of the two objects and the sets of the AP alone. *)
Lemma update_ue_stats_frame self ue ap r self' ue' ap' :
  update_ue_stats self ue ap = (r, (self', ue', ap')) ->
  same_config self self'
  /\ _ap_dict self' = _ap_dict self /\ _ue_dict self' = _ue_dict self
  /\ UE.ue_id ue' = UE.ue_id ue /\ UE.ap ue' = UE.ap ue
  /\ UE.location ue' = UE.location ue /\ UE.app ue' = UE.app ue
  /\ UE.neighboring_aps ue' = UE.neighboring_aps ue
  /\ AP.ap_id ap' = AP.ap_id ap /\ AP.location ap' = AP.location ap
  /\ AP.n_ues ap' = AP.n_ues ap.
Proof.
  unfold update_ue_stats.
  destruct (calculate_ue_throughput _ _ _ _) as [t|e].
  - destruct (calculate_ue_sla _ _ _) as [meets self1] eqn:Hsla.
    apply calculate_ue_sla_spec in Hsla as (_ & Hc & Ha & Hu).
    destruct (calculate_ue_signal_power _); intros [= <- <- <- <-];
      repeat split; try assumption; apply Hc.
  - intros [= <- <- <- <-]. repeat split.
Qed.

(** When it returns, the SLA it stored is 0 or 1 and has been added to the
    counter of the AP for the class of the UE. *)
Lemma update_ue_stats_ok self ue ap self' ue' ap' :
  update_ue_stats self ue ap = (Ok tt, (self', ue', ap')) ->
  (UE.sla ue' = 0 \/ UE.sla ue' = 1)
  /\ UE.sla ue' = get_ue_sla (UE.throughput ue') (UE.required_bandwidth ue')
  /\ AP.ues_meeting_sla ap'
     = dict_set (AP.ues_meeting_sla ap) (UE.app ue)
         (AP.ues_meeting_sla ap (UE.app ue) + UE.sla ue').
Proof.
  unfold update_ue_stats.
  destruct (calculate_ue_throughput _ _ _ _) as [t|e]; [|discriminate].
  destruct (calculate_ue_sla _ _ _) as [meets self1] eqn:Hsla.
  apply calculate_ue_sla_spec in Hsla as (Hm & _).
  destruct (calculate_ue_signal_power _); [|discriminate].
  intros [= <- <- <-]. simpl. subst meets.
  split; [|split; reflexivity].
  destruct (get_ue_sla_bit t (UE.required_bandwidth ue)); tauto.
Qed.

(** ** Attaching and detaching a UE *)

Lemma dict_set_eq {A} (d : app_dict A) k v : dict_set d k v k = v.
Proof. unfold dict_set. destruct (decide (k = k)); congruence. Qed.

Lemma dict_set_ne {A} (d : app_dict A) k k' v :
  k' <> k -> dict_set d k v k' = d k'.
Proof. intros H. unfold dict_set. destruct (decide (k' = k)); congruence. Qed.

Lemma neighbours_up_to_date_config self self' aps aps' ue :
  same_config self self' ->
  (forall ap, aps !! UE.ap ue = Some ap ->
     exists ap', aps' !! UE.ap ue = Some ap'
                 /\ AP.location ap' = AP.location ap) ->
  neighbours_up_to_date self aps ue -> neighbours_up_to_date self' aps' ue.
Proof.
  intros Hc Haps (ap & Hap & Hf).
  destruct (Haps ap Hap) as (ap' & Hap' & Hl).
  exists ap'. split; [exact Hap'|].
  rewrite (fetch_neighboring_aps_config self self' ue ue ap ap' Hc eq_refl Hl).
  exact Hf.
Qed.

(** Removing UE [uid] from the set and the counter of its AP, and from the
    dictionary of UEs, keeps the relation consistent. *)
Lemma consistent_detach self aps ues uid ue cur cur' :
  consistent self aps ues ->
  ues !! uid = Some ue ->
  aps !! UE.ap ue = Some cur ->
  AP.ap_id cur' = AP.ap_id cur ->
  AP.location cur' = AP.location cur ->
  AP.n_ues cur'
  = dict_set (AP.n_ues cur) (UE.app ue)
      (AP.n_ues cur (UE.app ue) ∖ {[uid]}) ->
  AP.ues_meeting_sla cur'
  = dict_set (AP.ues_meeting_sla cur) (UE.app ue)
      (AP.ues_meeting_sla cur (UE.app ue) - UE.sla ue) ->
  consistent self (<[UE.ap ue := cur']> aps) (delete uid ues).
Proof.
  intros [Hatt Hmem Hcnt Hkey Hlk] Hue Hcur Hid Hloc Hn Hs.
  destruct (Hatt uid ue Hue) as (Huid & Hbit & (cur0 & Hcur0 & Hin) & _).
  rewrite Hcur in Hcur0. injection Hcur0 as <-.
  assert (Hloc_keep : forall a ap, aps !! a = Some ap ->
            exists ap', <[UE.ap ue := cur']> aps !! a = Some ap'
                        /\ AP.location ap' = AP.location ap).
  { intros a ap Ha. destruct (decide (a = UE.ap ue)) as [->|Hne].
    - rewrite lookup_insert_eq. exists cur'. split; [reflexivity|].
      rewrite Hcur in Ha. injection Ha as <-. exact Hloc.
    - rewrite lookup_insert_ne by congruence. eauto. }
  split.
  - intros k ue0 Hk.
    apply lookup_delete_Some in Hk as [Hne Hk].
    destruct (Hatt k ue0 Hk) as (Hid0 & Hbit0 & (ap0 & Hap0 & Hin0) & Hnb0).
    split; [exact Hid0|]. split; [exact Hbit0|]. split.
    + destruct (decide (UE.ap ue0 = UE.ap ue)) as [E|E].
      * exists cur'. rewrite E, lookup_insert_eq. split; [reflexivity|].
        rewrite E, Hcur in Hap0. injection Hap0 as <-.
        rewrite Hn. unfold dict_set. destruct (decide _); [|exact Hin0].
        rewrite elem_of_difference, elem_of_singleton.
        split; [congruence | congruence].
      * exists ap0. rewrite lookup_insert_ne by congruence. tauto.
    + apply (neighbours_up_to_date_config self self aps);
        [apply same_config_refl | apply Hloc_keep | exact Hnb0].
  - intros a ap cls x Ha Hx.
    destruct (decide (a = UE.ap ue)) as [->|Hne].
    + rewrite lookup_insert_eq in Ha. injection Ha as <-.
      rewrite Hn in Hx. unfold dict_set in Hx.
      destruct (decide (cls = UE.app ue)) as [->|Hc].
      * apply elem_of_difference in Hx as [Hx Hnx].
        rewrite elem_of_singleton in Hnx.
        destruct (Hmem _ _ _ _ Hcur Hx) as (ue0 & H1 & H2 & H3).
        exists ue0. rewrite lookup_delete_ne by congruence. tauto.
      * destruct (Hmem _ _ _ _ Hcur Hx) as (ue0 & H1 & H2 & H3).
        exists ue0. rewrite lookup_delete_ne; [tauto|].
        intros ->. rewrite Hue in H1. injection H1 as <-. congruence.
    + rewrite lookup_insert_ne in Ha by congruence.
      destruct (Hmem _ _ _ _ Ha Hx) as (ue0 & H1 & H2 & H3).
      exists ue0. rewrite lookup_delete_ne; [tauto|].
      intros ->. rewrite Hue in H1. injection H1 as <-. congruence.
  - intros a ap cls Ha.
    assert (Hext : forall X : gset Z, uid ∉ X ->
              sla_count (delete uid ues) X = sla_count ues X).
    { intros X HX. apply sla_count_ext. intros x Hx.
      apply lookup_delete_ne. congruence. }
    destruct (decide (a = UE.ap ue)) as [->|Hne].
    + rewrite lookup_insert_eq in Ha. injection Ha as <-.
      rewrite Hs, Hn. unfold dict_set.
      destruct (decide (cls = UE.app ue)) as [->|Hc].
      * rewrite Hext by (rewrite elem_of_difference, elem_of_singleton; tauto).
        rewrite (sla_count_remove _ _ _ Hin).
        rewrite (meets_sla_bit _ _ _ Hue Hbit).
        rewrite (Hcnt _ _ _ Hcur). reflexivity.
      * rewrite Hext; [apply (Hcnt _ _ _ Hcur)|].
        intros Hx. destruct (Hmem _ _ _ _ Hcur Hx) as (ue0 & H1 & _ & H3).
        rewrite Hue in H1. injection H1 as <-. congruence.
    + rewrite lookup_insert_ne in Ha by congruence.
      rewrite Hext; [apply (Hcnt _ _ _ Ha)|].
      intros Hx. destruct (Hmem _ _ _ _ Ha Hx) as (ue0 & H1 & H2 & _).
      rewrite Hue in H1. injection H1 as <-. congruence.
  - intros a ap Ha.
    destruct (decide (a = UE.ap ue)) as [->|Hne].
    + rewrite lookup_insert_eq in Ha. injection Ha as <-.
      rewrite Hid. apply (Hkey _ _ Hcur).
    + rewrite lookup_insert_ne in Ha by congruence. apply (Hkey _ _ Ha).
  - intros l a Hl. destruct (Hlk l a Hl) as (ap & Hap & Hapl).
    destruct (Hloc_keep a ap Hap) as (ap' & H1 & H2).
    exists ap'. split; [exact H1 | congruence].
Qed.

(** Adding a UE that is in no set yet to the set and the counter of an AP,
    and to the dictionary of UEs, keeps the relation consistent. *)
Lemma consistent_attach self self' aps ues uid a ap ap' ue' :
  consistent self aps ues ->
  same_config self self' ->
  ues !! uid = None ->
  aps !! a = Some ap ->
  UE.ue_id ue' = uid ->
  UE.ap ue' = a ->
  UE.sla ue' = 0 \/ UE.sla ue' = 1 ->
  AP.ap_id ap' = AP.ap_id ap ->
  AP.location ap' = AP.location ap ->
  AP.n_ues ap'
  = dict_set (AP.n_ues ap) (UE.app ue')
      (AP.n_ues ap (UE.app ue') ∪ {[uid]}) ->
  AP.ues_meeting_sla ap'
  = dict_set (AP.ues_meeting_sla ap) (UE.app ue')
      (AP.ues_meeting_sla ap (UE.app ue') + UE.sla ue') ->
  fetch_neighboring_aps self' ue' ap' = Ok (UE.neighboring_aps ue') ->
  consistent self' (<[a := ap']> aps) (<[uid := ue']> ues).
Proof.
  intros [Hatt Hmem Hcnt Hkey Hlk] Hc Hfresh Hap Hid Hua Hbit Hapid Hloc
    Hn Hs Hf.
  assert (Hnot : forall a0 ap0 cls, aps !! a0 = Some ap0 ->
            uid ∉ AP.n_ues ap0 cls).
  { intros a0 ap0 cls Ha0 Hx.
    destruct (Hmem _ _ _ _ Ha0 Hx) as (ue0 & H1 & _). congruence. }
  assert (Hloc_keep : forall a0 ap0, aps !! a0 = Some ap0 ->
            exists ap1, <[a := ap']> aps !! a0 = Some ap1
                        /\ AP.location ap1 = AP.location ap0).
  { intros a0 ap0 Ha0. destruct (decide (a0 = a)) as [->|Hne].
    - rewrite lookup_insert_eq. exists ap'. split; [reflexivity|].
      rewrite Hap in Ha0. injection Ha0 as <-. exact Hloc.
    - rewrite lookup_insert_ne by congruence. eauto. }
  assert (Hext : forall X : gset Z, uid ∉ X ->
            sla_count (<[uid := ue']> ues) X = sla_count ues X).
  { intros X HX. apply sla_count_ext. intros x Hx.
    apply lookup_insert_ne. congruence. }
  split.
  - intros k ue0 Hk.
    destruct (decide (k = uid)) as [->|Hne].
    + rewrite lookup_insert_eq in Hk. injection Hk as <-.
      split; [exact Hid|]. split; [exact Hbit|]. split.
      * exists ap'. rewrite Hua, lookup_insert_eq. split; [reflexivity|].
        rewrite Hn, dict_set_eq. apply elem_of_union_r, elem_of_singleton.
        reflexivity.
      * exists ap'. rewrite Hua, lookup_insert_eq. split; [reflexivity|].
        exact Hf.
    + rewrite lookup_insert_ne in Hk by congruence.
      destruct (Hatt k ue0 Hk) as (Hid0 & Hbit0 & (ap0 & Hap0 & Hin0) & Hnb0).
      split; [exact Hid0|]. split; [exact Hbit0|]. split.
      * destruct (decide (UE.ap ue0 = a)) as [E|E].
        -- exists ap'. rewrite E, lookup_insert_eq. split; [reflexivity|].
           rewrite E, Hap in Hap0. injection Hap0 as <-.
           rewrite Hn. unfold dict_set. destruct (decide _) as [E'|]; [|exact Hin0].
           apply elem_of_union_l. rewrite <- E'. exact Hin0.
        -- exists ap0. rewrite lookup_insert_ne by congruence. tauto.
      * apply (neighbours_up_to_date_config self self' aps);
          [exact Hc | apply Hloc_keep | exact Hnb0].
  - intros a0 ap0 cls x Ha0 Hx.
    assert (Hold : forall ap1, aps !! a0 = Some ap1 -> x ∈ AP.n_ues ap1 cls ->
              exists ue0, <[uid := ue']> ues !! x = Some ue0
                          /\ UE.ap ue0 = a0 /\ UE.app ue0 = cls).
    { intros ap1 Ha1 Hx1.
      destruct (Hmem _ _ _ _ Ha1 Hx1) as (ue0 & H1 & H2 & H3).
      exists ue0. rewrite lookup_insert_ne by congruence. tauto. }
    destruct (decide (a0 = a)) as [->|Hne].
    + rewrite lookup_insert_eq in Ha0. injection Ha0 as <-.
      rewrite Hn in Hx. unfold dict_set in Hx.
      destruct (decide (cls = UE.app ue')) as [->|Hcls].
      * apply elem_of_union in Hx as [Hx|Hx].
        -- apply (Hold ap Hap Hx).
        -- apply elem_of_singleton in Hx as ->.
           exists ue'. rewrite lookup_insert_eq. tauto.
      * apply (Hold ap Hap Hx).
    + rewrite lookup_insert_ne in Ha0 by congruence.
      apply (Hold ap0 Ha0 Hx).
  - intros a0 ap0 cls Ha0.
    destruct (decide (a0 = a)) as [->|Hne].
    + rewrite lookup_insert_eq in Ha0. injection Ha0 as <-.
      rewrite Hs, Hn. unfold dict_set.
      destruct (decide (cls = UE.app ue')) as [->|Hcls].
      * rewrite (sla_count_add _ _ _ (Hnot _ _ _ Hap)).
        rewrite (Hext _ (Hnot _ _ _ Hap)).
        rewrite (meets_sla_bit (<[uid := ue']> ues) uid ue'
                   (lookup_insert_eq _ _ _) Hbit).
        rewrite (Hcnt _ _ _ Hap). reflexivity.
      * rewrite (Hext _ (Hnot _ _ _ Hap)). apply (Hcnt _ _ _ Hap).
    + rewrite lookup_insert_ne in Ha0 by congruence.
      rewrite (Hext _ (Hnot _ _ _ Ha0)). apply (Hcnt _ _ _ Ha0).
  - intros a0 ap0 Ha0.
    destruct (decide (a0 = a)) as [->|Hne].
    + rewrite lookup_insert_eq in Ha0. injection Ha0 as <-.
      rewrite Hapid. apply (Hkey _ _ Hap).
    + rewrite lookup_insert_ne in Ha0 by congruence. apply (Hkey _ _ Ha0).
  - intros l a0 Hl.
    destruct Hc as (_ & _ & _ & _ & _ & _ & Hlookup).
    rewrite Hlookup in Hl.
    destruct (Hlk l a0 Hl) as (ap0 & Hap0 & Hapl).
    destruct (Hloc_keep a0 ap0 Hap0) as (ap1 & H1 & H2).
    exists ap1. split; [exact H1 | congruence].
Qed.

(** ** perform_handoff *)

Lemma same_config_put_ap self k ap : same_config self (put_ap k ap self).
Proof. repeat split. Qed.

Lemma same_config_put_ue self k ue : same_config self (put_ue k ue self).
Proof. repeat split. Qed.

(** What a call of [perform_handoff] that returns has done: nothing when
    the UE is already on the requested AP, and otherwise the move of the UE
    from the set of its AP to the set of the requested AP. *)
Lemma perform_handoff_returns self aps ues uid aid res self' :
  _ap_dict self = Some aps ->
  _ue_dict self = Some ues ->
  consistent self aps ues ->
  perform_handoff uid aid self = (Ok res, self') ->
  same_config self self'
  /\ ((exists ue, ues !! uid = Some ue /\ UE.ap ue = aid
         /\ res = {| DONE := false; UE := None;
                     OLD_AP := None; NEW_AP := None |}
         /\ self' = self)
      \/ (exists ue cur new ue' cur' new',
            ues !! uid = Some ue /\ UE.ap ue <> aid
            /\ aps !! UE.ap ue = Some cur /\ aps !! aid = Some new
            /\ res = {| DONE := true; UE := Some ue';
                        OLD_AP := Some cur'; NEW_AP := Some new' |}
            /\ _ap_dict self'
               = Some (<[aid := new']> (<[UE.ap ue := cur']> aps))
            /\ _ue_dict self' = Some (<[uid := ue']> ues)
            /\ UE.ue_id ue' = uid /\ UE.ap ue' = aid
            /\ UE.location ue' = UE.location ue
            /\ UE.app ue' = UE.app ue
            /\ AP.location new' = AP.location new
            /\ fetch_neighboring_aps self' ue' new'
               = Ok (UE.neighboring_aps ue')
            /\ consistent self' (<[aid := new']> (<[UE.ap ue := cur']> aps))
                 (<[uid := ue']> ues))).
Proof.
  intros Haps Hues Hcons.
  unfold perform_handoff, validate_ue, subscript. rewrite Hues, Haps.
  destruct (ues !! uid) as [ue|] eqn:Hue; [|discriminate].
  destruct (aps !! UE.ap ue) as [cur|] eqn:Hcur; [|discriminate].
  destruct (decide (UE.ap ue = aid)) as [Heq|Hne].
  { intros [= <- <-]. split; [apply same_config_refl|].
    left. exists ue. tauto. }
  destruct (ue_attached _ _ _ Hcons uid ue Hue) as (Hid & Hbit & _ & _).
  unfold handoff_to_ap.
  destruct (decide (UE.ue_id ue ∈ AP.n_ues cur (UE.app ue))) as [Hin|];
    [|discriminate].
  set (cur1 := AP.set_n_ues cur _).
  set (cur2 := AP.set_ues_meeting_sla cur1 _).
  set (self1 := put_ap (UE.ap ue) cur2 self).
  assert (Haps1 : _ap_dict self1 = Some (<[UE.ap ue := cur2]> aps)).
  { unfold self1, put_ap. simpl. rewrite Haps. reflexivity. }
  unfold validate_ap, subscript. rewrite Haps1.
  rewrite lookup_insert_ne by exact Hne.
  destruct (aps !! aid) as [new|] eqn:Hnew; [|discriminate].
  set (ue1 := UE.set_ap ue aid).
  set (new1 := AP.set_n_ues new _).
  destruct (fetch_neighboring_aps self1 ue1 new1) as [ids|] eqn:Hf;
    [|discriminate].
  set (ue2 := UE.set_neighboring_aps ue1 ids).
  destruct (update_ue_stats self1 ue2 new1) as [r [[self2 ue3] new2]] eqn:Hupd.
  destruct r as [[]|]; [|discriminate].
  intros [= <- <-].
  pose proof (update_ue_stats_frame _ _ _ _ _ _ _ Hupd)
    as (Hc2 & Ha2 & Hu2 & Hid3 & Hap3 & Hloc3 & Happ3 & Hnb3 & Hnid & Hnloc
        & Hnn).
  pose proof (update_ue_stats_ok _ _ _ _ _ _ Hupd) as (Hbit3 & _ & Hcnt3).
  set (self3 := put_ue uid ue3 (put_ap aid new2 self2)).
  assert (Hc3 : same_config self self3).
  { apply (same_config_trans _ self1); [apply same_config_put_ap|].
    apply (same_config_trans _ self2); [exact Hc2|].
    apply (same_config_trans _ (put_ap aid new2 self2));
      [apply same_config_put_ap | apply same_config_put_ue]. }
  assert (Hfetch : fetch_neighboring_aps self3 ue3 new2
                   = Ok (UE.neighboring_aps ue3)).
  { rewrite Hnb3.
    rewrite (fetch_neighboring_aps_config self1 self3 ue1 ue3 new1 new2).
    - exact Hf.
    - apply (same_config_trans _ self2); [exact Hc2|].
      apply (same_config_trans _ (put_ap aid new2 self2));
        [apply same_config_put_ap | apply same_config_put_ue].
    - rewrite Hloc3. reflexivity.
    - exact Hnloc. }
  assert (Hdet : consistent self (<[UE.ap ue := cur2]> aps) (delete uid ues)).
  { apply (consistent_detach self aps ues uid ue cur cur2 Hcons Hue Hcur);
      try reflexivity; simpl; rewrite Hid; reflexivity. }
  assert (Hatt : consistent self3 (<[aid := new2]> (<[UE.ap ue := cur2]> aps))
                   (<[uid := ue3]> ues)).
  { rewrite <- (insert_delete_eq ues uid ue3).
    apply (consistent_attach self self3 _ _ uid aid new new2 ue3 Hdet Hc3).
    - apply lookup_delete_eq.
    - rewrite lookup_insert_ne by exact Hne. exact Hnew.
    - rewrite Hid3. exact Hid.
    - rewrite Hap3. reflexivity.
    - exact Hbit3.
    - rewrite Hnid. reflexivity.
    - rewrite Hnloc. reflexivity.
    - rewrite Hnn, Happ3. simpl. rewrite Hid. reflexivity.
    - rewrite Hcnt3, Happ3. reflexivity.
    - exact Hfetch. }
  split; [exact Hc3|].
  right. exists ue, cur, new, ue3, cur2, new2.
  split_and!; try assumption; try reflexivity.
  - unfold self3, put_ue, put_ap. simpl. rewrite Ha2, Haps1. reflexivity.
  - unfold self3, put_ue, put_ap. simpl. rewrite Hu2.
    unfold self1, put_ap. simpl. rewrite Hues. reflexivity.
  - rewrite Hid3. exact Hid.
Qed.

(** ** The closest AP *)

Lemma closest_ap_loop_spec (u : loc) :
  forall (todo : list loc) (c : loc),
    let r := closest_ap_loop c (get_ue_ap_distance c u) todo u in
    (r = c \/ r ∈ todo)
    /\ (get_ue_ap_distance r u <= get_ue_ap_distance c u)%R
    /\ (forall x, x ∈ todo ->
          (get_ue_ap_distance r u <= get_ue_ap_distance x u)%R).
Proof.
  induction todo as [|x todo IH]; intros c; simpl.
  - split; [tauto|]. split; [lra|]. intros x Hx. inversion Hx.
  - destruct (Rlt_dec (get_ue_ap_distance x u) (get_ue_ap_distance c u))
      as [Hlt|Hge].
    + destruct (IH x) as (Hr & Hle & Hall).
      split; [|split].
      * right. destruct Hr as [->|Hr]; [left | right; exact Hr].
      * lra.
      * intros y Hy. apply elem_of_cons in Hy as [->|Hy];
          [exact Hle | apply Hall, Hy].
    + destruct (IH c) as (Hr & Hle & Hall).
      split; [|split].
      * destruct Hr as [->|Hr]; [tauto | right; right; exact Hr].
      * exact Hle.
      * intros y Hy. apply elem_of_cons in Hy as [->|Hy];
          [lra | apply Hall, Hy].
Qed.

(** [get_closest_ap_location] returns an element of the list it is given,
    at the least rounded distance from the UE. *)
Lemma get_closest_ap_location_spec (l : list loc) (u c : loc) :
  get_closest_ap_location l u = Ok c ->
  c ∈ l
  /\ (forall x, x ∈ l ->
        (get_ue_ap_distance c u <= get_ue_ap_distance x u)%R).
Proof.
  destruct l as [|c0 todo]; [discriminate|].
  unfold get_closest_ap_location. simpl. intros [= <-].
  destruct (closest_ap_loop_spec u todo c0) as (Hr & Hle & Hall).
  split.
  - destruct Hr as [->|Hr]; [left | right; exact Hr].
  - intros x Hx. apply elem_of_cons in Hx as [->|Hx];
      [exact Hle | apply Hall, Hx].
Qed.

(** ** Placing the APs *)

Lemma place_loop_spec (locations : list loc) :
  forall (i0 : Z) (lk0 : gmap loc Z) (aps0 : gmap Z AP.t) lk aps,
    place_loop locations i0 lk0 aps0 = (lk, aps) ->
    (forall a, i0 <= a -> aps0 !! a = None) ->
    (forall a ap, aps !! a = Some ap <->
        aps0 !! a = Some ap
        \/ exists (j : nat) l, locations !! j = Some l
             /\ a = i0 + Z.of_nat j /\ ap = AP.new a l)
    /\ (forall l a, lk !! l = Some a ->
          lk0 !! l = Some a
          \/ exists j : nat, locations !! j = Some l /\ a = i0 + Z.of_nat j)
    /\ (forall l, is_Some (lk0 !! l) \/ l ∈ locations -> is_Some (lk !! l)).
Proof.
  induction locations as [|l0 locations IH]; intros i0 lk0 aps0 lk aps; simpl.
  - intros [= <- <-] _. split; [|split].
    + intros a ap. split; [tauto|]. intros [H|(j & l & H & _)]; [exact H|].
      destruct j; discriminate.
    + tauto.
    + intros l [H|H]; [exact H | inversion H].
  - intros Hpl Hfresh.
    destruct (IH _ _ _ _ _ Hpl) as (Haps & Hlk & Hsome).
    { intros a Ha. rewrite lookup_insert_ne by lia. apply Hfresh. lia. }
    split; [|split].
    + intros a ap. rewrite Haps. split.
      * intros [H|(j & l & Hj & -> & ->)].
        -- destruct (decide (a = i0)) as [->|Hne].
           ++ rewrite lookup_insert_eq in H. injection H as <-.
              right. exists 0%nat, l0. split; [reflexivity|].
              split; [lia | reflexivity].
           ++ rewrite lookup_insert_ne in H by congruence. tauto.
        -- right. exists (S j), l. split; [exact Hj|].
           split; [lia|]; first [reflexivity | f_equal; lia].
      * intros [H|(j & l & Hj & -> & ->)].
        -- left. rewrite lookup_insert_ne; [exact H|].
           intros <-. rewrite Hfresh in H by lia. discriminate.
        -- destruct j as [|j]; simpl in Hj.
           ++ injection Hj as <-. left.
              replace (i0 + Z.of_nat 0) with i0 by lia.
              apply lookup_insert_eq.
           ++ right. exists j, l. split; [exact Hj|].
              split; [lia|]; first [reflexivity | f_equal; lia].
    + intros l a Hl. destruct (Hlk l a Hl) as [H|(j & Hj & ->)].
      * destruct (decide (l = l0)) as [->|Hne].
        -- rewrite lookup_insert_eq in H. injection H as <-.
           right. exists 0%nat. split; [reflexivity | lia].
        -- rewrite lookup_insert_ne in H by congruence. tauto.
      * right. exists (S j). split; [exact Hj | lia].
    + intros l Hl. apply Hsome.
      destruct (decide (l = l0)) as [->|Hne].
      * left. rewrite lookup_insert_eq. eauto.
      * rewrite lookup_insert_ne by congruence.
        destruct Hl as [Hl|Hl]; [tauto|].
        apply elem_of_cons in Hl as [?|Hl]; [congruence | tauto].
Qed.

(** ** Instantiating the UEs *)

Lemma get_ue_ap_inv u axis r c nbs :
  get_ue_ap u axis r = Ok (c, nbs) ->
  exists nb, get_neighboring_aps u axis r = Ok nb
    /\ get_closest_ap_location (within_grid nb) u = Ok c
    /\ nbs = within_grid nb ++ rest nb.
Proof.
  unfold get_ue_ap.
  destruct (get_neighboring_aps u axis r) as [nb|]; [|discriminate]. simpl.
  destruct (get_closest_ap_location _ _) as [c'|] eqn:Hc; [|discriminate].
  simpl. intros [= <- <-]. exists nb. tauto.
Qed.

Lemma attached_to_closest_config self self' ue :
  same_config self self' ->
  attached_to_closest self ue -> attached_to_closest self' ue.
Proof.
  intros (_ & _ & _ & Hr & _ & Hx & Hl) (nb & c & H1 & H2 & H3 & H4 & H5).
  exists nb, c. rewrite Hr, Hx, Hl. tauto.
Qed.

Lemma consistent_config self self' aps ues :
  same_config self self' ->
  consistent self aps ues -> consistent self' aps ues.
Proof.
  intros Hc [Hatt Hmem Hcnt Hkey Hlk]. split; try assumption.
  - intros k ue Hk. destruct (Hatt k ue Hk) as (H1 & H2 & H3 & H4).
    split_and!; try assumption.
    apply (neighbours_up_to_date_config self self' aps aps ue Hc); eauto.
  - intros l a Hl. apply Hlk.
    destruct Hc as (_ & _ & _ & _ & _ & _ & E). rewrite <- E. exact Hl.
Qed.

Lemma get_ue_location_inv app axis drawn l :
  get_ue_location app axis drawn = Ok l -> l = drawn.
Proof.
  unfold get_ue_location. destruct app, axis; congruence.
Qed.

Lemma update_ue_stats_required self ue ap r self' ue' ap' :
  update_ue_stats self ue ap = (r, (self', ue', ap')) ->
  UE.required_bandwidth ue' = UE.required_bandwidth ue.
Proof.
  unfold update_ue_stats.
  destruct (calculate_ue_throughput _ _ _ _) as [t|e].
  - destruct (calculate_ue_sla _ _ _) as [meets self1].
    destruct (calculate_ue_signal_power _); intros [= <- <- <- <-];
      reflexivity.
  - intros [= <- <- <- <-]. reflexivity.
Qed.

(** One round of the loop of [_instantiate_ues] that returns has attached
    the new UE to the closest AP of its grid cell. *)
Lemma instantiate_ue_returns self aps ues uid draw ues' self' :
  _ap_dict self = Some aps ->
  consistent self aps ues ->
  ues !! uid = None ->
  instantiate_ue uid draw self ues = (Ok ues', self') ->
  exists aps' ue',
    _ap_dict self' = Some aps' /\ _ue_dict self' = _ue_dict self
    /\ ues' = <[uid := ue']> ues
    /\ same_config self self'
    /\ consistent self' aps' ues'
    /\ attached_to_closest self' ue'
    /\ (UE.app ue' = get_ue_app draw.1 /\ UE.location ue' = draw.2
        /\ UE.required_bandwidth ue' = APPS_DICT (UE.app ue'))
    /\ (forall a, is_Some (aps' !! a) <-> is_Some (aps !! a)).
Proof.
  intros Haps Hcons Hfresh. unfold instantiate_ue.
  set (ue_app := get_ue_app draw.1).
  set (self0 := set_ue_app_stats self _).
  assert (Hc0 : same_config self self0) by (repeat split).
  destruct (get_ue_location _ _ _) as [ue_location|] eqn:Hdrawn;
    [|discriminate].
  apply get_ue_location_inv in Hdrawn as ->.
  destruct (get_ue_ap _ _ _) as [[closest nbs]|] eqn:Hgua; [|discriminate].
  apply get_ue_ap_inv in Hgua as (nb & Hnb & Hclosest & ->).
  unfold lookup_location at 1.
  destruct (_location_to_ap_lookup self0 !! closest) as [cur_id|] eqn:Hlk;
    [|discriminate].
  unfold subscript. change (_ap_dict self0) with (_ap_dict self).
  rewrite Haps.
  destruct (aps !! cur_id) as [cur|] eqn:Hcur; [|discriminate].
  set (cur1 := AP.set_n_ues cur _).
  destruct (neighboring_ap_ids self0 closest _) as [ids|] eqn:Hids;
    [|discriminate].
  set (new_ue := UE.new uid cur_id draw.2 ue_app (APPS_DICT ue_app) ids).
  destruct (update_ue_stats self0 new_ue cur1) as [r [[self1 ue'] cur2]]
    eqn:Hupd.
  destruct r as [[]|]; [|discriminate].
  intros [= <- <-].
  pose proof (update_ue_stats_frame _ _ _ _ _ _ _ Hupd)
    as (Hc1 & Ha1 & Hu1 & Hid' & Hap' & Hloc' & Happ' & Hnb' & Hnid & Hnloc
        & Hnn).
  pose proof (update_ue_stats_ok _ _ _ _ _ _ Hupd) as (Hbit' & _ & Hcnt').
  set (self2 := put_ap cur_id cur2 self1).
  assert (Hc2 : same_config self self2).
  { apply (same_config_trans _ self0); [exact Hc0|].
    apply (same_config_trans _ self1); [exact Hc1|].
    apply same_config_put_ap. }
  destruct (lookup_ap _ _ _ Hcons closest cur_id Hlk) as (cur0 & Hcur0 & Hcl).
  rewrite Hcur in Hcur0. injection Hcur0 as <-.
  assert (Hfetch : fetch_neighboring_aps self2 ue' cur2
                   = Ok (UE.neighboring_aps ue')).
  { rewrite Hnb'.
    rewrite (fetch_neighboring_aps_config self0 self2 new_ue ue' cur1 cur2).
    - unfold fetch_neighboring_aps. simpl.
      change (aps_per_axis self0) with (aps_per_axis self).
      change (explore_radius self0) with (explore_radius self).
      change (aps_per_axis self0) with (aps_per_axis self) in Hnb.
      change (explore_radius self0) with (explore_radius self) in Hnb.
      rewrite Hnb. simpl. rewrite Hcl. exact Hids.
    - apply (same_config_trans _ self1); [exact Hc1|].
      apply same_config_put_ap.
    - exact Hloc'.
    - exact Hnloc. }
  exists (<[cur_id := cur2]> aps), ue'.
  split_and!.
  - unfold self2, put_ap. simpl. rewrite Ha1.
    change (_ap_dict self0) with (_ap_dict self). rewrite Haps. reflexivity.
  - unfold self2, put_ap. simpl. rewrite Hu1. reflexivity.
  - reflexivity.
  - exact Hc2.
  - apply (consistent_attach self self2 aps ues uid cur_id cur cur2 ue'
             Hcons Hc2 Hfresh Hcur).
    + rewrite Hid'. reflexivity.
    + rewrite Hap'. reflexivity.
    + exact Hbit'.
    + rewrite Hnid. reflexivity.
    + rewrite Hnloc. reflexivity.
    + rewrite Hnn, Happ'. reflexivity.
    + rewrite Hcnt', Happ'. reflexivity.
    + exact Hfetch.
  - apply (attached_to_closest_config self0 self2).
    { apply (same_config_trans _ self1); [exact Hc1|].
      apply same_config_put_ap. }
    destruct (get_closest_ap_location_spec _ _ _ Hclosest) as (Hin & Hmin).
    exists nb, closest. rewrite Hloc', Hap'. simpl.
    split_and!; assumption.
  - rewrite Happ'. reflexivity.
  - rewrite Hloc'. reflexivity.
  - rewrite Happ'.
    pose proof (update_ue_stats_required _ _ _ _ _ _ _ Hupd) as ->.
    reflexivity.
  - intros a. destruct (decide (a = cur_id)) as [->|Hne].
    + rewrite lookup_insert_eq, Hcur. split; eauto.
    + rewrite lookup_insert_ne by congruence. tauto.
Qed.

Lemma range1_elem_of (n k : Z) : k ∈ range1 n <-> 1 <= k <= n.
Proof.
  unfold range1. rewrite list_elem_of_fmap. split.
  - intros (i & -> & Hi). apply elem_of_seq in Hi. lia.
  - intros Hk. exists (Z.to_nat k). split; [lia|].
    apply elem_of_seq. lia.
Qed.

Lemma range1_NoDup (n : Z) : NoDup (range1 n).
Proof.
  unfold range1. apply NoDup_fmap_2; [|apply NoDup_seq].
  intros x y H. lia.
Qed.

Lemma instantiate_loop_returns (rng : Z -> Z * loc) (ids : list Z) :
  forall self aps ues ues' self',
    NoDup ids ->
    (forall id, id ∈ ids -> ues !! id = None) ->
    _ap_dict self = Some aps ->
    consistent self aps ues ->
    (forall k ue, ues !! k = Some ue ->
       attached_to_closest self ue /\ drawn_as rng k ue) ->
    instantiate_loop ids rng self ues = (Ok ues', self') ->
    exists aps',
      _ap_dict self' = Some aps' /\ _ue_dict self' = _ue_dict self
      /\ same_config self self'
      /\ consistent self' aps' ues'
      /\ (forall k ue, ues' !! k = Some ue ->
            attached_to_closest self' ue /\ drawn_as rng k ue)
      /\ (forall a, is_Some (aps' !! a) <-> is_Some (aps !! a))
      /\ (forall k, is_Some (ues' !! k) <-> is_Some (ues !! k) \/ k ∈ ids).
Proof.
  induction ids as [|id ids IH]; intros self aps ues ues' self' Hnd Hfresh
    Haps Hcons Hclosest; simpl.
  - intros [= <- <-]. exists aps. split_and!; try tauto.
    + apply same_config_refl.
    + intros k. split; [tauto|]. intros [H|H]; [exact H | inversion H].
  - destruct (instantiate_ue id (rng id) self ues) as [[ues1|] self1] eqn:Hone;
      [|discriminate].
    apply NoDup_cons in Hnd as [Hnotin Hnd].
    destruct (instantiate_ue_returns _ _ _ _ _ _ _ Haps Hcons
                (Hfresh id ltac:(left)) Hone)
      as (aps1 & ue1 & Haps1 & Hues1 & -> & Hc1 & Hcons1 & Hcl1 & Hdr1
          & Hdom1).
    intros Hloop.
    destruct (IH self1 aps1 (<[id := ue1]> ues) ues' self' Hnd)
      as (aps' & Haps' & Hues' & Hc' & Hcons' & Hcl' & Hdom' & Hkeys');
      try assumption.
    { intros id' Hid'. rewrite lookup_insert_ne by (intros ->; contradiction).
      apply Hfresh. right. exact Hid'. }
    { intros k ue Hk. destruct (decide (k = id)) as [->|Hne].
      - rewrite lookup_insert_eq in Hk. injection Hk as <-.
        split; [exact Hcl1 | exact Hdr1].
      - rewrite lookup_insert_ne in Hk by congruence.
        destruct (Hclosest k ue Hk) as [Hcl Hdr]. split; [|exact Hdr].
        apply (attached_to_closest_config self self1 ue Hc1 Hcl). }
    exists aps'. split_and!; try assumption.
    + congruence.
    + apply (same_config_trans _ self1); assumption.
    + intros a. rewrite Hdom'. apply Hdom1.
    + intros k. rewrite Hkeys'. rewrite elem_of_cons.
      destruct (decide (k = id)) as [->|Hne].
      * rewrite lookup_insert_eq. split; [tauto | eauto].
      * rewrite lookup_insert_ne by congruence. tauto.
Qed.

(** ** The neighbour search returns on a grid of at least two by two *)

Lemma get_interval_total (value : Z) (l : list Z) :
  (2 <= length l)%nat ->
  exists a b, get_interval value l = Ok (Some (a, b)) /\ a ∈ l /\ b ∈ l.
Proof.
  intros Hlen.
  destruct (lookup_lt_is_Some_2 l 0%nat) as [first H0]; [lia|].
  destruct (lookup_lt_is_Some_2 l 1%nat) as [second H1]; [lia|].
  destruct (lookup_lt_is_Some_2 l (length l - 2)%nat) as [before Hb]; [lia|].
  destruct (lookup_lt_is_Some_2 l (length l - 1)%nat) as [last Hl]; [lia|].
  pose proof (list_elem_of_lookup_2 _ _ _ H0).
  pose proof (list_elem_of_lookup_2 _ _ _ H1).
  pose proof (list_elem_of_lookup_2 _ _ _ Hb).
  pose proof (list_elem_of_lookup_2 _ _ _ Hl).
  destruct (get_interval_by_cases l value first second before last
              Hlen H0 H1 Hb Hl) as (C1 & C2 & C3 & C4 & C5).
  destruct (Z_lt_le_dec value first) as [Hv|Hv];
    [exists first, first; rewrite C1 by exact Hv; tauto|].
  destruct (Z_lt_le_dec last value) as [Hv'|Hv'];
    [exists last, last; rewrite C2 by assumption; tauto|].
  destruct (Z.eq_dec value first) as [E|E];
    [exists first, second; rewrite C3 by lia; tauto|].
  destruct (Z.eq_dec value last) as [E'|E'];
    [exists before, last; rewrite C4 by lia; tauto|].
  destruct C5 as (i & p & q & Hp & Hq & _ & ->); [lia|].
  exists p, q. split; [reflexivity|].
  split; eapply list_elem_of_lookup_2; eassumption.
Qed.

Lemma grid_locations_elem_of (l : list Z) (a c : Z) :
  (a, c) ∈ grid_locations l <-> a ∈ l /\ c ∈ l.
Proof.
  unfold grid_locations. rewrite !list_elem_of_In, in_flat_map. split.
  - intros (x & Hx & Hin). apply in_map_iff in Hin as (y & [= <- <-] & Hy).
    tauto.
  - intros [Ha Hc]. exists a. split; [exact Ha|].
    apply in_map_iff. exists c. tauto.
Qed.

Lemma list_of_set_elem_of (l : list loc) (p : loc) :
  p ∈ list_of_set l <-> p ∈ l.
Proof.
  unfold list_of_set. rewrite elem_of_elements, elem_of_list_to_set.
  reflexivity.
Qed.

Lemma get_aps_in_grid_total (u : loc) (l : list Z) :
  (2 <= length l)%nat ->
  exists g, get_aps_in_grid u l = Ok g /\ g <> []
    /\ (forall p, p ∈ g -> p ∈ grid_locations l).
Proof.
  intros Hlen. destruct u as [x y]. unfold get_aps_in_grid.
  destruct (get_interval_total x l Hlen) as (a & b & -> & Ha & Hb).
  destruct (get_interval_total y l Hlen) as (c & d & -> & Hc & Hd).
  simpl. exists (list_of_set [(a, c); (a, d); (b, c); (b, d)]).
  split; [reflexivity|]. split.
  - intros E.
    assert (Hin : (a, c) ∈ list_of_set [(a, c); (a, d); (b, c); (b, d)]).
    { apply list_of_set_elem_of. left. }
    rewrite E in Hin. inversion Hin.
  - intros p Hp. apply (proj1 (list_of_set_elem_of _ _)) in Hp.
    apply elem_of_cons in Hp as [->|Hp];
      [apply grid_locations_elem_of; tauto|].
    apply elem_of_cons in Hp as [->|Hp];
      [apply grid_locations_elem_of; tauto|].
    apply elem_of_cons in Hp as [->|Hp];
      [apply grid_locations_elem_of; tauto|].
    apply elem_of_cons in Hp as [->|Hp];
      [apply grid_locations_elem_of; tauto|].
    inversion Hp.
Qed.

Lemma valid_ap_grid (p : loc) (l : list Z) :
  valid_ap p l = true -> p ∈ grid_locations l.
Proof.
  destruct p as [a c]. unfold valid_ap. simpl.
  rewrite andb_true_iff, !bool_decide_eq_true.
  apply grid_locations_elem_of.
Qed.

Lemma get_valid_neighbors_total (ap : loc) (l : list Z) :
  (2 <= length l)%nat ->
  exists v, get_valid_neighbors ap l = Ok v
    /\ (forall p, p ∈ v -> p ∈ grid_locations l).
Proof.
  intros Hlen.
  destruct (lookup_lt_is_Some_2 l 0%nat) as [a0 H0]; [lia|].
  destruct (lookup_lt_is_Some_2 l 1%nat) as [a1 H1]; [lia|].
  assert (E1 : py_index l 1 = Ok a1) by exact (py_index_lookup l 1 a1 H1).
  assert (E0 : py_index l 0 = Ok a0) by exact (py_index_lookup l 0 a0 H0).
  unfold get_valid_neighbors. rewrite E1. cbn [rbind]. rewrite E0.
  cbn [rbind].
  eexists. split; [reflexivity|].
  intros p Hp. apply list_elem_of_In, filter_In in Hp as [_ Hp].
  apply valid_ap_grid, Hp.
Qed.

Lemma extend_all_aps_total (l : list Z) :
  (2 <= length l)%nat ->
  forall (todo : list loc) (S0 : gset loc),
    (forall p, p ∈ S0 -> p ∈ grid_locations l) ->
    exists S1, extend_all_aps S0 todo l = Ok S1
      /\ (forall p, p ∈ S1 -> p ∈ grid_locations l).
Proof.
  intros Hlen. induction todo as [|ap todo IH]; intros S0 HS0; simpl.
  - exists S0. tauto.
  - destruct (get_valid_neighbors_total ap l Hlen) as (v & -> & Hv). simpl.
    apply IH. intros p Hp. apply elem_of_union in Hp as [Hp|Hp].
    + apply HS0, Hp.
    + apply Hv. apply elem_of_list_to_set in Hp. exact Hp.
Qed.

Lemma get_extended_neighboring_aps_total (l : list Z) :
  (2 <= length l)%nat ->
  forall (radius : nat) (closest_aps : list loc),
    (forall p, p ∈ closest_aps -> p ∈ grid_locations l) ->
    exists e, get_extended_neighboring_aps closest_aps l radius = Ok e
      /\ (forall p, p ∈ e -> p ∈ grid_locations l).
Proof.
  intros Hlen. induction radius as [|radius IH]; intros c Hc; simpl.
  - exists c. tauto.
  - destruct (extend_all_aps_total l Hlen c (list_to_set c))
      as (S1 & -> & HS1).
    { intros p Hp. apply Hc. apply elem_of_list_to_set in Hp. exact Hp. }
    simpl. apply IH. intros p Hp. apply HS1.
    apply elem_of_elements in Hp. exact Hp.
Qed.

Lemma get_neighboring_aps_total (u : loc) (l : list Z) (radius : Z) :
  (2 <= length l)%nat ->
  exists nb, get_neighboring_aps u l radius = Ok nb
    /\ within_grid nb <> []
    /\ (forall p, p ∈ within_grid nb ++ rest nb -> p ∈ grid_locations l).
Proof.
  intros Hlen. unfold get_neighboring_aps.
  destruct (get_aps_in_grid_total u l Hlen) as (g & -> & Hne & Hg). simpl.
  destruct (1 <? radius).
  - destruct (get_extended_neighboring_aps_total l Hlen
                (Z.to_nat (radius - 1)) g Hg) as (e & -> & He).
    simpl. eexists. split; [reflexivity|]. simpl. split; [exact Hne|].
    intros p Hp. apply elem_of_app in Hp as [Hp|Hp]; [apply Hg, Hp|].
    apply elem_of_elements, elem_of_difference in Hp as [Hp _].
    apply He. apply elem_of_list_to_set in Hp. exact Hp.
  - simpl. eexists. split; [reflexivity|]. simpl. split; [exact Hne|].
    intros p Hp. apply elem_of_app in Hp as [Hp|Hp]; [apply Hg, Hp|].
    rewrite elements_empty in Hp. inversion Hp.
Qed.

Lemma get_ue_ap_total (u : loc) (l : list Z) (radius : Z) :
  (2 <= length l)%nat ->
  exists c nbs, get_ue_ap u l radius = Ok (c, nbs)
    /\ c ∈ grid_locations l
    /\ (forall p, p ∈ nbs -> p ∈ grid_locations l).
Proof.
  intros Hlen. unfold get_ue_ap.
  destruct (get_neighboring_aps_total u l radius Hlen)
    as (nb & -> & Hne & Hnb).
  simpl. destruct (within_grid nb) as [|c0 todo] eqn:Hw; [congruence|].
  destruct (get_closest_ap_location (c0 :: todo) u) as [c|] eqn:Hc;
    [|discriminate].
  simpl. exists c, ((c0 :: todo) ++ rest nb).
  split; [reflexivity|]. split; [|exact Hnb].
  apply Hnb, elem_of_app. left.
  apply (get_closest_ap_location_spec _ _ _ Hc).
Qed.

Lemma neighboring_ap_ids_total self (cur : loc) (nbs : list loc) :
  (forall p, p ∈ nbs -> is_Some (_location_to_ap_lookup self !! p)) ->
  exists ids, neighboring_ap_ids self cur nbs = Ok ids.
Proof.
  induction nbs as [|p nbs IH]; intros H; simpl.
  - eexists. reflexivity.
  - destruct IH as [ids Hids]; [intros q Hq; apply H; right; exact Hq|].
    destruct (decide (cur = p)); [eauto|].
    unfold lookup_location.
    destruct (H p ltac:(left)) as [a ->]. simpl. rewrite Hids. simpl.
    eauto.
Qed.

Lemma get_ue_sig_power_returns (d : R) : exists p, get_ue_sig_power d = Ok p.
Proof.
  destruct (Req_dec_T d 0) as [->|Hd].
  - eexists. apply get_ue_sig_power_zero.
  - eexists. apply get_ue_sig_power_nonzero. exact Hd.
Qed.

Lemma update_ue_stats_total self ue ap :
  scale self <> 0 ->
  exists self' ue' ap', update_ue_stats self ue ap = (Ok tt, (self', ue', ap')).
Proof.
  intros Hs. unfold update_ue_stats, calculate_ue_throughput,
    get_ue_throughput, calculate_distance_factor, py_div.
  destruct (Req_dec_T (2 * IZR (scale self)) 0) as [E|_].
  { exfalso. apply Hs, eq_IZR_R0. lra. }
  simpl.
  destruct (calculate_ue_sla _ _ _) as [meets self1].
  unfold calculate_ue_signal_power.
  match goal with
  | |- context [get_ue_sig_power ?d] =>
      destruct (get_ue_sig_power_returns d) as [p Hp]
  end.
  rewrite Hp. eauto.
Qed.

(** ** The constructor *)

Lemma sla_count_empty (ues : gmap Z UE.t) : sla_count ues ∅ = 0.
Proof.
  unfold sla_count.
  assert (E : filter (meets_sla ues) (∅ : gset Z) = ∅)
    by (apply leibniz_equiv, fin_sets.filter_empty).
  rewrite E, size_empty. reflexivity.
Qed.

(** After [_place_aps] on an empty lookup table, every grid location has an
    AP, the AP ids are [1 .. number of locations], and with no UE yet the
    relation is consistent. *)
Lemma place_aps_fresh self aps self1 :
  _location_to_ap_lookup self = ∅ ->
  _place_aps self = (aps, self1) ->
  same_config (set_lookup self (_location_to_ap_lookup self1)) self1
  /\ _ap_dict self1 = _ap_dict self /\ _ue_dict self1 = _ue_dict self
  /\ consistent self1 aps ∅
  /\ (forall l, l ∈ grid_locations (aps_per_axis self) ->
        is_Some (_location_to_ap_lookup self1 !! l))
  /\ (forall a, is_Some (aps !! a) <->
        1 <= a <= Z.of_nat (length (grid_locations (aps_per_axis self))))
  /\ (forall l a, _location_to_ap_lookup self1 !! l = Some a ->
        exists j : nat,
          grid_locations (aps_per_axis self) !! j = Some l
          /\ a = 1 + Z.of_nat j).
Proof.
  intros Hempty. unfold _place_aps.
  destruct (place_loop _ _ _ _) as [lk aps'] eqn:Hpl.
  intros [= <- <-].
  destruct (place_loop_spec _ _ _ _ _ _ Hpl) as (Haps & Hlk & Hsome).
  { intros a _. apply lookup_empty. }
  split_and!; try reflexivity.
  - repeat split.
  - split.
    + intros k ue Hk. rewrite lookup_empty in Hk. discriminate.
    + intros a ap cls uid Ha Hin.
      apply Haps in Ha as [Ha|(j & l & _ & _ & ->)];
        [rewrite lookup_empty in Ha; discriminate|].
      simpl in Hin. apply not_elem_of_empty in Hin. contradiction.
    + intros a ap cls Ha.
      apply Haps in Ha as [Ha|(j & l & _ & _ & ->)];
        [rewrite lookup_empty in Ha; discriminate|].
      simpl. rewrite sla_count_empty. reflexivity.
    + intros a ap Ha.
      apply Haps in Ha as [Ha|(j & l & _ & _ & ->)];
        [rewrite lookup_empty in Ha; discriminate|].
      reflexivity.
    + intros l a Hl. simpl in Hl.
      apply Hlk in Hl as [Hl|(j & Hj & ->)].
      { rewrite Hempty, lookup_empty in Hl. discriminate. }
      exists (AP.new (1 + Z.of_nat j) l). split; [|reflexivity].
      apply Haps. right. exists j, l. tauto.
  - intros l Hl. simpl. apply Hsome. tauto.
  - intros a. split.
    + intros [ap Ha].
      apply Haps in Ha as [Ha|(j & l & Hj & -> & _)];
        [rewrite lookup_empty in Ha; discriminate|].
      apply lookup_lt_Some in Hj. lia.
    + intros Ha.
      destruct (lookup_lt_is_Some_2 (grid_locations (aps_per_axis self))
                  (Z.to_nat (a - 1))) as [l Hl]; [lia|].
      exists (AP.new a l). apply Haps. right.
      exists (Z.to_nat (a - 1)), l. split; [exact Hl|]. split; [lia|].
      reflexivity.
  - intros l a Hl. simpl in Hl.
    apply Hlk in Hl as [Hl|H]; [|exact H].
    rewrite Hempty, lookup_empty in Hl. discriminate.
Qed.

Lemma grid_locations_length (l : list Z) :
  length (grid_locations l) = (length l * length l)%nat.
Proof.
  unfold grid_locations.
  assert (H : forall l1 : list Z,
             length (flat_map (fun x => map (fun y => (x, y)) l) l1)
             = (length l1 * length l)%nat).
  { induction l1 as [|x l1 IH]; simpl; [reflexivity|].
    rewrite length_app, length_map, IH. reflexivity. }
  apply H.
Qed.

(** What the constructor has built when it returns. *)
Lemma init_returns n m s r rng self :
  __init__ n m s r rng = Ok self ->
  num_ues self = n /\ num_aps self = m /\ scale self = s
  /\ explore_radius self = r /\ x_units self = Z.sqrt m
  /\ aps_per_axis self
     = map (fun i => (1 + 2 * Z.of_nat i) * s) (seq 0 (Z.to_nat (Z.sqrt m)))
  /\ exists aps ues,
       _ap_dict self = Some aps /\ _ue_dict self = Some ues
       /\ consistent self aps ues
       /\ (forall k ue, ues !! k = Some ue ->
             attached_to_closest self ue /\ drawn_as rng k ue)
       /\ (forall a, is_Some (aps !! a) <-> 1 <= a <= Z.sqrt m * Z.sqrt m)
       /\ (forall k, is_Some (ues !! k) <-> 1 <= k <= n)
       /\ (forall l, l ∈ grid_locations (aps_per_axis self) ->
             is_Some (_location_to_ap_lookup self !! l))
       /\ (forall l a, _location_to_ap_lookup self !! l = Some a ->
             exists j : nat,
               grid_locations (aps_per_axis self) !! j = Some l
               /\ a = 1 + Z.of_nat j).
Proof.
  unfold __init__. destruct (m <? 0) eqn:Hm; [discriminate|].
  apply Z.ltb_ge in Hm.
  set (axis := map _ (seq 0 (Z.to_nat (Z.sqrt m)))).
  set (self0 := mkNet n m s r (Z.sqrt m) axis ∅ None None (fun _ => 0) (0, 0)).
  destruct (_place_aps self0) as [aps self1] eqn:Hplace.
  destruct (place_aps_fresh self0 aps self1 eq_refl Hplace)
    as (Hc1 & Ha1 & Hu1 & Hcons1 & Hgrid1 & Hdom1 & Hidx1).
  set (self2 := set_ap_dict self1 (Some aps)).
  unfold _instantiate_ues.
  destruct (instantiate_loop _ rng self2 ∅) as [[ues|] self3] eqn:Hloop;
    [|discriminate].
  intros [= <-].
  assert (Hc2 : same_config self1 self2) by (repeat split).
  destruct (instantiate_loop_returns rng (range1 (num_ues self2)) self2 aps ∅
              ues self3 (range1_NoDup _))
    as (aps' & Haps' & Hues' & Hc3 & Hcons3 & Hcl3 & Hdom3 & Hkeys3);
    try assumption.
  { intros id _. apply lookup_empty. }
  { reflexivity. }
  { apply (consistent_config self1 self2 aps ∅ Hc2 Hcons1). }
  { intros k ue Hk. rewrite lookup_empty in Hk. discriminate. }
  set (self4 := set_ue_dict self3 (Some ues)).
  assert (Hc4 : same_config self3 self4) by (repeat split).
  assert (Hc : same_config self0
                 (set_lookup self4 (_location_to_ap_lookup self0))).
  { unfold same_config in *. simpl in *. intuition congruence. }
  destruct Hc as (E1 & E2 & E3 & E4 & E5 & E6 & _). simpl in E1, E2, E3, E4, E5, E6.
  split_and!; try assumption.
  exists aps', ues. split_and!.
  - exact Haps'.
  - reflexivity.
  - apply (consistent_config self3 self4 aps' ues Hc4 Hcons3).
  - intros k ue Hk. destruct (Hcl3 k ue Hk) as [Hcl Hdr].
    split; [|exact Hdr].
    apply (attached_to_closest_config self3 self4 ue Hc4 Hcl).
  - intros a. rewrite Hdom3, Hdom1. simpl.
    rewrite grid_locations_length. unfold axis.
    rewrite length_map, length_seq.
    pose proof (Z.sqrt_nonneg m). nia.
  - intros k. rewrite Hkeys3, range1_elem_of.
    rewrite lookup_empty.
    assert (En : num_ues self2 = n).
    { destruct Hc1 as (En & _). simpl in En. exact En. }
    rewrite En. split; [intros [[? H]|H]; [discriminate | exact H] | tauto].
  - intros l Hl.
    assert (El : _location_to_ap_lookup self4 = _location_to_ap_lookup self1).
    { destruct Hc4 as (_ & _ & _ & _ & _ & _ & ->).
      destruct Hc3 as (_ & _ & _ & _ & _ & _ & ->). reflexivity. }
    rewrite El. apply Hgrid1.
    change (aps_per_axis self4) with (aps_per_axis self3) in Hl.
    rewrite E6 in Hl. exact Hl.
  - intros l a Hl.
    assert (El : _location_to_ap_lookup self4 = _location_to_ap_lookup self1).
    { destruct Hc4 as (_ & _ & _ & _ & _ & _ & ->).
      destruct Hc3 as (_ & _ & _ & _ & _ & _ & ->). reflexivity. }
    rewrite El in Hl.
    change (aps_per_axis self4) with (aps_per_axis self3). rewrite E6.
    apply Hidx1, Hl.
Qed.

(** ** The constructor returns on valid parameters *)

Lemma usable_grid_config self self' :
  same_config self self' -> usable_grid self -> usable_grid self'.
Proof.
  intros (_ & _ & Hs & _ & _ & Hx & Hl) (H1 & H2 & H3).
  unfold usable_grid. rewrite Hs, Hx, Hl. tauto.
Qed.

Lemma get_ue_location_total app (axis : list Z) (drawn : loc) :
  (2 <= length axis)%nat -> get_ue_location app axis drawn = Ok drawn.
Proof.
  intros H. destruct axis; [simpl in H; lia|]. destruct app; reflexivity.
Qed.

Lemma instantiate_ue_total self aps ues uid draw :
  _ap_dict self = Some aps ->
  consistent self aps ues ->
  usable_grid self ->
  exists ues' self', instantiate_ue uid draw self ues = (Ok ues', self').
Proof.
  intros Haps Hcons (Hlen & Hscale & Hgrid). unfold instantiate_ue.
  set (self0 := set_ue_app_stats self _).
  change (aps_per_axis self0) with (aps_per_axis self).
  change (explore_radius self0) with (explore_radius self).
  rewrite (get_ue_location_total _ _ _ Hlen).
  destruct (get_ue_ap_total draw.2 (aps_per_axis self) (explore_radius self)
              Hlen) as (c & nbs & -> & Hc & Hnbs).
  unfold lookup_location at 1.
  change (_location_to_ap_lookup self0) with (_location_to_ap_lookup self).
  destruct (Hgrid c Hc) as [a Ha]. rewrite Ha.
  destruct (lookup_ap _ _ _ Hcons c a Ha) as (ap & Hap & _).
  change (_ap_dict self0) with (_ap_dict self).
  unfold subscript. rewrite Haps, Hap.
  destruct (neighboring_ap_ids_total self0 c nbs) as [ids ->].
  { intros p Hp. apply Hgrid, Hnbs, Hp. }
  match goal with
  | |- context [update_ue_stats self0 ?ue ?ap] =>
      destruct (update_ue_stats_total self0 ue ap Hscale)
        as (self1 & ue1 & ap1 & ->)
  end.
  eauto.
Qed.

Lemma instantiate_loop_total (rng : Z -> Z * loc) (ids : list Z) :
  forall self aps ues,
    NoDup ids ->
    (forall id, id ∈ ids -> ues !! id = None) ->
    _ap_dict self = Some aps ->
    consistent self aps ues ->
    usable_grid self ->
    exists ues' self', instantiate_loop ids rng self ues = (Ok ues', self').
Proof.
  induction ids as [|id ids IH]; intros self aps ues Hnd Hfresh Haps Hcons
    Hgrid; simpl.
  - eauto.
  - apply NoDup_cons in Hnd as [Hnotin Hnd].
    destruct (instantiate_ue_total self aps ues id (rng id) Haps Hcons Hgrid)
      as (ues1 & self1 & Hone).
    rewrite Hone.
    destruct (instantiate_ue_returns _ _ _ _ _ _ _ Haps Hcons
                (Hfresh id ltac:(left)) Hone)
      as (aps1 & ue1 & Haps1 & _ & -> & Hc1 & Hcons1 & _ & _ & _).
    apply (IH self1 aps1); try assumption.
    + intros id' Hid'. rewrite lookup_insert_ne by (intros ->; contradiction).
      apply Hfresh. right. exact Hid'.
    + apply (usable_grid_config self self1 Hc1 Hgrid).
Qed.

(** With at least four APs and a non-zero scale the constructor returns,
    whatever the random draws. *)
Lemma init_total (n m s r : Z) (rng : Z -> Z * loc) :
  4 <= m -> s <> 0 -> exists self, __init__ n m s r rng = Ok self.
Proof.
  intros Hm Hs. unfold __init__.
  destruct (Z.ltb_spec m 0) as [?|_]; [lia|].
  set (axis := map _ (seq 0 (Z.to_nat (Z.sqrt m)))).
  set (self0 := mkNet n m s r (Z.sqrt m) axis ∅ None None (fun _ => 0) (0, 0)).
  destruct (_place_aps self0) as [aps self1] eqn:Hplace.
  destruct (place_aps_fresh self0 aps self1 eq_refl Hplace)
    as (Hc1 & Ha1 & Hu1 & Hcons1 & Hgrid1 & Hdom1 & _).
  set (self2 := set_ap_dict self1 (Some aps)).
  assert (Hc2 : same_config self1 self2) by (repeat split).
  destruct Hc1 as (_ & _ & E3 & _ & _ & E6 & _). simpl in E3, E6.
  unfold _instantiate_ues.
  destruct (instantiate_loop_total rng (range1 (num_ues self2)) self2 aps ∅
              (range1_NoDup _)) as (ues & self3 & ->).
  - intros id _. apply lookup_empty.
  - reflexivity.
  - apply (consistent_config self1 self2 aps ∅ Hc2 Hcons1).
  - apply (usable_grid_config self1 self2 Hc2).
    unfold usable_grid. rewrite E3, E6. split_and!.
    + unfold axis. rewrite length_map, length_seq.
      assert (2 <= Z.sqrt m) by (apply Z.sqrt_le_square; lia). lia.
    + exact Hs.
    + exact Hgrid1.
  - eauto.
Qed.

(** ** Reachable states *)

Lemma reachable_well_formed self : reachable self -> well_formed self.
Proof.
  induction 1 as [n m s r rng self Hinit | self uid aid res self' _ IH Hh].
  - destruct (init_returns _ _ _ _ _ _ Hinit)
      as (_ & _ & _ & _ & _ & _ & aps & ues & Ha & Hu & Hc & _).
    exists aps, ues. tauto.
  - destruct IH as (aps & ues & Ha & Hu & Hc).
    destruct (perform_handoff_returns _ _ _ _ _ _ _ Ha Hu Hc Hh)
      as (_ & [(ue & _ & _ & _ & ->) | H]).
    + exists aps, ues. tauto.
    + destruct H as (ue & cur & new & ue' & cur' & new' & _ & _ & _ & _ & _
                     & Ha' & Hu' & _ & _ & _ & _ & _ & _ & Hc').
      eexists _, _. split_and!; eassumption.
Qed.

(** ** The invariants of the reachable states *)

(** C5: in every state reached by the constructor followed by calls of
    [perform_handoff] that return, the counter [ues_meeting_sla[class]] of
    every AP is the number of UE ids of its set [n_ues[class]] whose stored
    [sla] field is 1. *)
Theorem ues_meeting_sla_is_running_count (self : StaticNetwork) :
  reachable self ->
  exists aps ues,
    _ap_dict self = Some aps /\ _ue_dict self = Some ues
    /\ forall a ap cls, aps !! a = Some ap ->
         AP.ues_meeting_sla ap cls
         = Z.of_nat (size (filter (fun uid => UE.sla <$> ues !! uid = Some 1)
                             (AP.n_ues ap cls))).
Proof.
  intros Hr. destruct (reachable_well_formed self Hr) as (aps & ues & Ha & Hu & Hc).
  exists aps, ues. split_and!; try assumption.
  intros a ap cls Hap. apply (ap_counter _ _ _ Hc a ap cls Hap).
Qed.

(** C6: in every such state a UE id is in the set of at most one AP, under
    at most one application class; the UE it names is attached to that
    AP ([ue.ap] is the [ap_id] of the AP); and every UE is in the set of
    the AP it is attached to. *)
Theorem ue_id_in_one_ap_set (self : StaticNetwork) :
  reachable self ->
  exists aps ues,
    _ap_dict self = Some aps /\ _ue_dict self = Some ues
    /\ (forall a1 ap1 cls1 a2 ap2 cls2 uid,
          aps !! a1 = Some ap1 -> uid ∈ AP.n_ues ap1 cls1 ->
          aps !! a2 = Some ap2 -> uid ∈ AP.n_ues ap2 cls2 ->
          a1 = a2 /\ ap1 = ap2 /\ cls1 = cls2)
    /\ (forall a ap cls uid,
          aps !! a = Some ap -> uid ∈ AP.n_ues ap cls ->
          exists ue, ues !! uid = Some ue /\ UE.ue_id ue = uid
            /\ UE.ap ue = AP.ap_id ap /\ AP.ap_id ap = a
            /\ UE.app ue = cls)
    /\ (forall uid ue, ues !! uid = Some ue ->
          exists ap, aps !! UE.ap ue = Some ap
            /\ uid ∈ AP.n_ues ap (UE.app ue)).
Proof.
  intros Hr.
  destruct (reachable_well_formed self Hr) as (aps & ues & Ha & Hu & Hc).
  exists aps, ues. split_and!; try assumption.
  - intros a1 ap1 cls1 a2 ap2 cls2 uid H1 Hin1 H2 Hin2.
    destruct (ap_members _ _ _ Hc _ _ _ _ H1 Hin1) as (ue1 & E1 & A1 & C1).
    destruct (ap_members _ _ _ Hc _ _ _ _ H2 Hin2) as (ue2 & E2 & A2 & C2).
    rewrite E1 in E2. injection E2 as <-.
    assert (Ea : a1 = a2) by congruence.
    split; [exact Ea|]. split; congruence.
  - intros a ap cls uid Hap Hin.
    destruct (ap_members _ _ _ Hc _ _ _ _ Hap Hin) as (ue & E & A & C).
    exists ue. pose proof (ap_key _ _ _ Hc a ap Hap).
    destruct (ue_attached _ _ _ Hc uid ue E) as (Hid & _).
    split_and!; congruence.
  - intros uid ue Hue.
    destruct (ue_attached _ _ _ Hc uid ue Hue) as (_ & _ & H & _). exact H.
Qed.

(** ** Handoff to the current AP *)

Lemma instantiate_ue_ue_dict self ues uid draw r self' :
  instantiate_ue uid draw self ues = (r, self') ->
  _ue_dict self' = _ue_dict self.
Proof.
  unfold instantiate_ue.
  destruct (get_ue_location _ _ _); [|intros [= <- <-]; reflexivity].
  destruct (get_ue_ap _ _ _) as [[c nbs]|]; [|intros [= <- <-]; reflexivity].
  destruct (lookup_location _ _); [|intros [= <- <-]; reflexivity].
  destruct (subscript _ _); [|intros [= <- <-]; reflexivity].
  destruct (neighboring_ap_ids _ _ _); [|intros [= <- <-]; reflexivity].
  destruct (update_ue_stats _ _ _) as [r0 [[self1 ue1] ap1]] eqn:Hupd.
  apply update_ue_stats_frame in Hupd as (_ & _ & Hu & _).
  destruct r0; intros [= <- <-]; exact Hu.
Qed.

Lemma instantiate_loop_ue_dict (rng : Z -> Z * loc) (ids : list Z) :
  forall self ues r self',
    instantiate_loop ids rng self ues = (r, self') ->
    _ue_dict self' = _ue_dict self.
Proof.
  induction ids as [|id ids IH]; intros self ues r self'; simpl.
  - intros [= <- <-]. reflexivity.
  - destruct (instantiate_ue id (rng id) self ues) as [[ues1|e] self1] eqn:H1.
    + intros Hloop. rewrite (IH _ _ _ _ Hloop).
      apply (instantiate_ue_ue_dict _ _ _ _ _ _ H1).
    + intros [= <- <-]. apply (instantiate_ue_ue_dict _ _ _ _ _ _ H1).
Qed.

(** Whatever its outcome, [reset_network] leaves no dictionary of UEs. *)
Lemma reset_network_ue_dict self rng r self' :
  reset_network rng self = (r, self') -> _ue_dict self' = None.
Proof.
  unfold reset_network, _place_aps.
  destruct (place_loop _ _ _ _) as [lk aps].
  unfold _instantiate_ues.
  destruct (instantiate_loop _ _ _ _) as [[ues|e] self1] eqn:Hloop;
    intros [= <- <-];
    rewrite (instantiate_loop_ue_dict _ _ _ _ _ _ Hloop); reflexivity.
Qed.

(** Whatever its outcome, [perform_handoff] leaves every UE with an AP
    that is in the dictionary of APs. *)
Lemma perform_handoff_ue_aps_exist self uid aid r self' :
  ue_aps_exist self ->
  perform_handoff uid aid self = (r, self') ->
  ue_aps_exist self'.
Proof.
  intros HJ. unfold perform_handoff, validate_ue.
  destruct (subscript (_ue_dict self) uid) as [ue|] eqn:Hue;
    [|intros [= <- <-]; exact HJ].
  unfold subscript in Hue.
  destruct (_ue_dict self) as [ues|] eqn:Hues; [|discriminate].
  destruct (HJ ues Hues) as (aps & Haps & Hall).
  rewrite Haps. unfold subscript at 1.
  destruct (aps !! UE.ap ue) as [cur|] eqn:Hcur;
    [|intros [= <- <-]; exact HJ].
  destruct (decide (UE.ap ue = aid)) as [E|Hne];
    [intros [= <- <-]; exact HJ|].
  unfold handoff_to_ap.
  destruct (decide _) as [_|_];
    [|intros [= <- <-]; exact HJ].
  set (cur2 := AP.set_ues_meeting_sla _ _).
  set (self1 := put_ap (UE.ap ue) cur2 self).
  assert (Haps1 : _ap_dict self1 = Some (<[UE.ap ue := cur2]> aps)).
  { unfold self1, put_ap. simpl. rewrite Haps. reflexivity. }
  assert (Hues1 : _ue_dict self1 = Some ues) by exact Hues.
  assert (Hkeep : forall (m : gmap Z AP.t) a ap k,
            is_Some (m !! k) -> is_Some (<[a := ap]> m !! k)).
  { intros m a ap k Hk. destruct (decide (k = a)) as [->|Hn].
    - rewrite lookup_insert_eq. eauto.
    - rewrite lookup_insert_ne by congruence. exact Hk. }
  unfold validate_ap, subscript. rewrite Haps1.
  destruct (<[UE.ap ue := cur2]> aps !! aid) as [new|] eqn:Hnew.
  2:{ intros [= <- <-]. intros ues' Hu'. rewrite Hues1 in Hu'.
      injection Hu' as <-. eexists. split; [exact Haps1|].
      intros k ue0 Hk. apply Hkeep, (Hall k ue0 Hk). }
  set (ue1 := UE.set_ap ue aid).
  set (new1 := AP.set_n_ues new _).
  assert (Hfinal : forall self2 ue3 new2,
            _ap_dict self2 = _ap_dict self1 ->
            _ue_dict self2 = _ue_dict self1 ->
            UE.ap ue3 = aid ->
            ue_aps_exist (put_ue uid ue3 (put_ap aid new2 self2))).
  { intros self2 ue3 new2 Ha2 Hu2 Hap3 ues' Hu'.
    unfold put_ue, put_ap in Hu' |- *. simpl in Hu' |- *.
    rewrite Hu2, Hues1 in Hu'. simpl in Hu'. injection Hu' as <-.
    rewrite Ha2, Haps1. simpl. eexists. split; [reflexivity|].
    intros k ue0 Hk. destruct (decide (k = uid)) as [->|Hn].
    - rewrite lookup_insert_eq in Hk. injection Hk as <-.
      rewrite Hap3, lookup_insert_eq. eauto.
    - rewrite lookup_insert_ne in Hk by congruence.
      apply Hkeep, Hkeep, (Hall k ue0 Hk). }
  destruct (fetch_neighboring_aps self1 ue1 new1) as [ids|].
  2:{ intros [= <- <-]. apply Hfinal; reflexivity. }
  destruct (update_ue_stats _ _ _) as [r0 [[self2 ue3] new2]] eqn:Hupd.
  apply update_ue_stats_frame in Hupd as (_ & Ha2 & Hu2 & _ & Hap3 & _).
  destruct r0; intros [= <- <-]; apply Hfinal; assumption.
Qed.

Lemma operated_ue_aps_exist self : operated self -> ue_aps_exist self.
Proof.
  induction 1 as [n m s r rng self Hinit
                 | self uid aid r self' _ IH Hh
                 | self rng r self' _ IH Hr].
  - destruct (init_returns _ _ _ _ _ _ Hinit)
      as (_ & _ & _ & _ & _ & _ & aps & ues & Ha & Hu & Hc & _).
    intros ues' Hu'. rewrite Hu in Hu'. injection Hu' as <-.
    exists aps. split; [exact Ha|]. intros k ue Hk.
    destruct (ue_attached _ _ _ Hc k ue Hk) as (_ & _ & (ap & Hap & _) & _).
    eauto.
  - apply (perform_handoff_ue_aps_exist _ _ _ _ _ IH Hh).
  - intros ues Hu. rewrite (reset_network_ue_dict _ _ _ _ Hr) in Hu.
    discriminate.
Qed.

(** C7: in every state the simulator can be in, for every existing UE, a
    handoff to the AP the UE is attached to returns [DONE=False] with [UE],
    [OLD_AP] and [NEW_AP] absent, and the simulator, with every AP record
    and every UE record, is unchanged. *)
Theorem perform_handoff_same_ap_is_noop (self : StaticNetwork)
    (ue_id : Z) (ue : UE.t) :
  operated self ->
  validate_ue self ue_id = Ok ue ->
  perform_handoff ue_id (UE.ap ue) self
  = (Ok {| DONE := false; UE := None; OLD_AP := None; NEW_AP := None |},
     self).
Proof.
  intros Hop Hue. unfold perform_handoff. rewrite Hue.
  unfold validate_ue, subscript in Hue.
  destruct (_ue_dict self) as [ues|] eqn:Hues; [|discriminate].
  destruct (ues !! ue_id) as [ue0|] eqn:Hk; [|discriminate].
  injection Hue as ->.
  destruct (operated_ue_aps_exist self Hop ues Hues) as (aps & Haps & Hall).
  destruct (Hall ue_id ue Hk) as [cur Hcur].
  unfold subscript. rewrite Haps, Hcur.
  destruct (decide (UE.ap ue = UE.ap ue)); [reflexivity | congruence].
Qed.

Lemma perform_handoff_same_ap_is_noop_witness :
  exists self ue,
    operated self /\ validate_ue self 1 = Ok ue
    /\ perform_handoff 1 (UE.ap ue) self
       = (Ok {| DONE := false; UE := None; OLD_AP := None; NEW_AP := None |},
          self).
Proof.
  destruct (init_total 1 4 100 1 corner_draws) as [self Hinit]; [lia | lia |].
  assert (Hop : operated self) by (eapply operated_init; exact Hinit).
  destruct (init_returns _ _ _ _ _ _ Hinit)
    as (_ & _ & _ & _ & _ & _ & aps & ues & Ha & Hu & _ & _ & _ & Hk & _).
  destruct (proj2 (Hk 1) ltac:(lia)) as [ue Hue].
  assert (Hv : validate_ue self 1 = Ok ue).
  { unfold validate_ue, subscript. rewrite Hu, Hue. reflexivity. }
  exists self, ue. split_and!; try assumption.
  exact (perform_handoff_same_ap_is_noop self 1 ue Hop Hv).
Defined.

(** ** Handoff to an AP that does not exist *)

(** The UE is removed from the set and the counter of its AP before the
    requested AP is looked up; the [KeyError] of the lookup leaves the
    removal in place. *)
Lemma perform_handoff_unknown_ap self aps ues uid ue cur aid :
  _ap_dict self = Some aps ->
  _ue_dict self = Some ues ->
  ues !! uid = Some ue ->
  aps !! UE.ap ue = Some cur ->
  UE.ue_id ue ∈ AP.n_ues cur (UE.app ue) ->
  aps !! aid = None ->
  exists cur',
    perform_handoff uid aid self
    = (Raise KeyError, put_ap (UE.ap ue) cur' self)
    /\ AP.n_ues cur' (UE.app ue)
       = (AP.n_ues cur (UE.app ue) ∖ {[UE.ue_id ue]})
    /\ AP.ues_meeting_sla cur' (UE.app ue)
       = AP.ues_meeting_sla cur (UE.app ue) - UE.sla ue.
Proof.
  intros Haps Hues Hue Hcur Hin Hnone.
  unfold perform_handoff, validate_ue, subscript.
  rewrite Hues, Hue, Haps, Hcur.
  destruct (decide (UE.ap ue = aid)) as [E|Hne]; [congruence|].
  unfold handoff_to_ap.
  destruct (decide (UE.ue_id ue ∈ AP.n_ues cur (UE.app ue))) as [_|];
    [|contradiction].
  eexists. split.
  - unfold validate_ap, subscript, put_ap at 1. simpl. rewrite Haps. simpl.
    rewrite lookup_insert_ne by exact Hne. rewrite Hnone. reflexivity.
  - simpl. rewrite !dict_set_eq. split; reflexivity.
Qed.

(** C3: in the network of one UE and four APs, [perform_handoff(1, 99)]
    raises [KeyError], and afterwards UE 1 still names its AP while that AP
    no longer has UE 1 in its set and has had its counter decremented:
    the two-way relation is broken. *)
Theorem perform_handoff_unknown_ap_detaches_ue (self : StaticNetwork) :
  __init__ 1 4 100 1 corner_draws = Ok self ->
  exists self' ue cur cur',
    perform_handoff 1 99 self = (Raise KeyError, self')
    /\ validate_ue self 1 = Ok ue
    /\ validate_ap self (UE.ap ue) = Ok cur
    /\ 1 ∈ AP.n_ues cur (UE.app ue)
    /\ validate_ue self' 1 = Ok ue
    /\ validate_ap self' (UE.ap ue) = Ok cur'
    /\ (1 ∉ AP.n_ues cur' (UE.app ue))
    /\ AP.ues_meeting_sla cur' (UE.app ue)
       = AP.ues_meeting_sla cur (UE.app ue) - UE.sla ue
    /\ well_formed self /\ ~ well_formed self'.
Proof.
  intros Hinit.
  destruct (init_returns _ _ _ _ _ _ Hinit)
    as (_ & _ & _ & _ & _ & _ & aps & ues & Ha & Hu & Hc & _ & Hdom & Hk & _).
  destruct (proj2 (Hk 1) ltac:(lia)) as [ue Hue].
  destruct (ue_attached _ _ _ Hc 1 ue Hue)
    as (Hid & _ & (cur & Hcur & Hin) & _).
  assert (Hnone : aps !! 99 = None).
  { destruct (aps !! 99) eqn:E; [|reflexivity].
    assert (Hs : is_Some (aps !! 99)) by eauto.
    apply Hdom in Hs. change (Z.sqrt 4) with 2 in Hs. lia. }
  destruct (perform_handoff_unknown_ap self aps ues 1 ue cur 99 Ha Hu Hue Hcur)
    as (cur' & Hres & Hn & Hs); [rewrite Hid; exact Hin | exact Hnone |].
  rewrite Hid in Hn.
  assert (Hcur' : validate_ap (put_ap (UE.ap ue) cur' self) (UE.ap ue)
                  = Ok cur').
  { unfold validate_ap, subscript, put_ap. simpl. rewrite Ha. simpl.
    rewrite lookup_insert_eq. reflexivity. }
  assert (Hout : 1 ∉ AP.n_ues cur' (UE.app ue)).
  { rewrite Hn, elem_of_difference, elem_of_singleton. tauto. }
  exists (put_ap (UE.ap ue) cur' self), ue, cur, cur'.
  split_and!; try assumption.
  - unfold validate_ue, subscript. rewrite Hu, Hue. reflexivity.
  - unfold validate_ap, subscript. rewrite Ha, Hcur. reflexivity.
  - unfold validate_ue, subscript, put_ap. simpl. rewrite Hu, Hue.
    reflexivity.
  - exists aps, ues. tauto.
  - intros (aps' & ues' & Ha' & Hu' & Hc').
    unfold put_ap in Ha', Hu'. simpl in Ha', Hu'.
    rewrite Ha in Ha'. simpl in Ha'. injection Ha' as <-.
    rewrite Hu in Hu'. injection Hu' as <-.
    destruct (ue_attached _ _ _ Hc' 1 ue Hue)
      as (_ & _ & (ap & Hap & Hin') & _).
    rewrite lookup_insert_eq in Hap. injection Hap as <-.
    contradiction.
Qed.

Lemma perform_handoff_unknown_ap_detaches_ue_witness :
  exists self self' ue cur',
    __init__ 1 4 100 1 corner_draws = Ok self
    /\ perform_handoff 1 99 self = (Raise KeyError, self')
    /\ validate_ue self' 1 = Ok ue
    /\ validate_ap self' (UE.ap ue) = Ok cur'
    /\ (1 ∉ AP.n_ues cur' (UE.app ue)).
Proof.
  destruct (init_total 1 4 100 1 corner_draws) as [self Hinit]; [lia | lia |].
  destruct (perform_handoff_unknown_ap_detaches_ue self Hinit)
    as (self' & ue & cur & cur' & H1 & _ & _ & _ & H2 & H3 & H4 & _).
  exists self, self', ue, cur'. tauto.
Defined.

(** ** reset_network *)

Lemma range1_cons (n : Z) : 1 <= n -> exists tl, range1 n = 1 :: tl.
Proof.
  intros Hn. unfold range1.
  destruct (Z.to_nat n) as [|k] eqn:E; [lia|].
  simpl. eauto.
Qed.

(** With its dictionary of APs cleared, the first round of the UE loop
    raises [TypeError] at [self._ap_dict[current_ap_id]]. *)
Lemma instantiate_ue_without_ap_dict self ues uid draw :
  _ap_dict self = None ->
  (2 <= length (aps_per_axis self))%nat ->
  (forall l, l ∈ grid_locations (aps_per_axis self) ->
     is_Some (_location_to_ap_lookup self !! l)) ->
  exists self', instantiate_ue uid draw self ues = (Raise TypeError, self')
    /\ _ap_dict self' = None /\ _ue_dict self' = _ue_dict self.
Proof.
  intros Hnone Hlen Hgrid. unfold instantiate_ue.
  set (self0 := set_ue_app_stats self _).
  change (aps_per_axis self0) with (aps_per_axis self).
  change (explore_radius self0) with (explore_radius self).
  rewrite (get_ue_location_total _ _ _ Hlen).
  destruct (get_ue_ap_total draw.2 (aps_per_axis self) (explore_radius self)
              Hlen) as (c & nbs & -> & Hc & Hnbs).
  unfold lookup_location at 1.
  change (_location_to_ap_lookup self0) with (_location_to_ap_lookup self).
  destruct (Hgrid c Hc) as [a ->].
  change (_ap_dict self0) with (_ap_dict self). rewrite Hnone. simpl.
  exists self0. split_and!; [reflexivity | exact Hnone | reflexivity].
Qed.

(** [reset_network] on a network with at least one UE and two APs per
    axis raises [TypeError] and leaves both dictionaries cleared. *)
Lemma reset_network_raises self rng :
  (2 <= length (aps_per_axis self))%nat ->
  1 <= num_ues self ->
  exists self', reset_network rng self = (Raise TypeError, self')
    /\ _ap_dict self' = None /\ _ue_dict self' = None.
Proof.
  intros Hlen Hn. unfold reset_network, _place_aps.
  set (self_a := set_ue_dict (set_ap_dict self None) None).
  destruct (place_loop _ _ _ _) as [lk aps] eqn:Hpl.
  destruct (place_loop_spec _ _ _ _ _ _ Hpl) as (_ & _ & Hsome).
  { intros a _. apply lookup_empty. }
  set (self_b := set_lookup self_a lk).
  unfold _instantiate_ues.
  destruct (range1_cons (num_ues self_b) Hn) as [tl ->]. simpl.
  destruct (instantiate_ue_without_ap_dict self_b ∅ 1 (rng 1))
    as (self' & -> & Ha & Hu); [reflexivity | exact Hlen | |].
  { intros l Hl. simpl. apply Hsome. right. exact Hl. }
  exists self'. split_and!; [reflexivity | exact Ha | exact Hu].
Qed.

(** Without UEs [reset_network] returns, with both dictionaries cleared. *)
Lemma reset_network_without_ues self rng :
  num_ues self <= 0 ->
  exists self', reset_network rng self = (Ok tt, self')
    /\ _ap_dict self' = None /\ _ue_dict self' = None.
Proof.
  intros Hn. unfold reset_network, _place_aps.
  destruct (place_loop _ _ _ _) as [lk aps].
  unfold _instantiate_ues, range1. simpl.
  replace (Z.to_nat (num_ues self)) with 0%nat by lia. simpl.
  eexists. split_and!; reflexivity.
Qed.

(** C2: on a network built with at least one UE and at least four APs,
    [reset_network] does not return: it raises [TypeError], and leaves the
    simulator with both dictionaries cleared, so that every query raises
    too. *)
Theorem reset_network_raises_type_error (n m s r : Z)
    (rng rng' : Z -> Z * loc) (self : StaticNetwork) :
  __init__ n m s r rng = Ok self ->
  1 <= n -> 4 <= m ->
  exists self',
    reset_network rng' self = (Raise TypeError, self')
    /\ _ap_dict self' = None /\ _ue_dict self' = None
    /\ ap_list self' = Raise AttributeError
    /\ ue_list self' = Raise AttributeError
    /\ (forall ap_id, ap_info self' ap_id = Raise TypeError)
    /\ (forall ue_id, ue_info self' ue_id = Raise TypeError).
Proof.
  intros Hinit Hn Hm.
  destruct (init_returns _ _ _ _ _ _ Hinit)
    as (En & _ & _ & _ & _ & Eaxis & _).
  destruct (reset_network_raises self rng') as (self' & Hres & Ha & Hu).
  - rewrite Eaxis, length_map, length_seq.
    assert (2 <= Z.sqrt m) by (apply Z.sqrt_le_square; lia). lia.
  - rewrite En. exact Hn.
  - exists self'. split_and!; try assumption.
    + unfold ap_list. rewrite Ha. reflexivity.
    + unfold ue_list. rewrite Hu. reflexivity.
    + intros a. unfold ap_info, validate_ap. rewrite Ha. reflexivity.
    + intros k. unfold ue_info, validate_ue. rewrite Hu. reflexivity.
Qed.

Lemma reset_network_raises_type_error_witness :
  exists self self',
    __init__ 1 4 100 1 corner_draws = Ok self
    /\ reset_network corner_draws self = (Raise TypeError, self')
    /\ ap_list self' = Raise AttributeError.
Proof.
  destruct (init_total 1 4 100 1 corner_draws) as [self Hinit]; [lia | lia |].
  destruct (reset_network_raises_type_error 1 4 100 1 corner_draws
              corner_draws self Hinit) as (self' & H1 & _ & _ & H2 & _);
    [lia | lia |].
  exists self, self'. tauto.
Defined.

(** ** Neighbour lists and attachment points *)



(** A handoff of an existing UE to an existing AP returns. *)
Lemma perform_handoff_total self aps ues uid aid ue new :
  _ap_dict self = Some aps ->
  _ue_dict self = Some ues ->
  consistent self aps ues ->
  usable_grid self ->
  ues !! uid = Some ue ->
  aps !! aid = Some new ->
  exists res self', perform_handoff uid aid self = (Ok res, self').
Proof.
  intros Haps Hues Hcons (Hlen & Hscale & Hgrid) Hue Hnew.
  destruct (ue_attached _ _ _ Hcons uid ue Hue)
    as (Hid & _ & (cur & Hcur & Hin) & _).
  unfold perform_handoff, validate_ue, subscript.
  rewrite Hues, Hue, Haps, Hcur.
  destruct (decide (UE.ap ue = aid)) as [E|Hne]; [eauto|].
  unfold handoff_to_ap.
  destruct (decide (UE.ue_id ue ∈ AP.n_ues cur (UE.app ue))) as [_|Hn];
    [|rewrite Hid in Hn; contradiction].
  set (cur2 := AP.set_ues_meeting_sla _ _).
  set (self1 := put_ap (UE.ap ue) cur2 self).
  unfold validate_ap, subscript.
  assert (Haps1 : _ap_dict self1 = Some (<[UE.ap ue := cur2]> aps)).
  { unfold self1, put_ap. simpl. rewrite Haps. reflexivity. }
  rewrite Haps1, lookup_insert_ne by exact Hne. rewrite Hnew.
  set (ue1 := UE.set_ap ue aid).
  set (new1 := AP.set_n_ues new _).
  unfold fetch_neighboring_aps.
  change (aps_per_axis self1) with (aps_per_axis self).
  change (explore_radius self1) with (explore_radius self).
  destruct (get_neighboring_aps_total (UE.location ue1) (aps_per_axis self)
              (explore_radius self) Hlen) as (nb & -> & _ & Hnb).
  cbn [rbind].
  destruct (neighboring_ap_ids_total self1 (AP.location new1)
              (within_grid nb ++ rest nb)) as [ids ->].
  { intros p Hp. apply Hgrid, Hnb, Hp. }
  match goal with
  | |- context [update_ue_stats self1 ?u ?a] =>
      destruct (update_ue_stats_total self1 u a Hscale)
        as (self2 & ue3 & new2 & ->)
  end.
  eauto.
Qed.



(** The network of one UE at (50, 50) and four APs at a scale of 100. *)
Lemma corner_network self :
  __init__ 1 4 100 1 corner_draws = Ok self ->
  aps_per_axis self = [100; 300] /\ explore_radius self = 1
  /\ usable_grid self
  /\ exists aps ues ue ap1 ap4,
       _ap_dict self = Some aps /\ _ue_dict self = Some ues
       /\ consistent self aps ues
       /\ ues !! 1 = Some ue /\ UE.location ue = (50, 50) /\ UE.ap ue = 1
       /\ aps !! 1 = Some ap1 /\ AP.location ap1 = (100, 100)
       /\ aps !! 4 = Some ap4
       /\ _location_to_ap_lookup self !! (100, 100) = Some 1
       /\ fetch_neighboring_aps self ue ap1 = Ok (UE.neighboring_aps ue).
Proof.
  intros Hinit.
  destruct (init_returns _ _ _ _ _ _ Hinit)
    as (_ & _ & Es & Er & _ & Eaxis & aps & ues & Ha & Hu & Hc & Hcl & Hdom
        & Hk & Hgrid & Hidx).
  change (map _ _) with [100; 300] in Eaxis.
  destruct (proj2 (Hk 1) ltac:(lia)) as [ue Hue].
  destruct (Hcl 1 ue Hue) as ((nb & c & Hnb & _ & Hin & _ & Hlk)
                              & (_ & Hloc & _)).
  change ((corner_draws 1).2) with (50, 50) in Hloc.
  rewrite Hloc, Eaxis, Er in Hnb.
  change (get_neighboring_aps (50, 50) [100; 300] 1)
    with (Ok {| within_grid := [(100, 100)]; rest := [] |}) in Hnb.
  injection Hnb as <-. simpl in Hin.
  apply list_elem_of_singleton in Hin. subst c.
  assert (Eap : UE.ap ue = 1).
  { destruct (Hidx _ _ Hlk) as (j & Hj & ->). rewrite Eaxis in Hj.
    change (grid_locations [100; 300])
      with [(100, 100); (100, 300); (300, 100); (300, 300)] in Hj.
    destruct j as [|[|[|[|j]]]]; simpl in Hj; try discriminate.
    reflexivity. }
  rewrite Eap in Hlk.
  destruct (lookup_ap _ _ _ Hc _ _ Hlk) as (ap1 & Hap1 & Hl1).
  destruct (proj2 (Hdom 4) ltac:(change (Z.sqrt 4) with 2; lia)) as [ap4 Hap4].
  destruct (ue_attached _ _ _ Hc 1 ue Hue) as (_ & _ & _ & (ap & Hap & Hf)).
  rewrite Eap, Hap1 in Hap. injection Hap as <-.
  split_and!; try assumption.
  - unfold usable_grid. rewrite Eaxis, Es. split_and!; [simpl; lia | lia|].
    rewrite <- Eaxis. exact Hgrid.
  - exists aps, ues, ue, ap1, ap4. split_and!; assumption.
Qed.


(** ** The invariants after a handoff in the corner network *)

(** In the corner network the handoff of UE 1 to AP 4 returns, and the
    state it reaches is reachable. *)
Lemma corner_network_handoff :
  exists self res self',
    __init__ 1 4 100 1 corner_draws = Ok self
    /\ perform_handoff 1 4 self = (Ok res, self')
    /\ DONE res = true
    /\ reachable self'.
Proof.
  destruct (init_total 1 4 100 1 corner_draws) as [self Hinit]; [lia | lia |].
  destruct (corner_network self Hinit)
    as (_ & _ & Hgrid & aps & ues & ue & ap1 & ap4 & Ha & Hu & Hc & Hue
        & _ & Eap & _ & _ & Hap4 & _).
  destruct (perform_handoff_total self aps ues 1 4 ue ap4 Ha Hu Hc Hgrid
              Hue Hap4) as (res & self' & Hh).
  exists self, res, self'. split_and!; try assumption.
  - destruct (perform_handoff_returns _ _ _ _ _ _ _ Ha Hu Hc Hh)
      as (_ & [(ue0 & Hue0 & E & _) | H]).
    + rewrite Hue in Hue0. injection Hue0 as <-. lia.
    + destruct H as (? & ? & ? & ? & ? & ? & _ & _ & _ & _ & -> & _).
      reflexivity.
  - eapply reachable_handoff; [|exact Hh].
    eapply reachable_init. exact Hinit.
Qed.

Lemma ues_meeting_sla_is_running_count_witness :
  exists self, reachable self
    /\ exists aps ues,
         _ap_dict self = Some aps /\ _ue_dict self = Some ues
         /\ forall a ap cls, aps !! a = Some ap ->
              AP.ues_meeting_sla ap cls
              = Z.of_nat (size (filter
                                  (fun uid => UE.sla <$> ues !! uid = Some 1)
                                  (AP.n_ues ap cls))).
Proof.
  destruct corner_network_handoff as (self & res & self' & _ & _ & _ & Hr).
  exists self'. split; [exact Hr|].
  exact (ues_meeting_sla_is_running_count self' Hr).
Defined.

Lemma ue_id_in_one_ap_set_witness :
  exists self, reachable self
    /\ exists aps ues,
         _ap_dict self = Some aps /\ _ue_dict self = Some ues
         /\ (forall a ap cls uid,
               aps !! a = Some ap -> uid ∈ AP.n_ues ap cls ->
               exists ue, ues !! uid = Some ue /\ UE.ap ue = AP.ap_id ap).
Proof.
  destruct corner_network_handoff as (self & res & self' & _ & _ & _ & Hr).
  exists self'. split; [exact Hr|].
  destruct (ue_id_in_one_ap_set self' Hr) as (aps & ues & Ha & Hu & _ & H & _).
  exists aps, ues. split_and!; try assumption.
  intros a ap cls uid Hap Hin.
  destruct (H a ap cls uid Hap Hin) as (ue & E & _ & A & _).
  exists ue. tauto.
Defined.

(** * Further properties of the utility layer *)

(** ** get_interval on short lists *)

(** [get_interval] raises [IndexError] on an empty list; on a list of one
    coordinate it repeats that coordinate for any other value and raises
    [IndexError] for the coordinate itself; on two or more coordinates it
    always returns a pair, either one element twice or two consecutive
    elements. *)
Theorem get_interval_edge_cases :
  (forall value, get_interval value [] = Raise IndexError)
  /\ (forall value a, value <> a ->
        get_interval value [a] = Ok (Some (a, a)))
  /\ (forall a, get_interval a [a] = Raise IndexError)
  /\ (forall value (num_list : list Z),
        (2 <= length num_list)%nat ->
        exists p q,
          get_interval value num_list = Ok (Some (p, q))
          /\ p ∈ num_list /\ q ∈ num_list
          /\ (p = q \/ exists i : nat,
                num_list !! i = Some p /\ num_list !! S i = Some q)).
Proof.
  split_and!.
  - reflexivity.
  - intros value a Hne. unfold get_interval. simpl.
    destruct (Z.ltb_spec value a); [reflexivity|].
    destruct (Z.ltb_spec a value); [reflexivity | lia].
  - intros a. unfold get_interval. simpl.
    rewrite Z.ltb_irrefl, Z.eqb_refl. reflexivity.
  - intros value l Hlen.
    destruct (lookup_lt_is_Some_2 l 0%nat) as [first H0]; [lia|].
    destruct (lookup_lt_is_Some_2 l 1%nat) as [second H1]; [lia|].
    destruct (lookup_lt_is_Some_2 l (length l - 2)%nat) as [before Hb]; [lia|].
    destruct (lookup_lt_is_Some_2 l (length l - 1)%nat) as [last Hl]; [lia|].
    pose proof (list_elem_of_lookup_2 _ _ _ H0).
    pose proof (list_elem_of_lookup_2 _ _ _ H1).
    pose proof (list_elem_of_lookup_2 _ _ _ Hb).
    pose proof (list_elem_of_lookup_2 _ _ _ Hl).
    destruct (get_interval_by_cases l value first second before last
                Hlen H0 H1 Hb Hl) as (C1 & C2 & C3 & C4 & C5).
    destruct (Z_lt_le_dec value first) as [Hv|Hv].
    { exists first, first. rewrite C1 by exact Hv. tauto. }
    destruct (Z_lt_le_dec last value) as [Hv'|Hv'].
    { exists last, last. rewrite C2 by assumption. tauto. }
    destruct (Z.eq_dec value first) as [E|E].
    { exists first, second. rewrite C3 by lia. split_and!; try tauto.
      right. exists 0%nat. tauto. }
    destruct (Z.eq_dec value last) as [E'|E'].
    { exists before, last. rewrite C4 by lia. split_and!; try tauto.
      right. exists (length l - 2)%nat. split; [exact Hb|].
      replace (S (length l - 2)) with (length l - 1)%nat by lia. exact Hl. }
    destruct C5 as (i & p & q & Hp & Hq & _ & ->); [lia|].
    exists p, q. split_and!; try reflexivity.
    + eapply list_elem_of_lookup_2; eassumption.
    + eapply list_elem_of_lookup_2; eassumption.
    + right. exists i. tauto.
Qed.

Lemma get_interval_edge_cases_witness :
  get_interval 7 [5] = Ok (Some (5, 5))
  /\ exists p q, get_interval 40 [30; 10; 50] = Ok (Some (p, q)).
Proof.
  destruct get_interval_edge_cases as (_ & H1 & _ & H2).
  split; [apply H1; lia|].
  destruct (H2 40 [30; 10; 50]) as (p & q & H & _); [simpl; lia|].
  exists p, q. exact H.
Defined.

(** ** The corners of the grid cell *)

Lemma sorted_lookup_lt (l : list Z) :
  StronglySorted Z.lt l ->
  forall (i j : nat) a b, (i < j)%nat ->
    l !! i = Some a -> l !! j = Some b -> a < b.
Proof.
  induction 1 as [|x l Hs IH Hall]; intros i j a b Hij Hi Hj.
  - discriminate.
  - destruct j as [|j]; [lia|]. simpl in Hj.
    destruct i as [|i]; simpl in Hi.
    + injection Hi as <-. rewrite Forall_forall in Hall.
      apply Hall. eapply list_elem_of_lookup_2; eassumption.
    + apply (IH i j); [lia | assumption | assumption].
Qed.

(** On a strictly increasing axis the pair of [get_interval] has two
    different elements for a value within the range (ends included) and one
    element twice for a value outside. *)
Lemma get_interval_sorted (l : list Z) (value first last : Z) :
  StronglySorted Z.lt l -> (2 <= length l)%nat ->
  l !! 0%nat = Some first -> l !! (length l - 1)%nat = Some last ->
  exists p q, get_interval value l = Ok (Some (p, q))
    /\ p ∈ l /\ q ∈ l
    /\ (if decide (first <= value <= last) then p < q else p = q).
Proof.
  intros Hs Hlen H0 Hl.
  destruct (lookup_lt_is_Some_2 l 1%nat) as [second H1]; [lia|].
  destruct (lookup_lt_is_Some_2 l (length l - 2)%nat) as [before Hb]; [lia|].
  pose proof (list_elem_of_lookup_2 _ _ _ H0).
  pose proof (list_elem_of_lookup_2 _ _ _ H1).
  pose proof (list_elem_of_lookup_2 _ _ _ Hb).
  pose proof (list_elem_of_lookup_2 _ _ _ Hl).
  assert (Hfs : first < second)
    by (apply (sorted_lookup_lt l Hs 0 1); [lia | assumption..]).
  assert (Hbl : before < last)
    by (apply (sorted_lookup_lt l Hs (length l - 2) (length l - 1));
        [lia | assumption..]).
  assert (Hfl : first <= last).
  { destruct (decide (length l - 1 = 1)%nat) as [E|E].
    - rewrite E in Hl. rewrite H1 in Hl. injection Hl as <-. lia.
    - pose proof (sorted_lookup_lt l Hs 0 (length l - 1) first last
                    ltac:(lia) H0 Hl). lia. }
  destruct (get_interval_by_cases l value first second before last
              Hlen H0 H1 Hb Hl) as (C1 & C2 & C3 & C4 & C5).
  destruct (Z_lt_le_dec value first) as [Hv|Hv].
  { exists first, first. rewrite C1 by exact Hv.
    destruct (decide _); [lia | tauto]. }
  destruct (Z_lt_le_dec last value) as [Hv'|Hv'].
  { exists last, last. rewrite C2 by assumption.
    destruct (decide _); [lia | tauto]. }
  destruct (decide (first <= value <= last)) as [_|?]; [|lia].
  destruct (Z.eq_dec value first) as [E|E].
  { exists first, second. rewrite C3 by lia. tauto. }
  destruct (Z.eq_dec value last) as [E'|E'].
  { exists before, last. rewrite C4; [tauto | lia | lia]. }
  destruct C5 as (i & p & q & Hp & Hq & Hpq & ->); [lia|].
  exists p, q. split_and!; try reflexivity.
  - eapply list_elem_of_lookup_2; eassumption.
  - eapply list_elem_of_lookup_2; eassumption.
  - lia.
Qed.

Lemma corners_length (a b c d : Z) :
  length (list_of_set [(a, c); (a, d); (b, c); (b, d)])
  = ((if decide (a = b) then 1 else 2)
     * (if decide (c = d) then 1 else 2))%nat.
Proof.
  unfold list_of_set.
  change (length (elements ?X)) with (size X).
  assert (Hsame : forall l l' : list loc,
             (forall p, p ∈ l <-> p ∈ l') -> NoDup l' ->
             size (list_to_set l : gset loc) = length l').
  { intros l l' Hll' Hnd. rewrite <- (size_list_to_set (C := gset loc) l' Hnd).
    f_equal. apply set_eq. intros p. rewrite !elem_of_list_to_set. apply Hll'. }
  destruct (decide (a = b)) as [->|Hab], (decide (c = d)) as [->|Hcd].
  - apply (Hsame _ [(b, d)]).
    + intros p. rewrite !elem_of_cons, !elem_of_nil. tauto.
    + apply NoDup_singleton.
  - apply (Hsame _ [(b, c); (b, d)]).
    + intros p. rewrite !elem_of_cons, !elem_of_nil. tauto.
    + apply NoDup_cons. split; [|apply NoDup_singleton].
      rewrite list_elem_of_singleton. congruence.
  - apply (Hsame _ [(a, d); (b, d)]).
    + intros p. rewrite !elem_of_cons, !elem_of_nil. tauto.
    + apply NoDup_cons. split; [|apply NoDup_singleton].
      rewrite list_elem_of_singleton. congruence.
  - apply (Hsame _ [(a, c); (a, d); (b, c); (b, d)]).
    + tauto.
    + repeat (apply NoDup_cons; split); try apply NoDup_nil_2;
        rewrite ?elem_of_cons, ?elem_of_nil;
        intros Hin; decompose [or] Hin; congruence.
Qed.

(** On a strictly increasing axis of at least two coordinates,
    [get_aps_in_grid] returns distinct grid locations: four when both
    coordinates of the UE are within the range of the axis, two when one
    is, one when neither is. *)
Theorem get_aps_in_grid_corners (aps_per_axis : list Z) (x y first last : Z) :
  StronglySorted Z.lt aps_per_axis ->
  (2 <= length aps_per_axis)%nat ->
  aps_per_axis !! 0%nat = Some first ->
  aps_per_axis !! (length aps_per_axis - 1)%nat = Some last ->
  exists corners,
    get_aps_in_grid (x, y) aps_per_axis = Ok corners
    /\ NoDup corners
    /\ (forall p, p ∈ corners -> p ∈ grid_locations aps_per_axis)
    /\ length corners
       = ((if decide (first <= x <= last)%Z then 2 else 1)
          * (if decide (first <= y <= last)%Z then 2 else 1))%nat.
Proof.
  intros Hs Hlen H0 Hl. unfold get_aps_in_grid.
  destruct (get_interval_sorted aps_per_axis x first last Hs Hlen H0 Hl)
    as (a & b & -> & Ha & Hb & Hab).
  destruct (get_interval_sorted aps_per_axis y first last Hs Hlen H0 Hl)
    as (c & d & -> & Hc & Hd & Hcd).
  simpl. eexists. split; [reflexivity|]. split_and!.
  - unfold list_of_set. apply NoDup_elements.
  - intros p Hp. apply (proj1 (list_of_set_elem_of _ _)) in Hp.
    repeat (apply elem_of_cons in Hp as [->|Hp];
            [apply grid_locations_elem_of; tauto|]).
    inversion Hp.
  - rewrite corners_length.
    destruct (decide (first <= x <= last)), (decide (a = b)); try lia;
      destruct (decide (first <= y <= last)), (decide (c = d)); lia.
Qed.

Lemma get_aps_in_grid_corners_witness :
  exists corners,
    get_aps_in_grid (345, 50) [100; 300; 500; 700] = Ok corners
    /\ length corners = 2%nat.
Proof.
  assert (Hs : StronglySorted Z.lt [100; 300; 500; 700]).
  { repeat constructor; lia. }
  destruct (get_aps_in_grid_corners [100; 300; 500; 700] 345 50 100 700 Hs)
    as (corners & H & _ & _ & Hn); [simpl; lia | reflexivity | reflexivity |].
  exists corners. split; [exact H | exact Hn].
Defined.

(** ** Neighbours on the grid *)

Lemma valid_ap_iff (p : loc) (l : list Z) :
  valid_ap p l = true <-> p ∈ grid_locations l.
Proof.
  destruct p as [a c]. unfold valid_ap. simpl.
  rewrite andb_true_iff, !bool_decide_eq_true.
  symmetry. apply grid_locations_elem_of.
Qed.

(** [get_valid_neighbors] raises [IndexError] on an axis of fewer than two
    coordinates; otherwise it returns, of the four locations one step (the
    difference of the first two coordinates) away along an axis, exactly
    those that are grid locations. *)
Theorem get_valid_neighbors_spec :
  (forall (ap : loc) (l : list Z),
      (length l < 2)%nat -> get_valid_neighbors ap l = Raise IndexError)
  /\ (forall (ap : loc) (l : list Z) (a0 a1 : Z),
        l !! 0%nat = Some a0 -> l !! 1%nat = Some a1 ->
        exists v,
          get_valid_neighbors ap l = Ok v
          /\ (length v <= 4)%nat
          /\ forall p, p ∈ v <->
               p ∈ grid_locations l
               /\ (p = (ap.1 - (a1 - a0), ap.2) \/ p = (ap.1 + (a1 - a0), ap.2)
                   \/ p = (ap.1, ap.2 - (a1 - a0))
                   \/ p = (ap.1, ap.2 + (a1 - a0)))).
Proof.
  split.
  - intros ap [|x [|y l]] Hlen; [reflexivity | reflexivity | simpl in Hlen; lia].
  - intros ap l a0 a1 H0 H1.
    assert (E1 : py_index l 1 = Ok a1) by exact (py_index_lookup l 1 a1 H1).
    assert (E0 : py_index l 0 = Ok a0) by exact (py_index_lookup l 0 a0 H0).
    unfold get_valid_neighbors. rewrite E1. cbn [rbind]. rewrite E0.
    cbn [rbind]. eexists. split; [reflexivity|]. split.
    + etrans; [apply List.filter_length_le|]. simpl. lia.
    + intros p. rewrite list_elem_of_In, filter_In, valid_ap_iff.
      rewrite <- list_elem_of_In, !elem_of_cons, elem_of_nil. tauto.
Qed.

Lemma get_valid_neighbors_spec_witness :
  exists v, get_valid_neighbors (100, 300) [100; 300; 500] = Ok v
    /\ (300, 300) ∈ v.
Proof.
  destruct get_valid_neighbors_spec as [_ H].
  destruct (H (100, 300) [100; 300; 500] 100 300) as (v & Hv & _ & Hin);
    [reflexivity | reflexivity |].
  exists v. split; [exact Hv|]. apply Hin. split.
  - apply grid_locations_elem_of. split.
    + apply elem_of_cons. right. apply elem_of_cons. left. reflexivity.
    + apply elem_of_cons. right. apply elem_of_cons. left. reflexivity.
  - right. left. reflexivity.
Defined.

Lemma within_steps_more (l : list Z) (n : nat) (p q : loc) :
  within_steps l n p q -> within_steps l (S n) p q.
Proof.
  induction 1 as [n p | n p v m q Hv Hm _ IH].
  - apply within_steps_here.
  - eapply within_steps_step; eassumption.
Qed.

(** One pass of the loop adds the valid neighbours of the locations it
    visits, and nothing else. *)
Lemma extend_all_aps_spec (l : list Z) :
  forall (todo : list loc) (S0 S1 : gset loc),
    extend_all_aps S0 todo l = Ok S1 ->
    forall q, q ∈ S1 <->
      q ∈ S0 \/ exists p v, p ∈ todo /\ get_valid_neighbors p l = Ok v /\ q ∈ v.
Proof.
  induction todo as [|ap todo IH]; intros S0 S1 H q; simpl in H.
  - injection H as <-. split; [tauto|].
    intros [Hq | (p & v & Hp & _)]; [exact Hq | inversion Hp].
  - destruct (get_valid_neighbors ap l) as [v|e] eqn:Hv; [|discriminate].
    simpl in H. rewrite (IH _ _ H q), elem_of_union, elem_of_list_to_set.
    split.
    + intros [[Hq|Hq] | (p & w & Hp & Hw & Hq)].
      * tauto.
      * right. exists ap, v. split; [left|]. tauto.
      * right. exists p, w. split; [right; exact Hp|]. tauto.
    + intros [Hq | (p & w & Hp & Hw & Hq)]; [tauto|].
      apply elem_of_cons in Hp as [->|Hp].
      * rewrite Hv in Hw. injection Hw as <-. tauto.
      * right. exists p, w. tauto.
Qed.

Lemma get_extended_neighboring_aps_within (l : list Z) :
  forall (radius : nat) (closest_aps e : list loc),
    get_extended_neighboring_aps closest_aps l radius = Ok e ->
    forall q, q ∈ e <->
      exists p, p ∈ closest_aps /\ within_steps l radius p q.
Proof.
  induction radius as [|radius IH]; intros c e H q; simpl in H.
  - injection H as <-. split.
    + intros Hq. exists q. split; [exact Hq | apply within_steps_here].
    + intros (p & Hp & Hs). inversion Hs; subst. exact Hp.
  - destruct (extend_all_aps _ c l) as [S1|err] eqn:HS1; [|discriminate].
    simpl in H. rewrite (IH _ _ H q).
    pose proof (extend_all_aps_spec l c _ _ HS1) as Hspec.
    split.
    + intros (p & Hp & Hs). apply elem_of_elements, Hspec in Hp.
      destruct Hp as [Hp | (p0 & v & Hp0 & Hv & Hp)].
      * apply elem_of_list_to_set in Hp. exists p.
        split; [exact Hp | apply within_steps_more, Hs].
      * exists p0. split; [exact Hp0|].
        eapply within_steps_step; eassumption.
    + intros (p & Hp & Hs). inversion Hs as [| n p' v m q' Hv Hm Hs']; subst.
      * exists q. split; [|apply within_steps_here].
        apply elem_of_elements, Hspec. left.
        apply elem_of_list_to_set, Hp.
      * exists m. split; [|exact Hs'].
        apply elem_of_elements, Hspec. right. exists p, v. tauto.
Qed.

(** [get_extended_neighboring_aps] returns the start locations unchanged at
    radius 0, and otherwise exactly the locations within [radius] steps of
    a start location, each once. *)
Theorem get_extended_neighboring_aps_reach (l : list Z) (radius : nat)
    (closest_aps e : list loc) :
  get_extended_neighboring_aps closest_aps l radius = Ok e ->
  (radius = 0%nat -> e = closest_aps)
  /\ ((0 < radius)%nat -> NoDup e)
  /\ (forall q, q ∈ e <->
        exists p, p ∈ closest_aps /\ within_steps l radius p q).
Proof.
  intros H. split_and!.
  - intros ->. simpl in H. congruence.
  - intros Hr. destruct radius as [|radius]; [lia|]. simpl in H.
    destruct (extend_all_aps _ _ l) as [S1|]; [|discriminate]. simpl in H.
    destruct radius as [|radius]; simpl in H.
    + injection H as <-. apply NoDup_elements.
    + destruct (extend_all_aps _ _ l) as [S2|]; [|discriminate]. simpl in H.
      clear -H. revert S2 e H.
      induction radius as [|radius IH]; intros S2 e H; simpl in H.
      * injection H as <-. apply NoDup_elements.
      * destruct (extend_all_aps _ _ l) as [S3|]; [|discriminate].
        simpl in H. eapply IH, H.
  - apply get_extended_neighboring_aps_within, H.
Qed.

Lemma get_extended_neighboring_aps_reach_witness :
  exists e, get_extended_neighboring_aps [(100, 100)] [100; 300] 1 = Ok e
    /\ (300, 100) ∈ e.
Proof.
  destruct (get_extended_neighboring_aps_total [100; 300] ltac:(simpl; lia)
              1 [(100, 100)]) as (e & He & _).
  { intros p Hp. apply list_elem_of_singleton in Hp as ->.
    apply grid_locations_elem_of. split; left. }
  exists e. split; [exact He|].
  destruct (get_extended_neighboring_aps_reach _ _ _ _ He) as (_ & _ & Hin).
  apply Hin. exists (100, 100). split; [left|].
  apply (within_steps_step [100; 300] 0 (100, 100)
           [(300, 100); (100, 300)] (300, 100) (300, 100)).
  - reflexivity.
  - left.
  - apply within_steps_here.
Defined.

Lemma get_aps_in_grid_NoDup (u : loc) (l : list Z) (g : list loc) :
  get_aps_in_grid u l = Ok g -> NoDup g.
Proof.
  destruct u as [x y]. unfold get_aps_in_grid.
  destruct (get_interval x l) as [[[a b]|]|]; simpl; try discriminate;
    destruct (get_interval y l) as [[[c d]|]|]; simpl; try discriminate.
  intros [= <-]. unfold list_of_set. apply NoDup_elements.
Qed.

(** The neighbour locations of [get_neighboring_aps] hold no location
    twice; the second part is empty for a radius of at most 1, and for a
    larger radius it holds exactly the locations within [radius - 1] steps
    of a corner of the grid cell that are not corners themselves. *)
Theorem get_neighboring_aps_partition (u : loc) (l : list Z) (radius : Z)
    (nb : NEIGHBORING_APS) :
  get_neighboring_aps u l radius = Ok nb ->
  NoDup (within_grid nb ++ rest nb)
  /\ (radius <= 1 -> rest nb = [])
  /\ (1 < radius ->
      forall q, q ∈ rest nb <->
        (q ∉ within_grid nb)
        /\ exists p, p ∈ within_grid nb
             /\ within_steps l (Z.to_nat (radius - 1)) p q).
Proof.
  unfold get_neighboring_aps.
  destruct (get_aps_in_grid u l) as [g|] eqn:Hg; [|discriminate]. simpl.
  pose proof (get_aps_in_grid_NoDup _ _ _ Hg) as Hnd.
  destruct (Z.ltb_spec 1 radius) as [Hr|Hr].
  - destruct (get_extended_neighboring_aps g l _) as [e|] eqn:He;
      [|discriminate].
    simpl. intros [= <-]. simpl.
    pose proof (get_extended_neighboring_aps_within l _ _ _ He) as Hin.
    split_and!.
    + apply NoDup_app. split_and!; [exact Hnd | | apply NoDup_elements].
      intros p Hp Hp'.
      apply elem_of_elements, elem_of_difference in Hp' as [_ Hp'].
      apply Hp', elem_of_list_to_set, Hp.
    + lia.
    + intros _ q.
      rewrite elem_of_elements, elem_of_difference, !elem_of_list_to_set.
      rewrite Hin. tauto.
  - simpl. intros [= <-]. simpl. rewrite elements_empty. split_and!.
    + rewrite app_nil_r. exact Hnd.
    + reflexivity.
    + lia.
Qed.

Lemma get_neighboring_aps_partition_witness :
  exists nb, get_neighboring_aps (50, 50) [100; 300] 1 = Ok nb
    /\ NoDup (within_grid nb ++ rest nb) /\ rest nb = [].
Proof.
  destruct (get_neighboring_aps_total (50, 50) [100; 300] 1
              ltac:(simpl; lia)) as (nb & Hnb & _).
  exists nb. split; [exact Hnb|].
  destruct (get_neighboring_aps_partition _ _ _ _ Hnb) as (Hnd & Hrest & _).
  split; [exact Hnd | apply Hrest; lia].
Defined.

(** ** Distances *)

Section DistanceFacts.
Local Open Scope R_scope.

(** The value [rint] returns is within one half of its argument. *)
Lemma rint_within_half (x : R) :
  IZR (rint x) - 1 / 2 <= x <= IZR (rint x) + 1 / 2.
Proof.
  destruct (Int_part_bounds x) as [Hlo Hhi]. unfold rint.
  destruct (Rlt_dec (x - IZR (Int_part x)) (1 / 2)); [lra|].
  destruct (Rlt_dec (1 / 2) (x - IZR (Int_part x))).
  - rewrite plus_IZR. lra.
  - destruct (Z.even (Int_part x)); [lra|]. rewrite plus_IZR. lra.
Qed.

Lemma rint_mono (x y : R) : x <= y -> (rint x <= rint y)%Z.
Proof.
  intros Hxy.
  destruct (Z_le_gt_dec (rint x) (rint y)) as [H|H]; [exact H|].
  exfalso.
  pose proof (rint_within_half x) as [Hx _].
  pose proof (rint_within_half y) as [_ Hy].
  assert (H1 : (rint y + 1 <= rint x)%Z) by lia.
  apply IZR_le in H1. rewrite plus_IZR in H1.
  assert (E : x = y) by lra. subst y. lia.
Qed.

Lemma rint_le (x : R) (z : Z) : x <= IZR z -> (rint x <= z)%Z.
Proof. intros H. rewrite <- (rint_IZR z). apply rint_mono, H. Qed.

Lemma np_around3_mono (x y : R) : x <= y -> np_around3 x <= np_around3 y.
Proof.
  intros H. unfold np_around3.
  assert (Hz : (rint (x * 1000) <= rint (y * 1000))%Z)
    by (apply rint_mono; lra).
  apply IZR_le in Hz. lra.
Qed.

Lemma np_around3_0 : np_around3 0 = 0.
Proof. rewrite (np_around3_near 0 0); lra. Qed.

Lemma np_around3_nonneg (x : R) : 0 <= x -> 0 <= np_around3 x.
Proof. intros H. rewrite <- np_around3_0. apply np_around3_mono, H. Qed.

Lemma sq_norm_sym (a b : loc) : sq_norm a b = sq_norm b a.
Proof. unfold sq_norm. ring. Qed.

Lemma sq_norm_zero (a b : loc) : sq_norm a b = 0%Z <-> a = b.
Proof.
  destruct a as [a1 a2], b as [b1 b2]. unfold sq_norm. simpl. split.
  - intros H.
    pose proof (Z.square_nonneg (a1 - b1)) as H1.
    pose proof (Z.square_nonneg (a2 - b2)) as H2.
    assert (E1 : ((a1 - b1) * (a1 - b1) = 0)%Z) by lia.
    assert (E2 : ((a2 - b2) * (a2 - b2) = 0)%Z) by lia.
    apply Z.mul_eq_0 in E1, E2. f_equal; lia.
  - intros [= -> ->]. ring.
Qed.

Lemma sq_norm_nonneg (a b : loc) : (0 <= sq_norm a b)%Z.
Proof.
  unfold sq_norm.
  pose proof (Z.square_nonneg (a.1 - b.1)).
  pose proof (Z.square_nonneg (a.2 - b.2)). lia.
Qed.

Lemma get_ue_ap_distance_same (a : loc) : get_ue_ap_distance a a = 0.
Proof.
  unfold get_ue_ap_distance.
  rewrite (proj2 (sq_norm_zero a a) eq_refl), sqrt_0. apply np_around3_0.
Qed.

Lemma get_ue_ap_distance_far (a b : loc) :
  a <> b -> 1 <= get_ue_ap_distance a b.
Proof.
  intros Hne. unfold get_ue_ap_distance.
  assert (Hsq : (1 <= sq_norm a b)%Z).
  { pose proof (sq_norm_nonneg a b).
    destruct (Z.eq_dec (sq_norm a b) 0%Z) as [E|E]; [|lia].
    apply sq_norm_zero in E. contradiction. }
  apply IZR_le in Hsq.
  replace 1 with (IZR 1000 / 1000) at 1 by lra.
  apply np_around3_ge.
  replace (IZR 1000 / 1000) with 1 by lra.
  rewrite <- sqrt_1. apply sqrt_le_1_alt. exact Hsq.
Qed.

(** The rounded distance is symmetric and never negative; it is 0 exactly
    between a location and itself, and at least 1 between two different
    locations of the integer grid. *)
Theorem get_ue_ap_distance_facts (a b : loc) :
  get_ue_ap_distance a b = get_ue_ap_distance b a
  /\ 0 <= get_ue_ap_distance a b
  /\ (get_ue_ap_distance a b = 0 <-> a = b)
  /\ (a <> b -> 1 <= get_ue_ap_distance a b).
Proof.
  split_and!.
  - unfold get_ue_ap_distance. rewrite sq_norm_sym. reflexivity.
  - unfold get_ue_ap_distance. apply np_around3_nonneg, sqrt_pos.
  - split.
    + intros H0. destruct (decide (a = b)) as [E|E]; [exact E|].
      apply get_ue_ap_distance_far in E. lra.
    + intros ->. apply get_ue_ap_distance_same.
  - apply get_ue_ap_distance_far.
Qed.

Lemma get_ue_ap_distance_facts_witness :
  1 <= get_ue_ap_distance (100, 100)%Z (100, 101)%Z.
Proof.
  destruct (get_ue_ap_distance_facts (100, 100)%Z (100, 101)%Z)
    as (_ & _ & _ & H).
  apply H. intros [=].
Defined.

(** The loop keeps the first location of the least distance. *)
Lemma closest_ap_loop_first (u : loc) :
  forall (todo : list loc) (c : loc),
    let r := closest_ap_loop c (get_ue_ap_distance c u) todo u in
    (r = c /\ forall x, x ∈ todo ->
                get_ue_ap_distance c u <= get_ue_ap_distance x u)
    \/ (exists i : nat,
          todo !! i = Some r
          /\ get_ue_ap_distance r u < get_ue_ap_distance c u
          /\ (forall (j : nat) x, (j < i)%nat -> todo !! j = Some x ->
                get_ue_ap_distance r u < get_ue_ap_distance x u)
          /\ (forall x, x ∈ todo ->
                get_ue_ap_distance r u <= get_ue_ap_distance x u)).
Proof.
  induction todo as [|x todo IH]; intros c; simpl.
  - left. split; [reflexivity|]. intros x Hx. inversion Hx.
  - destruct (Rlt_dec (get_ue_ap_distance x u) (get_ue_ap_distance c u))
      as [Hlt|Hge].
    + right.
      destruct (IH x) as [[Hr Hall] | (i & Hi & Hlt' & Hbefore & Hall)].
      * exists 0%nat. rewrite Hr. split_and!.
        -- reflexivity.
        -- exact Hlt.
        -- intros j y Hj. lia.
        -- intros y Hy. apply elem_of_cons in Hy as [->|Hy];
             [lra | apply Hall, Hy].
      * exists (S i). split_and!.
        -- exact Hi.
        -- lra.
        -- intros [|j] y Hj Hy; simpl in Hy.
           ++ injection Hy as <-. exact Hlt'.
           ++ apply (Hbefore j); [lia | exact Hy].
        -- intros y Hy. apply elem_of_cons in Hy as [->|Hy];
             [lra | apply Hall, Hy].
    + destruct (IH c) as [[Hr Hall] | (i & Hi & Hlt' & Hbefore & Hall)].
      * left. split; [exact Hr|].
        intros y Hy. apply elem_of_cons in Hy as [->|Hy];
          [lra | apply Hall, Hy].
      * right. exists (S i). split_and!.
        -- exact Hi.
        -- exact Hlt'.
        -- intros [|j] y Hj Hy; simpl in Hy.
           ++ injection Hy as <-. lra.
           ++ apply (Hbefore j); [lia | exact Hy].
        -- intros y Hy. apply elem_of_cons in Hy as [->|Hy];
             [lra | apply Hall, Hy].
Qed.

(** [get_closest_ap_location] raises [IndexError] on an empty list; on any
    other list it returns the first of the locations at the least rounded
    distance from the UE. *)
Theorem get_closest_ap_location_first :
  (forall u, get_closest_ap_location [] u = Raise IndexError)
  /\ (forall (l : list loc) (u : loc), l <> [] ->
        exists (c : loc) (i : nat),
          get_closest_ap_location l u = Ok c
          /\ l !! i = Some c
          /\ (forall x, x ∈ l ->
                get_ue_ap_distance c u <= get_ue_ap_distance x u)
          /\ (forall (j : nat) x, (j < i)%nat -> l !! j = Some x ->
                get_ue_ap_distance c u < get_ue_ap_distance x u)).
Proof.
  split; [reflexivity|].
  intros [|c0 todo] u Hne; [contradiction|].
  unfold get_closest_ap_location. simpl.
  destruct (closest_ap_loop_first u todo c0)
    as [[Hr Hall] | (i & Hi & Hlt & Hbefore & Hall)].
  - eexists. exists 0%nat. split; [reflexivity|]. rewrite Hr. split_and!.
    + reflexivity.
    + intros x Hx. apply elem_of_cons in Hx as [->|Hx];
        [lra | apply Hall, Hx].
    + intros j x Hj. lia.
  - eexists. exists (S i). split; [reflexivity|]. split_and!.
    + exact Hi.
    + intros x Hx. apply elem_of_cons in Hx as [->|Hx];
        [lra | apply Hall, Hx].
    + intros [|j] x Hj Hx; simpl in Hx.
      * injection Hx as <-. exact Hlt.
      * apply (Hbefore j); [lia | exact Hx].
Qed.

Lemma get_closest_ap_location_first_witness :
  exists c,
    get_closest_ap_location [(100, 100); (300, 100)]%Z (200, 100)%Z = Ok c
    /\ get_ue_ap_distance c (200, 100)%Z
       <= get_ue_ap_distance (300, 100)%Z (200, 100)%Z.
Proof.
  destruct get_closest_ap_location_first as [_ H].
  destruct (H [(100, 100); (300, 100)]%Z (200, 100)%Z ltac:(discriminate))
    as (c & i & Hc & _ & Hall & _).
  exists c. split; [exact Hc|]. apply Hall. right. left.
Defined.

End DistanceFacts.

(** ** Bounds on the throughput and on the signal power *)

Section BandwidthFacts.
Local Open Scope R_scope.

Lemma py_min3_mono (a b c a' b' : R) :
  a' <= a -> b' <= b -> py_min3 a' b' c <= py_min3 a b c.
Proof.
  intros Ha Hb. rewrite !py_min3_Rmin. unfold Rmin.
  repeat destruct (Rle_dec _ _); lra.
Qed.

Lemma py_min3_le_third (a b c : R) : py_min3 a b c <= c.
Proof. rewrite py_min3_Rmin. apply Rmin_r. Qed.

Lemma py_min3_nonneg (a b c : R) :
  0 <= a -> 0 <= b -> 0 <= c -> 0 <= py_min3 a b c.
Proof.
  intros Ha Hb Hc. rewrite py_min3_Rmin. unfold Rmin.
  repeat destruct (Rle_dec _ _); lra.
Qed.

Lemma get_ue_throughput_value (s d : R) (n : Z) (up ch req : R) :
  s <> 0 ->
  get_ue_throughput s d n up ch req
  = Ok (py_min3
          (calculate_radio_bandwidth (np_around3 (exp (- d / (2 * s)))) ch)
          (calculate_network_bandwidth n up) req).
Proof.
  intros Hs. unfold get_ue_throughput, calculate_distance_factor, py_div.
  destruct (Req_dec_T (2 * s) 0) as [E|_]; [lra|]. reflexivity.
Qed.

Lemma get_ue_throughput_zero_scale (d : R) (n : Z) (up ch req : R) :
  get_ue_throughput 0 d n up ch req = Raise ZeroDivisionError.
Proof.
  unfold get_ue_throughput, calculate_distance_factor, py_div.
  destruct (Req_dec_T (2 * 0) 0) as [_|E]; [reflexivity | lra].
Qed.

Lemma get_ue_throughput_inv (s d : R) (n : Z) (up ch req t : R) :
  get_ue_throughput s d n up ch req = Ok t ->
  s <> 0
  /\ t = py_min3
           (calculate_radio_bandwidth (np_around3 (exp (- d / (2 * s)))) ch)
           (calculate_network_bandwidth n up) req.
Proof.
  intros H. destruct (Req_dec_T s 0) as [->|Hs].
  - rewrite get_ue_throughput_zero_scale in H. discriminate.
  - rewrite get_ue_throughput_value in H by exact Hs.
    injection H as <-. tauto.
Qed.

Lemma calculate_network_bandwidth_mono (n n' : Z) (up : R) :
  (0 <= n <= n')%Z -> 0 <= up ->
  calculate_network_bandwidth n' up <= calculate_network_bandwidth n up.
Proof.
  intros [Hn Hnn'] Hup. unfold calculate_network_bandwidth, truthy.
  apply np_around3_mono.
  destruct (Z.eqb_spec n' 0) as [->|Hn'0]; simpl.
  - assert (n = 0%Z) as -> by lia. simpl. lra.
  - assert (H1 : 1 <= IZR n') by (apply IZR_le; lia).
    assert (Hq' : 1 / IZR n' <= 1).
    { unfold Rdiv. rewrite Rmult_1_l. rewrite <- Rinv_1.
      apply Rinv_le_contravar; lra. }
    destruct (Z.eqb_spec n 0) as [->|Hn0]; simpl.
    + apply Rmult_le_compat_r; lra.
    + assert (H2 : 1 <= IZR n) by (apply IZR_le; lia).
      assert (H3 : IZR n <= IZR n') by (apply IZR_le; lia).
      apply Rmult_le_compat_r; [lra|].
      unfold Rdiv. rewrite !Rmult_1_l. apply Rinv_le_contravar; lra.
Qed.

Lemma calculate_network_bandwidth_nonneg (n : Z) (up : R) :
  (0 <= n)%Z -> 0 <= up -> 0 <= calculate_network_bandwidth n up.
Proof.
  intros Hn Hup. unfold calculate_network_bandwidth, truthy.
  apply np_around3_nonneg.
  destruct (Z.eqb_spec n 0) as [->|Hn0]; simpl; [lra|].
  assert (H1 : 1 <= IZR n) by (apply IZR_le; lia).
  apply Rmult_le_pos; [|lra].
  unfold Rdiv. rewrite Rmult_1_l. left. apply Rinv_0_lt_compat. lra.
Qed.

Lemma distance_factor_nonneg (x : R) : 0 <= np_around3 (exp x).
Proof. apply np_around3_nonneg. left. apply exp_pos. Qed.

Lemma distance_factor_mono (s d d' : R) :
  0 < s -> d <= d' ->
  np_around3 (exp (- d' / (2 * s))) <= np_around3 (exp (- d / (2 * s))).
Proof.
  intros Hs Hd. apply np_around3_mono.
  assert (H : - d' / (2 * s) <= - d / (2 * s)).
  { unfold Rdiv. apply Rmult_le_compat_r; [|lra].
    left. apply Rinv_0_lt_compat. lra. }
  destruct H as [H|H]; [left; apply exp_increasing, H | rewrite H; lra].
Qed.

(** [get_ue_throughput] raises [ZeroDivisionError] at scale 0 (on Python
    numbers, as in [utils.main]; a numpy distance divides without
    raising).  A
    throughput it returns never exceeds the required bandwidth, and the SLA
    computed from it is 1 exactly when it equals the required bandwidth.
    With bandwidths that are not negative the throughput is not negative,
    and it does not grow when more UEs share the AP or when, for a positive
    scale, the UE is farther away. *)
Theorem get_ue_throughput_bounds :
  (forall d n up ch req,
      get_ue_throughput 0 d n up ch req = Raise ZeroDivisionError)
  /\ (forall s d n up ch req t,
        get_ue_throughput s d n up ch req = Ok t ->
        t <= req /\ (get_ue_sla t req = 1%Z <-> t = req))
  /\ (forall s d n up ch req t,
        get_ue_throughput s d n up ch req = Ok t ->
        (0 <= n)%Z -> 0 <= up -> 0 <= ch -> 0 <= req -> 0 <= t)
  /\ (forall s d n n' up ch req t t',
        get_ue_throughput s d n up ch req = Ok t ->
        get_ue_throughput s d n' up ch req = Ok t' ->
        (0 <= n <= n')%Z -> 0 <= up -> t' <= t)
  /\ (forall s d d' n up ch req t t',
        get_ue_throughput s d n up ch req = Ok t ->
        get_ue_throughput s d' n up ch req = Ok t' ->
        0 < s -> d <= d' -> 0 <= ch -> t' <= t).
Proof.
  split_and!.
  - apply get_ue_throughput_zero_scale.
  - intros s d n up ch req t H.
    apply get_ue_throughput_inv in H as [_ ->].
    pose proof (py_min3_le_third
                  (calculate_radio_bandwidth
                     (np_around3 (exp (- d / (2 * s)))) ch)
                  (calculate_network_bandwidth n up) req) as Hle.
    split; [exact Hle|]. unfold get_ue_sla.
    destruct (Rle_dec req _); split; intros; try lra; try reflexivity;
      discriminate.
  - intros s d n up ch req t H Hn Hup Hch Hreq.
    apply get_ue_throughput_inv in H as [_ ->].
    apply py_min3_nonneg; [| |exact Hreq].
    + apply np_around3_nonneg, Rmult_le_pos;
        [apply distance_factor_nonneg | exact Hch].
    + apply calculate_network_bandwidth_nonneg; assumption.
  - intros s d n n' up ch req t t' H H' Hn Hup.
    apply get_ue_throughput_inv in H as [_ ->].
    apply get_ue_throughput_inv in H' as [_ ->].
    apply py_min3_mono; [lra|].
    apply calculate_network_bandwidth_mono; assumption.
  - intros s d d' n up ch req t t' H H' Hs Hd Hch.
    apply get_ue_throughput_inv in H as [_ ->].
    apply get_ue_throughput_inv in H' as [_ ->].
    apply py_min3_mono; [|lra].
    apply np_around3_mono, Rmult_le_compat_r;
      [exact Hch | apply distance_factor_mono; assumption].
Qed.

Lemma get_ue_throughput_bounds_witness :
  exists t t',
    get_ue_throughput 100 50 1 25 10 2 = Ok t
    /\ get_ue_throughput 100 50 3 25 10 2 = Ok t'
    /\ t' <= t /\ t <= 2.
Proof.
  destruct get_ue_throughput_bounds as (_ & Hle & _ & Hmono & _).
  eexists. eexists.
  split; [apply get_ue_throughput_value; lra|].
  split; [apply get_ue_throughput_value; lra|].
  split.
  - apply (Hmono 100 50 1%Z 3%Z 25 10 2);
      [apply get_ue_throughput_value; lra
      | apply get_ue_throughput_value; lra | lia | lra].
  - apply (Hle 100 50 1%Z 25 10 2). apply get_ue_throughput_value. lra.
Defined.

Lemma ln_10_pos : 0 < ln 10.
Proof. rewrite <- ln_1. apply ln_increasing; lra. Qed.

Lemma log10_mono (x y : R) : 0 < x -> x <= y -> log10 x <= log10 y.
Proof.
  intros Hx [Hxy| ->]; [|lra]. unfold log10.
  pose proof ln_10_pos as H10.
  apply Rmult_le_compat_r; [left; apply Rinv_0_lt_compat, H10|].
  left. apply ln_increasing; assumption.
Qed.

Lemma log10_1 : log10 1 = 0.
Proof. unfold log10. rewrite ln_1. pose proof ln_10_pos. field. lra. Qed.

Lemma get_ue_sig_power_far (d : R) :
  1 <= d -> exists p, get_ue_sig_power d = Ok (Some p) /\ (p <= 0)%Z.
Proof.
  intros Hd. eexists. split; [apply get_ue_sig_power_nonzero; lra|].
  apply rint_le.
  assert (Hdd : 1 <= d * d) by nra.
  assert (Hq : 1 / (d * d) <= 1).
  { unfold Rdiv. rewrite Rmult_1_l, <- Rinv_1.
    apply Rinv_le_contravar; lra. }
  assert (Hp : 0 < 1 / (d * d)) by (apply Rdiv_lt_0_compat; lra).
  pose proof (log10_mono _ _ Hp Hq) as Hl. rewrite log10_1 in Hl. lra.
Qed.



End BandwidthFacts.

(** * The rewards and the caches of base.py *)

Section RewardFacts.
Local Open Scope R_scope.
Import Env.

(** The AP-based reward lies between -1.5 and 1.5.  For a STAY (any action
    other than 1) it does not depend on the new state and is not negative;
    a HANDOFF that leaves both averages as they were is penalised, one that
    raises both earns 1.5 and one that lowers both costs 1.5. *)
Theorem reward_based_on_ap_state_range :
  (forall action old_state new_state,
      -1.5 <= reward_based_on_ap_state action old_state new_state <= 1.5)
  /\ (forall action old_state new_state new_state',
        action <> 1%Z ->
        reward_based_on_ap_state action old_state new_state
        = reward_based_on_ap_state 0 old_state new_state'
        /\ 0 <= reward_based_on_ap_state action old_state new_state)
  /\ (forall old_state,
        reward_based_on_ap_state 1 old_state old_state <= -0.75)
  /\ (forall old_state new_state,
        avg_video_sla old_state < avg_video_sla new_state ->
        avg_web_sla old_state < avg_web_sla new_state ->
        reward_based_on_ap_state 1 old_state new_state = 1.5)
  /\ (forall old_state new_state,
        avg_video_sla new_state < avg_video_sla old_state ->
        avg_web_sla new_state < avg_web_sla old_state ->
        reward_based_on_ap_state 1 old_state new_state = -1.5).
Proof.
  split_and!.
  - intros action old_state new_state. unfold reward_based_on_ap_state.
    destruct (action =? 1)%Z;
      repeat (destruct (Req_dec_T _ _) || destruct (Rlt_dec _ _)); lra.
  - intros action old_state new_state new_state' Ha.
    unfold reward_based_on_ap_state.
    destruct (Z.eqb_spec action 1) as [E|_]; [contradiction|].
    simpl. split; [reflexivity|].
    repeat destruct (Req_dec_T _ _); lra.
  - intros old_state. unfold reward_based_on_ap_state. simpl.
    repeat (destruct (Req_dec_T _ _) || destruct (Rlt_dec _ _)); lra.
  - intros old_state new_state Hv Hw. unfold reward_based_on_ap_state. simpl.
    repeat (destruct (Req_dec_T _ _) || destruct (Rlt_dec _ _)); lra.
  - intros old_state new_state Hv Hw. unfold reward_based_on_ap_state. simpl.
    repeat (destruct (Req_dec_T _ _) || destruct (Rlt_dec _ _)); lra.
Qed.

Lemma reward_based_on_ap_state_range_witness :
  reward_based_on_ap_state 1
    {| avg_video_sla := 0.5; avg_web_sla := 0.5 |}
    {| avg_video_sla := 0.75; avg_web_sla := 1 |} = 1.5.
Proof.
  destruct reward_based_on_ap_state_range as (_ & _ & _ & H & _).
  apply H; simpl; lra.
Defined.

Lemma reward_based_on_ap_state_bounds action old_state new_state :
  -1.5 <= reward_based_on_ap_state action old_state new_state <= 1.5.
Proof.
  unfold reward_based_on_ap_state.
  destruct (action =? 1)%Z;
    repeat (destruct (Req_dec_T _ _) || destruct (Rlt_dec _ _)); lra.
Qed.

Lemma reward_based_on_ap_state_stay action old_state new_state :
  action <> 1%Z -> 0 <= reward_based_on_ap_state action old_state new_state.
Proof.
  intros Ha. unfold reward_based_on_ap_state.
  destruct (Z.eqb_spec action 1) as [E|_]; [contradiction|].
  repeat destruct (Req_dec_T _ _); lra.
Qed.

(** [get_reward] returns for every HANDOFF, and for a STAY exactly when the
    old and the new SLA have the same truth value; a STAY with a changed
    SLA raises [UnboundLocalError], as does any other action with a changed
    SLA, and any other action with an unchanged SLA raises [KeyError].  A
    reward returned for a HANDOFF lies between -5.5 and 4.5, one returned
    for a STAY between -1 and 2.5. *)
Theorem get_reward_outcomes
    (action : Z) (old_state new_state : NETWORK_STATE)
    (ue_new_sla ue_old_sla : Z) :
  ((exists r, get_reward action old_state new_state ue_new_sla ue_old_sla
              = Ok r)
   <-> action = 1%Z
       \/ (action = 0%Z /\ truthy ue_old_sla = truthy ue_new_sla))
  /\ (action <> 1%Z -> truthy ue_old_sla <> truthy ue_new_sla ->
      get_reward action old_state new_state ue_new_sla ue_old_sla
      = Raise UnboundLocalError)
  /\ (action <> 1%Z -> action <> 0%Z ->
      truthy ue_old_sla = truthy ue_new_sla ->
      get_reward action old_state new_state ue_new_sla ue_old_sla
      = Raise KeyError)
  /\ (forall r,
        get_reward action old_state new_state ue_new_sla ue_old_sla = Ok r ->
        if (action =? 1)%Z then -5.5 <= r <= 4.5 else -1 <= r <= 2.5).
Proof.
  pose proof (reward_based_on_ap_state_bounds action old_state new_state)
    as Hap.
  unfold get_reward, reward_based_on_ue_state.
  destruct (Z.eqb_spec action 1) as [->|H1].
  - simpl. split_and!.
    + split; [tauto|]. intros _.
      destruct (truthy ue_old_sla), (truthy ue_new_sla); simpl; eauto.
    + intros; contradiction.
    + intros; contradiction.
    + intros r.
      destruct (truthy ue_old_sla), (truthy ue_new_sla); simpl;
        intros [= <-]; lra.
  - pose proof (reward_based_on_ap_state_stay action old_state new_state H1)
      as Hstay.
    destruct (Z.eqb_spec action 0) as [->|H0]; simpl.
    + split_and!.
      * split.
        -- intros [r Hr]. right. split; [reflexivity|].
           destruct (truthy ue_old_sla), (truthy ue_new_sla);
             simpl in Hr; try discriminate; reflexivity.
        -- intros [E | [_ E]]; [discriminate|]. rewrite E.
           destruct (truthy ue_new_sla); simpl; eauto.
      * intros _ Hne.
        destruct (truthy ue_old_sla), (truthy ue_new_sla); simpl;
          try reflexivity; contradiction.
      * intros _ Hc. contradiction.
      * intros r.
        destruct (truthy ue_old_sla), (truthy ue_new_sla); simpl;
          try discriminate; intros [= <-]; lra.
    + split_and!.
      * split.
        -- intros [r Hr].
           destruct (truthy ue_old_sla), (truthy ue_new_sla);
             simpl in Hr; discriminate.
        -- intros [E | [E _]]; contradiction.
      * intros _ Hne.
        destruct (truthy ue_old_sla), (truthy ue_new_sla); simpl;
          try reflexivity; contradiction.
      * intros _ _ E. rewrite E.
        destruct (truthy ue_new_sla); reflexivity.
      * intros r.
        destruct (truthy ue_old_sla), (truthy ue_new_sla); simpl;
          discriminate.
Qed.

Lemma get_reward_outcomes_witness :
  get_reward 0 {| avg_video_sla := 1; avg_web_sla := 1 |}
    {| avg_video_sla := 1; avg_web_sla := 1 |} 0 1
  = Raise UnboundLocalError.
Proof.
  destruct (get_reward_outcomes 0 {| avg_video_sla := 1; avg_web_sla := 1 |}
              {| avg_video_sla := 1; avg_web_sla := 1 |} 0 1)
    as (_ & H & _).
  apply H; [lia | discriminate].
Defined.

(** The average SLA is 0 when either count is 0; for counts with
    [0 <= ues_meeting_sla <= n_app_ues] it is a number of tenths between 0
    and 1 that differs from the exact ratio by at most 0.05; and it is 1
    when every UE meets its SLA. *)
Theorem get_avg_app_sla_range :
  (forall n m : Z, n = 0%Z \/ m = 0%Z -> base.get_avg_app_sla n m = 0)
  /\ (forall n m : Z, (0 <= m <= n)%Z ->
        exists k : Z,
          (0 <= k <= 10)%Z /\ base.get_avg_app_sla n m = IZR k / 10)
  /\ (forall n m : Z, (0 < m <= n)%Z ->
        - 0.05 <= base.get_avg_app_sla n m - IZR m / IZR n <= 0.05)
  /\ (forall n : Z, (0 < n)%Z -> base.get_avg_app_sla n n = 1).
Proof.
  assert (Hzero : base.py_round1 0 = 0).
  { unfold base.py_round1. rewrite (rint_near (0 * 10) 0) by lra. lra. }
  assert (Hratio : forall n m : Z, (0 < m <= n)%Z ->
            base.get_avg_app_sla n m = base.py_round1 (IZR m / IZR n)
            /\ 0 < IZR m / IZR n <= 1).
  { intros n m [Hm Hn]. unfold base.get_avg_app_sla, truthy.
    destruct (Z.eqb_spec n 0); [lia|]. destruct (Z.eqb_spec m 0); [lia|].
    simpl. split; [reflexivity|].
    assert (H1 : 0 < IZR m) by (apply IZR_lt; lia).
    assert (H2 : IZR m <= IZR n) by (apply IZR_le; lia).
    split; [apply Rdiv_lt_0_compat; lra|].
    apply Rmult_le_reg_r with (IZR n); [lra|].
    unfold Rdiv. rewrite Rmult_assoc, Rinv_l by lra. lra. }
  split_and!.
  - intros n m H. unfold base.get_avg_app_sla, truthy.
    destruct H as [-> | ->]; simpl; [exact Hzero|].
    rewrite andb_false_r. exact Hzero.
  - intros n m [Hm Hn]. destruct (Z.eq_dec m 0%Z) as [->|Hm0].
    + exists 0%Z. split; [lia|].
      unfold base.get_avg_app_sla, truthy. simpl. rewrite andb_false_r.
      rewrite Hzero. lra.
    + destruct (Hratio n m ltac:(lia)) as [-> [Hlo Hhi]].
      exists (rint (IZR m / IZR n * 10)). split; [|reflexivity]. split.
      * apply rint_ge. lra.
      * apply rint_le. lra.
  - intros n m Hmn. destruct (Hratio n m Hmn) as [-> _].
    unfold base.py_round1.
    pose proof (rint_within_half (IZR m / IZR n * 10)). lra.
  - intros n Hn. destruct (Hratio n n ltac:(lia)) as [-> _].
    assert (Hn' : 0 < IZR n) by (apply IZR_lt; lia).
    replace (IZR n / IZR n) with 1 by (field; lra).
    unfold base.py_round1. rewrite (rint_near (1 * 10) 10) by lra. lra.
Qed.

Lemma get_avg_app_sla_range_witness :
  - 0.05 <= base.get_avg_app_sla 3 2 - IZR 2 / IZR 3 <= 0.05.
Proof.
  destruct get_avg_app_sla_range as (_ & _ & H & _).
  apply (H 3%Z 2%Z). lia.
Defined.

End RewardFacts.

(** ** The caches of the environment *)

Lemma build_ap_keeps (self : base.CellularNetworkEnv) (ap : AP.t) k a :
  base._ap_dict self !! k = Some a ->
  base._ap_dict (base.build_ap self ap) !! k = Some a.
Proof.
  intros Hk. unfold base.build_ap.
  destruct (base._ap_dict self !! AP.ap_id ap) eqn:Hid; [exact Hk|].
  simpl. rewrite lookup_insert_ne; [exact Hk|].
  intros <-. congruence.
Qed.

Lemma build_ap_known (self : base.CellularNetworkEnv) (ap : AP.t) :
  is_Some (base._ap_dict self !! AP.ap_id ap) -> base.build_ap self ap = self.
Proof. intros [a Ha]. unfold base.build_ap. rewrite Ha. reflexivity. Qed.

Lemma build_ap_new (self : base.CellularNetworkEnv) (ap : AP.t) :
  base._ap_dict self !! AP.ap_id ap = None ->
  base._ap_dict (base.build_ap self ap) !! AP.ap_id ap
  = Some (base.AP.mk (AP.ap_id ap) (AP.location ap) (AP.n_ues ap)
            (AP.ues_meeting_sla ap)).
Proof.
  intros Hid. unfold base.build_ap. rewrite Hid. simpl.
  apply lookup_insert_eq.
Qed.

Lemma build_ap_keys (self : base.CellularNetworkEnv) (ap : AP.t) k :
  is_Some (base._ap_dict (base.build_ap self ap) !! k)
  <-> is_Some (base._ap_dict self !! k) \/ k = AP.ap_id ap.
Proof.
  unfold base.build_ap.
  destruct (base._ap_dict self !! AP.ap_id ap) eqn:Hid.
  - split; [tauto|]. intros [H | ->]; [exact H | rewrite Hid; eauto].
  - simpl. destruct (decide (k = AP.ap_id ap)) as [->|Hne].
    + rewrite lookup_insert_eq. split; eauto.
    + rewrite lookup_insert_ne by congruence. tauto.
Qed.

Lemma build_ap_rest (self : base.CellularNetworkEnv) (ap : AP.t) :
  base._ue_dict (base.build_ap self ap) = base._ue_dict self
  /\ base.ue_sla_stats (base.build_ap self ap) = base.ue_sla_stats self.
Proof.
  unfold base.build_ap.
  destruct (base._ap_dict self !! AP.ap_id ap); simpl; tauto.
Qed.

(** [build_ap_dict] caches an AP under each id of the list it is given and
    under no other new id; an id that is cached keeps the AP it has, so a
    list whose ids are all cached changes nothing; the first entry of the
    list with an id that is not cached yet is the one stored; and the cache
    of the UEs and the SLA counters are left alone. *)
Theorem build_ap_dict_first_wins (self : base.CellularNetworkEnv)
    (ap_list : list AP.t) :
  let self' := base.build_ap_dict self ap_list in
  (forall k a, base._ap_dict self !! k = Some a ->
               base._ap_dict self' !! k = Some a)
  /\ (forall k, is_Some (base._ap_dict self' !! k) <->
        is_Some (base._ap_dict self !! k)
        \/ exists ap, ap ∈ ap_list /\ AP.ap_id ap = k)
  /\ ((forall ap, ap ∈ ap_list ->
         is_Some (base._ap_dict self !! AP.ap_id ap)) -> self' = self)
  /\ (forall (i : nat) ap,
        ap_list !! i = Some ap ->
        base._ap_dict self !! AP.ap_id ap = None ->
        (forall (j : nat) ap', (j < i)%nat -> ap_list !! j = Some ap' ->
                               AP.ap_id ap' <> AP.ap_id ap) ->
        base._ap_dict self' !! AP.ap_id ap
        = Some (base.AP.mk (AP.ap_id ap) (AP.location ap) (AP.n_ues ap)
                  (AP.ues_meeting_sla ap)))
  /\ base._ue_dict self' = base._ue_dict self
  /\ base.ue_sla_stats self' = base.ue_sla_stats self.
Proof.
  unfold base.build_ap_dict. revert self.
  induction ap_list as [|ap0 l IH]; intros self; simpl.
  - split_and!; try tauto; try reflexivity.
    + intros k. split; [tauto|].
      intros [H | (ap & Hap & _)]; [exact H | inversion Hap].
    + intros i ap Hi. destruct i; discriminate.
  - destruct (IH (base.build_ap self ap0))
      as (Hkeep & Hkeys & Hsame & Hfirst & Hue & Hstats).
    destruct (build_ap_rest self ap0) as [Hue0 Hstats0].
    split_and!.
    + intros k a Hk. apply Hkeep, build_ap_keeps, Hk.
    + intros k. rewrite Hkeys, build_ap_keys. split.
      * intros [[H | ->] | (ap & Hap & Hid)].
        -- tauto.
        -- right. exists ap0. split; [left | reflexivity].
        -- right. exists ap. split; [right; exact Hap | exact Hid].
      * intros [H | (ap & Hap & Hid)]; [tauto|].
        apply elem_of_cons in Hap as [->|Hap]; [left; right; congruence|].
        right. exists ap. tauto.
    + intros Hall.
      assert (E : base.build_ap self ap0 = self)
        by (apply build_ap_known, Hall; left).
      rewrite E. destruct (IH self) as (_ & _ & Hsame' & _).
      apply Hsame'. intros ap Hap. apply Hall. right. exact Hap.
    + intros [|i] ap Hi Hnone Hbefore; simpl in Hi.
      * injection Hi as <-. apply Hkeep, build_ap_new, Hnone.
      * apply Hfirst with i.
        -- exact Hi.
        -- destruct (base._ap_dict (base.build_ap self ap0) !! AP.ap_id ap)
             eqn:E; [|reflexivity].
           exfalso.
           destruct (proj1 (build_ap_keys self ap0 (AP.ap_id ap)))
             as [[a Ha] | Heq]; [eauto | congruence |].
           apply (Hbefore 0%nat ap0); [lia | reflexivity | congruence].
        -- intros j ap' Hj Hap'. apply (Hbefore (S j) ap'); [lia | exact Hap'].
    + congruence.
    + congruence.
Qed.

Lemma build_ap_dict_first_wins_witness :
  base.build_ap_dict
    (base.build_ap_dict base.__init__ [AP.new 1 (100, 100)])
    [AP.set_ues_meeting_sla (AP.new 1 (100, 100)) (fun _ => 7)]
  = base.build_ap_dict base.__init__ [AP.new 1 (100, 100)].
Proof.
  destruct (build_ap_dict_first_wins
              (base.build_ap_dict base.__init__ [AP.new 1 (100, 100)])
              [AP.set_ues_meeting_sla (AP.new 1 (100, 100)) (fun _ => 7)])
    as (_ & _ & H & _).
  apply H. intros ap Hap. apply list_elem_of_singleton in Hap as ->.
  apply (proj2 (build_ap_keys base.__init__ (AP.new 1 (100, 100)) 1)).
  right. reflexivity.
Defined.

Lemma build_ue_stats (self : base.CellularNetworkEnv) (ue : UE.t)
    (n_meets n_doesnot : Z) :
  base.ue_sla_stats self = Some (n_meets, n_doesnot) ->
  base.ue_sla_stats (base.build_ue self ue).2
  = Some (if sla_is_1 ue then (n_meets + 1, n_doesnot)
          else (n_meets, n_doesnot + 1))
  /\ base._ap_dict (base.build_ue self ue).2 = base._ap_dict self
  /\ (forall k u, base._ue_dict self !! k = Some u ->
                  base._ue_dict (base.build_ue self ue).2 !! k = Some u).
Proof.
  intros Hs. unfold base.build_ue, sla_is_1. rewrite Hs. simpl.
  destruct (base._ue_dict self !! UE.ue_id ue) eqn:Hid; simpl.
  - tauto.
  - destruct (base.APPS_ID (UE.app ue)); simpl; split_and!;
      try reflexivity; try tauto.
    intros k u Hk. rewrite lookup_insert_ne; [exact Hk|].
    intros <-. congruence.
Qed.

Lemma build_ue_returns (self : base.CellularNetworkEnv) (ue : UE.t) :
  UE.app ue = web \/ UE.app ue = video
  \/ is_Some (base._ue_dict self !! UE.ue_id ue) ->
  (base.build_ue self ue).1 = Ok tt
  /\ is_Some (base._ue_dict (base.build_ue self ue).2 !! UE.ue_id ue).
Proof.
  intros H. unfold base.build_ue.
  destruct (base.ue_sla_stats self) as [[m d]|]; simpl;
    (destruct (base._ue_dict self !! UE.ue_id ue) eqn:Hid; simpl;
     [rewrite Hid; eauto|]);
    (destruct H as [-> | [-> | [u Hu]]]; [| |congruence]); simpl;
    rewrite lookup_insert_eq; eauto.
Qed.

Lemma build_ue_loop_counts (ue_list : list UE.t) :
  forall (self : base.CellularNetworkEnv) (n_meets n_doesnot : Z),
    base.ue_sla_stats self = Some (n_meets, n_doesnot) ->
    (forall ue, ue ∈ ue_list -> UE.app ue = web \/ UE.app ue = video) ->
    exists self',
      base.build_ue_loop self ue_list = (Ok tt, self')
      /\ base.ue_sla_stats self'
         = Some (n_meets + Z.of_nat (length (List.filter sla_is_1 ue_list)),
                 n_doesnot
                 + Z.of_nat (length (List.filter
                                       (fun ue => negb (sla_is_1 ue))
                                       ue_list)))
      /\ base._ap_dict self' = base._ap_dict self
      /\ (forall k u, base._ue_dict self !! k = Some u ->
                      base._ue_dict self' !! k = Some u)
      /\ (forall ue, ue ∈ ue_list ->
                     is_Some (base._ue_dict self' !! UE.ue_id ue)).
Proof.
  induction ue_list as [|ue l IH]; intros self m d Hs Happ.
  - exists self. simpl. rewrite !Z.add_0_r. split_and!; try tauto.
    intros ue Hue. inversion Hue.
  - cbn [base.build_ue_loop].
    destruct (build_ue_stats self ue m d Hs) as (Hs1 & Hap1 & Hkeep1).
    destruct (build_ue_returns self ue) as [Hok Hin1];
      [destruct (Happ ue ltac:(left)); tauto|].
    destruct (base.build_ue self ue) as [r self1]. simpl in *. subst r.
    assert (Happ' : forall u, u ∈ l -> UE.app u = web \/ UE.app u = video)
      by (intros u Hu; apply Happ; right; exact Hu).
    destruct (sla_is_1 ue) eqn:Hsla; simpl.
    + destruct (IH self1 (m + 1) d Hs1 Happ')
        as (self' & -> & Hs' & Hap' & Hkeep' & Hin').
      exists self'. split; [reflexivity|]. split_and!.
      * rewrite Hs'. f_equal. f_equal. lia.
      * congruence.
      * intros k u Hk. apply Hkeep', Hkeep1, Hk.
      * intros u Hu. apply elem_of_cons in Hu as [->|Hu]; [|apply Hin', Hu].
        destruct Hin1 as [u1 Hu1]. rewrite (Hkeep' _ _ Hu1). eauto.
    + destruct (IH self1 m (d + 1) Hs1 Happ')
        as (self' & -> & Hs' & Hap' & Hkeep' & Hin').
      exists self'. split; [reflexivity|]. split_and!.
      * rewrite Hs'. f_equal. f_equal. lia.
      * congruence.
      * intros k u Hk. apply Hkeep', Hkeep1, Hk.
      * intros u Hu. apply elem_of_cons in Hu as [->|Hu]; [|apply Hin', Hu].
        destruct Hin1 as [u1 Hu1]. rewrite (Hkeep' _ _ Hu1). eauto.
Qed.

(** On a list of web and video UEs [build_ue_dict] returns; afterwards
    ["Meets"] is the number of entries of the list with SLA 1 and
    ["Doesnot"] the number of the others, whatever the counters held
    before, so both add up to the length of the list; every id of the list
    is cached, a UE that was cached is kept as it was, and the cache of
    the APs is left alone. *)
Theorem build_ue_dict_counts (self : base.CellularNetworkEnv)
    (ue_list : list UE.t) :
  (forall ue, ue ∈ ue_list -> UE.app ue = web \/ UE.app ue = video) ->
  exists self' n_meets n_doesnot,
    base.build_ue_dict self ue_list = (Ok tt, self')
    /\ base.ue_sla_stats self' = Some (n_meets, n_doesnot)
    /\ n_meets = Z.of_nat (length (List.filter sla_is_1 ue_list))
    /\ n_meets + n_doesnot = Z.of_nat (length ue_list)
    /\ base._ap_dict self' = base._ap_dict self
    /\ (forall k u, base._ue_dict self !! k = Some u ->
                    base._ue_dict self' !! k = Some u)
    /\ (forall ue, ue ∈ ue_list ->
                   is_Some (base._ue_dict self' !! UE.ue_id ue)).
Proof.
  intros Happ. unfold base.build_ue_dict.
  destruct (build_ue_loop_counts ue_list
              (base.mkEnv (base._ap_dict self) (base._reverse_ap_lookup self)
                 (base._ue_dict self) (Some (0, 0))) 0 0 eq_refl Happ)
    as (self' & Hrun & Hs & Hap & Hkeep & Hin).
  exists self'. eexists. eexists. split; [exact Hrun|].
  split; [exact Hs|]. split_and!.
  - lia.
  - rewrite !Z.add_0_l, <- Nat2Z.inj_add. f_equal.
    clear. induction ue_list as [|ue l IH]; [reflexivity|]. simpl.
    destruct (sla_is_1 ue); simpl; lia.
  - exact Hap.
  - exact Hkeep.
  - exact Hin.
Qed.

Lemma build_ue_dict_counts_witness :
  exists self' n_meets n_doesnot,
    base.build_ue_dict base.__init__
      [UE.new 1 1 (50, 50) web 0.25 []; UE.new 1 1 (50, 50) web 0.25 []]
    = (Ok tt, self')
    /\ base.ue_sla_stats self' = Some (n_meets, n_doesnot)
    /\ n_meets + n_doesnot = 2.
Proof.
  destruct (build_ue_dict_counts base.__init__
              [UE.new 1 1 (50, 50) web 0.25 []; UE.new 1 1 (50, 50) web 0.25 []])
    as (self' & m & d & H & Hs & _ & Hsum & _).
  { intros ue Hue. left.
    apply elem_of_cons in Hue as [->|Hue]; [reflexivity|].
    apply list_elem_of_singleton in Hue as ->. reflexivity. }
  exists self', m, d. split; [exact H|]. split; [exact Hs | exact Hsum].
Defined.

(** A UE of an application class without an id in [APPS_ID] (voice or
    others) that is not cached yet makes [build_ue_dict] raise [KeyError],
    after its SLA has been counted and with the cache of the UEs as it
    was. *)
Theorem build_ue_dict_unknown_app (self : base.CellularNetworkEnv)
    (ue : UE.t) (more : list UE.t) :
  base._ue_dict self !! UE.ue_id ue = None ->
  UE.app ue = voice \/ UE.app ue = others ->
  exists self',
    base.build_ue_dict self (ue :: more) = (Raise KeyError, self')
    /\ base._ue_dict self' = base._ue_dict self
    /\ base.ue_sla_stats self'
       = Some (if sla_is_1 ue then (1, 0) else (0, 1)).
Proof.
  intros Hid Happ. unfold base.build_ue_dict. cbn [base.build_ue_loop].
  unfold base.build_ue, sla_is_1. simpl. rewrite Hid.
  destruct Happ as [-> | ->]; simpl; eexists;
    (split; [reflexivity|]); simpl; (split; [reflexivity|]);
    destruct (UE.sla ue =? 1); reflexivity.
Qed.

Lemma build_ue_dict_unknown_app_witness :
  exists self',
    base.build_ue_dict base.__init__ [UE.new 1 1 (50, 50) voice 0.1 []]
    = (Raise KeyError, self')
    /\ base._ue_dict self' = ∅.
Proof.
  destruct (build_ue_dict_unknown_app base.__init__
              (UE.new 1 1 (50, 50) voice 0.1 []) [])
    as (self' & H & Hd & _); [reflexivity | left; reflexivity |].
  exists self'. split; [exact H | exact Hd].
Defined.

(** * Further properties of the simulator *)

(** ** The effect of a handoff *)

Lemma total_ues_dict_set (d : app_dict (gset Z)) (cls : app_type)
    (X : gset Z) :
  total_ues (dict_set d cls X)
  = total_ues d - Z.of_nat (size (d cls)) + Z.of_nat (size X).
Proof. unfold total_ues, dict_set. destruct cls; simpl; lia. Qed.

Lemma total_ues_pos (d : app_dict (gset Z)) (cls : app_type) (uid : Z) :
  uid ∈ d cls -> 1 <= total_ues d.
Proof.
  intros Hin.
  assert (Hs : size (d cls) <> 0%nat).
  { intros E. apply size_empty_iff in E. rewrite E in Hin.
    apply elem_of_empty in Hin. exact Hin. }
  unfold total_ues. destruct cls; lia.
Qed.

Lemma same_ap_identity_refl (ap : AP.t) : same_ap_identity ap ap.
Proof. repeat split. Qed.

Lemma same_ap_identity_trans (a b c : AP.t) :
  same_ap_identity a b -> same_ap_identity b c -> same_ap_identity a c.
Proof. unfold same_ap_identity. intuition congruence. Qed.

Lemma same_ue_identity_refl (ue : UE.t) : same_ue_identity ue ue.
Proof. repeat split. Qed.

Lemma same_ue_identity_trans (a b c : UE.t) :
  same_ue_identity a b -> same_ue_identity b c -> same_ue_identity a c.
Proof. unfold same_ue_identity. intuition congruence. Qed.

(** What [update_ue_stats] stores when it returns. *)
Lemma update_ue_stats_effect self ue ap self' ue' ap' :
  update_ue_stats self ue ap = (Ok tt, (self', ue', ap')) ->
  UE.distance ue' = get_ue_ap_distance (UE.location ue) (AP.location ap)
  /\ get_ue_throughput (IZR (scale self)) (UE.distance ue')
       (total_ues (AP.n_ues ap)) (AP.uplink_bandwidth ap)
       (AP.channel_bandwidth ap) (UE.required_bandwidth ue)
     = Ok (UE.throughput ue')
  /\ get_ue_sig_power (UE.distance ue') = Ok (UE.signal_power ue')
  /\ (ue_sla_stats self').1 + (ue_sla_stats self').2
     = (ue_sla_stats self).1 + (ue_sla_stats self).2 + 1
  /\ (ue_sla_stats self').1 = (ue_sla_stats self).1 + UE.sla ue'
  /\ ue_app_stats self' = ue_app_stats self
  /\ same_ap_identity ap ap'.
Proof.
  unfold update_ue_stats, calculate_ue_throughput.
  destruct (get_ue_throughput _ _ _ _ _ _) as [t|] eqn:Ht; [|discriminate].
  unfold calculate_ue_sla. destruct (ue_sla_stats self) as [m d] eqn:Hs.
  simpl.
  unfold calculate_ue_signal_power.
  destruct (get_ue_sla_bit t (UE.required_bandwidth ue)) as [E|E];
    rewrite E; simpl;
    (destruct (get_ue_sig_power _) as [p|] eqn:Hp; [|discriminate]);
    intros [= <- <- <-]; simpl; rewrite ?E;
    split_and!; try reflexivity; try assumption; try lia;
    repeat split.
Qed.

(** What a handoff that is carried out does to the two dictionaries. *)
Lemma perform_handoff_effect self aps ues uid aid res self' :
  _ap_dict self = Some aps ->
  _ue_dict self = Some ues ->
  perform_handoff uid aid self = (Ok res, self') ->
  DONE res = true ->
  exists ue cur new ue' cur' new',
    ues !! uid = Some ue /\ UE.ap ue <> aid
    /\ aps !! UE.ap ue = Some cur /\ aps !! aid = Some new
    /\ UE.ue_id ue ∈ AP.n_ues cur (UE.app ue)
    /\ res = {| DONE := true; UE := Some ue';
                OLD_AP := Some cur'; NEW_AP := Some new' |}
    /\ _ap_dict self' = Some (<[aid := new']> (<[UE.ap ue := cur']> aps))
    /\ _ue_dict self' = Some (<[uid := ue']> ues)
    /\ same_config self self'
    /\ same_ap_identity cur cur' /\ same_ap_identity new new'
    /\ AP.n_ues cur'
       = dict_set (AP.n_ues cur) (UE.app ue)
           (AP.n_ues cur (UE.app ue) ∖ {[UE.ue_id ue]})
    /\ AP.ues_meeting_sla cur'
       = dict_set (AP.ues_meeting_sla cur) (UE.app ue)
           (AP.ues_meeting_sla cur (UE.app ue) - UE.sla ue)
    /\ AP.n_ues new'
       = dict_set (AP.n_ues new) (UE.app ue)
           (AP.n_ues new (UE.app ue) ∪ {[UE.ue_id ue]})
    /\ AP.ues_meeting_sla new'
       = dict_set (AP.ues_meeting_sla new) (UE.app ue)
           (AP.ues_meeting_sla new (UE.app ue) + UE.sla ue')
    /\ same_ue_identity ue ue' /\ UE.ap ue' = aid
    /\ fetch_neighboring_aps self ue new = Ok (UE.neighboring_aps ue')
    /\ stats_against self (AP.location new) ue'
    /\ ue_app_stats self' = ue_app_stats self
    /\ (ue_sla_stats self').1 + (ue_sla_stats self').2
       = (ue_sla_stats self).1 + (ue_sla_stats self).2 + 1.
Proof.
  intros Haps Hues.
  unfold perform_handoff, validate_ue, subscript. rewrite Hues, Haps.
  destruct (ues !! uid) as [ue|] eqn:Hue; [|discriminate].
  destruct (aps !! UE.ap ue) as [cur|] eqn:Hcur; [|discriminate].
  destruct (decide (UE.ap ue = aid)) as [Heq|Hne].
  { intros [= <- <-]. discriminate. }
  unfold handoff_to_ap.
  destruct (decide (UE.ue_id ue ∈ AP.n_ues cur (UE.app ue))) as [Hin|];
    [|discriminate].
  set (cur1 := AP.set_n_ues cur _).
  set (cur2 := AP.set_ues_meeting_sla cur1 _).
  set (self1 := put_ap (UE.ap ue) cur2 self).
  assert (Haps1 : _ap_dict self1 = Some (<[UE.ap ue := cur2]> aps)).
  { unfold self1, put_ap. simpl. rewrite Haps. reflexivity. }
  unfold validate_ap, subscript. rewrite Haps1.
  rewrite lookup_insert_ne by exact Hne.
  destruct (aps !! aid) as [new|] eqn:Hnew; [|discriminate].
  set (ue1 := UE.set_ap ue aid).
  set (new1 := AP.set_n_ues new _).
  destruct (fetch_neighboring_aps self1 ue1 new1) as [ids|] eqn:Hf;
    [|discriminate].
  set (ue2 := UE.set_neighboring_aps ue1 ids).
  destruct (update_ue_stats self1 ue2 new1) as [r [[self2 ue3] new2]] eqn:Hupd.
  destruct r as [[]|]; [|discriminate].
  intros [= <- <-] _.
  pose proof (update_ue_stats_frame _ _ _ _ _ _ _ Hupd)
    as (Hc2 & Ha2 & Hu2 & Hid3 & Hap3 & Hloc3 & Happ3 & Hnb3 & Hnid & Hnloc
        & Hnn).
  pose proof (update_ue_stats_ok _ _ _ _ _ _ Hupd) as (Hbit3 & Hsla3 & Hcnt3).
  pose proof (update_ue_stats_required _ _ _ _ _ _ _ Hupd) as Hreq3.
  pose proof (update_ue_stats_effect _ _ _ _ _ _ Hupd)
    as (Hdist & Hthr & Hpow & Hsum & _ & Happs & Hnewid).
  assert (Hc1 : same_config self self1) by apply same_config_put_ap.
  assert (Ha3 : _ap_dict (put_ue uid ue3 (put_ap aid new2 self2))
                = Some (<[aid := new2]> (<[UE.ap ue := cur2]> aps))).
  { unfold put_ue, put_ap. simpl. rewrite Ha2, Haps1. reflexivity. }
  assert (Hu3 : _ue_dict (put_ue uid ue3 (put_ap aid new2 self2))
                = Some (<[uid := ue3]> ues)).
  { unfold put_ue, put_ap. simpl. rewrite Hu2.
    unfold self1, put_ap. simpl. rewrite Hues. reflexivity. }
  assert (Hc3 : same_config self (put_ue uid ue3 (put_ap aid new2 self2))).
  { apply (same_config_trans _ self1); [exact Hc1|].
    apply (same_config_trans _ self2); [exact Hc2|].
    apply (same_config_trans _ (put_ap aid new2 self2));
      [apply same_config_put_ap | apply same_config_put_ue]. }
  assert (Hcurid : same_ap_identity cur cur2) by (repeat split).
  assert (Hnewid' : same_ap_identity new new2).
  { apply (same_ap_identity_trans _ new1); [repeat split | exact Hnewid]. }
  assert (Hn2 : AP.n_ues new2
                = dict_set (AP.n_ues new) (UE.app ue)
                    (AP.n_ues new (UE.app ue) ∪ {[UE.ue_id ue]})).
  { rewrite Hnn. reflexivity. }
  assert (Hm2 : AP.ues_meeting_sla new2
                = dict_set (AP.ues_meeting_sla new) (UE.app ue)
                    (AP.ues_meeting_sla new (UE.app ue) + UE.sla ue3)).
  { rewrite Hcnt3. reflexivity. }
  assert (Hueid : same_ue_identity ue ue3).
  { unfold same_ue_identity. rewrite Hid3, Hloc3, Happ3, Hreq3.
    repeat split. }
  assert (Hap3' : UE.ap ue3 = aid) by (rewrite Hap3; reflexivity).
  assert (Hfetch : fetch_neighboring_aps self ue new
                   = Ok (UE.neighboring_aps ue3)).
  { rewrite Hnb3. simpl. rewrite <- Hf.
    symmetry. apply (fetch_neighboring_aps_config self self1);
      [exact Hc1 | reflexivity | reflexivity]. }
  assert (Hstats : stats_against self (AP.location new) ue3).
  { unfold stats_against.
    split; [rewrite Hdist, Hloc3; reflexivity|].
    split; [|split; [exact Hsla3 | exact Hpow]].
    exists (total_ues (AP.n_ues new1)), (AP.uplink_bandwidth new1),
      (AP.channel_bandwidth new1).
    split.
    - apply (total_ues_pos _ (UE.app ue) (UE.ue_id ue)). simpl.
      rewrite dict_set_eq. apply elem_of_union. right.
      apply elem_of_singleton. reflexivity.
    - rewrite Hreq3. exact Hthr. }
  exists ue, cur, new, ue3, cur2, new2.
  repeat (apply conj; [solve [assumption | reflexivity] |]).
  exact Hsum.
Qed.

Lemma perform_handoff_not_done self uid aid res self' :
  perform_handoff uid aid self = (Ok res, self') ->
  DONE res = false -> self' = self.
Proof.
  unfold perform_handoff.
  destruct (validate_ue self uid) as [ue|]; [|discriminate].
  destruct (subscript _ _) as [cur|]; [|discriminate].
  destruct (decide (UE.ap ue = aid)); [intros [= <- <-]; reflexivity|].
  unfold handoff_to_ap.
  destruct (decide _); [|discriminate].
  destruct (validate_ap _ _) as [new|]; [|discriminate].
  destruct (fetch_neighboring_aps _ _ _); [|discriminate].
  destruct (update_ue_stats _ _ _) as [r [[self2 ue3] new2]].
  destruct r; [|discriminate].
  intros [= <- <-]. discriminate.
Qed.

(** ** The statistics stored in a UE *)

Lemma stats_against_config self self' l ue :
  same_config self self' -> stats_against self l ue ->
  stats_against self' l ue.
Proof.
  intros (_ & _ & Hs & _) (Hd & (n & up & ch & Hn & Ht) & Hsla & Hp).
  unfold stats_against. rewrite Hs. split_and!; try assumption.
  exists n, up, ch. tauto.
Qed.

(** What one round of the loop of [_instantiate_ues] stores. *)
Lemma instantiate_ue_stats self aps ues uid draw ues' self' :
  _ap_dict self = Some aps ->
  instantiate_ue uid draw self ues = (Ok ues', self') ->
  exists ue' ap ap',
    ues' = <[uid := ue']> ues
    /\ aps !! UE.ap ue' = Some ap
    /\ _ap_dict self' = Some (<[UE.ap ue' := ap']> aps)
    /\ same_ap_identity ap ap'
    /\ stats_against self (AP.location ap) ue'
    /\ same_config self self'
    /\ UE.app ue' = get_ue_app draw.1
    /\ ue_app_stats self'
       = dict_set (ue_app_stats self) (UE.app ue')
           (ue_app_stats self (UE.app ue') + 1)
    /\ (ue_sla_stats self').1 + (ue_sla_stats self').2
       = (ue_sla_stats self).1 + (ue_sla_stats self).2 + 1.
Proof.
  intros Haps. unfold instantiate_ue.
  set (ue_app := get_ue_app draw.1).
  set (self0 := set_ue_app_stats self _).
  assert (Hc0 : same_config self self0) by (repeat split).
  destruct (get_ue_location _ _ _) as [ue_location|]; [|discriminate].
  destruct (get_ue_ap _ _ _) as [[closest nbs]|]; [|discriminate].
  destruct (lookup_location self0 closest) as [cur_id|]; [|discriminate].
  unfold subscript. change (_ap_dict self0) with (_ap_dict self).
  rewrite Haps.
  destruct (aps !! cur_id) as [cur|] eqn:Hcur; [|discriminate].
  set (cur1 := AP.set_n_ues cur _).
  destruct (neighboring_ap_ids self0 closest _) as [ids|]; [|discriminate].
  set (new_ue := UE.new uid cur_id ue_location ue_app (APPS_DICT ue_app) ids).
  destruct (update_ue_stats self0 new_ue cur1) as [r [[self1 ue'] cur2]]
    eqn:Hupd.
  destruct r as [[]|]; [|discriminate].
  intros [= <- <-].
  pose proof (update_ue_stats_frame _ _ _ _ _ _ _ Hupd)
    as (Hc1 & Ha1 & Hu1 & Hid' & Hap' & Hloc' & Happ' & Hnb' & Hnid & Hnloc
        & Hnn).
  pose proof (update_ue_stats_ok _ _ _ _ _ _ Hupd) as (Hbit' & Hsla' & Hcnt').
  pose proof (update_ue_stats_required _ _ _ _ _ _ _ Hupd) as Hreq'.
  pose proof (update_ue_stats_effect _ _ _ _ _ _ Hupd)
    as (Hdist & Hthr & Hpow & Hsum & _ & Happs & Hcurid).
  assert (Hap'' : UE.ap ue' = cur_id) by (rewrite Hap'; reflexivity).
  exists ue', cur, cur2. rewrite Hap''.
  split; [reflexivity|]. split; [exact Hcur|].
  split.
  { unfold put_ap. simpl. rewrite Ha1.
    change (_ap_dict self0) with (_ap_dict self). rewrite Haps. reflexivity. }
  split.
  { apply (same_ap_identity_trans _ cur1); [repeat split | exact Hcurid]. }
  split.
  { unfold stats_against.
    split; [rewrite Hdist, Hloc'; reflexivity|].
    split; [|split; [exact Hsla' | exact Hpow]].
    exists (total_ues (AP.n_ues cur1)), (AP.uplink_bandwidth cur1),
      (AP.channel_bandwidth cur1).
    split.
    - apply (total_ues_pos _ ue_app uid). simpl.
      rewrite dict_set_eq. apply elem_of_union. right.
      apply elem_of_singleton. reflexivity.
    - rewrite Hreq'. exact Hthr. }
  split.
  { apply (same_config_trans _ self0); [exact Hc0|].
    apply (same_config_trans _ self1); [exact Hc1|].
    apply same_config_put_ap. }
  split; [rewrite Happ'; reflexivity|].
  split.
  { change (ue_app_stats (put_ap cur_id cur2 self1))
      with (ue_app_stats self1).
    rewrite Happs, Happ'. reflexivity. }
  change (ue_sla_stats (put_ap cur_id cur2 self1)) with (ue_sla_stats self1).
  rewrite Hsum. reflexivity.
Qed.

Lemma get_ue_app_web_or_video (prob_milli : Z) :
  get_ue_app prob_milli = web \/ get_ue_app prob_milli = video.
Proof. unfold get_ue_app. destruct (prob_milli <? 700); tauto. Qed.

(** The whole loop: every UE it stores carries the statistics computed
    against its AP, and the counters have grown by the number of UEs. *)
Lemma instantiate_loop_stats (rng : Z -> Z * loc) (ids : list Z) :
  forall self aps ues ues' self',
    _ap_dict self = Some aps ->
    (forall k ue, ues !! k = Some ue ->
       exists ap, aps !! UE.ap ue = Some ap
         /\ stats_against self (AP.location ap) ue) ->
    instantiate_loop ids rng self ues = (Ok ues', self') ->
    exists aps',
      _ap_dict self' = Some aps'
      /\ (forall a ap, aps !! a = Some ap ->
            exists ap', aps' !! a = Some ap' /\ same_ap_identity ap ap')
      /\ (forall k ue, ues' !! k = Some ue ->
            exists ap, aps' !! UE.ap ue = Some ap
              /\ stats_against self' (AP.location ap) ue)
      /\ ue_app_stats self' web + ue_app_stats self' video
         = ue_app_stats self web + ue_app_stats self video
           + Z.of_nat (length ids)
      /\ ue_app_stats self' voice = ue_app_stats self voice
      /\ ue_app_stats self' others = ue_app_stats self others
      /\ (ue_sla_stats self').1 + (ue_sla_stats self').2
         = (ue_sla_stats self).1 + (ue_sla_stats self).2
           + Z.of_nat (length ids).
Proof.
  induction ids as [|id ids IH]; intros self aps ues ues' self' Haps Hinv.
  - simpl. intros [= <- <-]. exists aps. split; [exact Haps|].
    split; [intros a ap Ha; exists ap; split;
              [exact Ha | apply same_ap_identity_refl]|].
    split; [exact Hinv|]. simpl. lia.
  - cbn [instantiate_loop].
    destruct (instantiate_ue id (rng id) self ues) as [[ues1|] self1] eqn:H1;
      [|discriminate].
    destruct (instantiate_ue_stats _ _ _ _ _ _ _ Haps H1)
      as (ue1 & ap & ap1 & -> & Hap & Haps1 & Hid1 & Hst1 & Hc1 & Happ1
          & Happs1 & Hsum1).
    intros Hloop.
    assert (Hinv1 : forall k ue, <[id := ue1]> ues !! k = Some ue ->
              exists ap0, <[UE.ap ue1 := ap1]> aps !! UE.ap ue = Some ap0
                /\ stats_against self1 (AP.location ap0) ue).
    { intros k ue Hk.
      assert (Hold : exists ap0, aps !! UE.ap ue = Some ap0
                /\ stats_against self (AP.location ap0) ue).
      { destruct (decide (k = id)) as [->|Hne].
        - rewrite lookup_insert_eq in Hk. injection Hk as <-.
          exists ap. tauto.
        - rewrite lookup_insert_ne in Hk by congruence. apply (Hinv k ue Hk). }
      destruct Hold as (ap0 & Hap0 & Hst0).
      destruct (decide (UE.ap ue = UE.ap ue1)) as [E|E].
      - rewrite E, lookup_insert_eq. exists ap1. split; [reflexivity|].
        rewrite E, Hap in Hap0. injection Hap0 as <-.
        destruct Hid1 as (_ & -> & _).
        apply (stats_against_config self); assumption.
      - rewrite lookup_insert_ne by congruence. exists ap0.
        split; [exact Hap0|].
        apply (stats_against_config self); assumption. }
    destruct (IH self1 _ _ _ _ Haps1 Hinv1 Hloop)
      as (aps' & Haps' & Hids & Hinv' & Hwv & Hvo & Hot & Hsum).
    exists aps'. split; [exact Haps'|]. split_and!.
    + intros a ap0 Ha.
      destruct (decide (a = UE.ap ue1)) as [->|Hne].
      * rewrite Hap in Ha. injection Ha as <-.
        destruct (Hids (UE.ap ue1) ap1) as (ap' & Hap' & Hid');
          [apply lookup_insert_eq|].
        exists ap'. split; [exact Hap'|].
        apply (same_ap_identity_trans _ ap1); assumption.
      * apply Hids. rewrite lookup_insert_ne by congruence. exact Ha.
    + exact Hinv'.
    + rewrite Hwv, Happs1. unfold dict_set.
      destruct (get_ue_app_web_or_video (rng id).1) as [E|E];
        rewrite Happ1, E; simpl; lia.
    + rewrite Hvo, Happs1. unfold dict_set.
      destruct (get_ue_app_web_or_video (rng id).1) as [E|E];
        rewrite Happ1, E; reflexivity.
    + rewrite Hot, Happs1. unfold dict_set.
      destruct (get_ue_app_web_or_video (rng id).1) as [E|E];
        rewrite Happ1, E; reflexivity.
    + rewrite Hsum, Hsum1. simpl. lia.
Qed.

(** The counters and the statistics when the constructor returns. *)
Lemma init_stats n m s r rng self :
  __init__ n m s r rng = Ok self ->
  stats_up_to_date self
  /\ ue_app_stats self web + ue_app_stats self video = Z.max 0 n
  /\ ue_app_stats self voice = 0 /\ ue_app_stats self others = 0
  /\ (ue_sla_stats self).1 + (ue_sla_stats self).2 = Z.max 0 n.
Proof.
  unfold __init__. destruct (m <? 0); [discriminate|].
  set (axis := map _ _).
  set (self0 := {| num_ues := n; num_aps := m; scale := s;
                   explore_radius := r; x_units := Z.sqrt m;
                   aps_per_axis := axis; _location_to_ap_lookup := ∅;
                   _ap_dict := None; _ue_dict := None;
                   ue_app_stats := fun _ => 0; ue_sla_stats := (0, 0) |}).
  destruct (_place_aps self0) as [aps self1] eqn:Hplace.
  assert (Hst1 : ue_app_stats self1 = (fun _ => 0)
                 /\ ue_sla_stats self1 = (0, 0) /\ num_ues self1 = n).
  { unfold _place_aps in Hplace.
    destruct (place_loop _ _ _ _) as [lk apd].
    injection Hplace as _ <-. repeat split. }
  destruct Hst1 as (Happs1 & Hsla1 & Hn1).
  set (self2 := set_ap_dict self1 (Some aps)).
  unfold _instantiate_ues.
  destruct (instantiate_loop _ rng self2 ∅) as [[ues|] self3] eqn:Hloop;
    [|discriminate].
  intros [= <-].
  destruct (instantiate_loop_stats rng (range1 (num_ues self2)) self2 aps ∅
              ues self3 eq_refl)
    as (aps' & Haps' & _ & Hinv & Hwv & Hvo & Hot & Hsum);
    [intros k ue Hk; rewrite lookup_empty in Hk; discriminate
    | exact Hloop |].
  assert (Hlen : Z.of_nat (length (range1 (num_ues self2))) = Z.max 0 n).
  { unfold range1. rewrite length_map, length_seq.
    change (num_ues self2) with (num_ues self1). rewrite Hn1. lia. }
  rewrite Hlen in Hwv, Hsum.
  change (ue_app_stats self2) with (ue_app_stats self1) in Hwv, Hvo, Hot.
  change (ue_sla_stats self2) with (ue_sla_stats self1) in Hsum.
  rewrite Happs1 in Hwv, Hvo, Hot. rewrite Hsla1 in Hsum. simpl in Hsum.
  split_and!.
  - exists aps', ues. split; [exact Haps'|]. split; [reflexivity|].
    intros k ue Hk. destruct (Hinv k ue Hk) as (ap & Hap & Hst).
    exists ap. split; [exact Hap|].
    apply (stats_against_config self3); [repeat split | exact Hst].
  - simpl. lia.
  - exact Hvo.
  - exact Hot.
  - simpl. lia.
Qed.

Lemma reachable_stats self : reachable self -> stats_up_to_date self.
Proof.
  induction 1 as [n m s r rng self Hinit | self uid aid res self' _ IH Hh].
  - apply (init_stats _ _ _ _ _ _ Hinit).
  - destruct (DONE res) eqn:Hdone.
    + destruct IH as (aps & ues & Haps & Hues & Hinv).
      destruct (perform_handoff_effect _ _ _ _ _ _ _ Haps Hues Hh Hdone)
        as (ue & cur & new & ue' & cur' & new' & Hue & Hne & Hcur & Hnew
            & _ & _ & Haps' & Hues' & Hc & Hcurid & Hnewid & _ & _ & _ & _
            & _ & Hap' & _ & Hst & _).
      exists (<[aid := new']> (<[UE.ap ue := cur']> aps)),
        (<[uid := ue']> ues).
      split; [exact Haps'|]. split; [exact Hues'|].
      intros k ue0 Hk.
      destruct (decide (k = uid)) as [->|Hk'].
      * rewrite lookup_insert_eq in Hk. injection Hk as <-.
        rewrite Hap', lookup_insert_eq. exists new'.
        split; [reflexivity|].
        destruct Hnewid as (_ & -> & _).
        apply (stats_against_config self); assumption.
      * rewrite lookup_insert_ne in Hk by congruence.
        destruct (Hinv k ue0 Hk) as (ap0 & Hap0 & Hst0).
        destruct (decide (UE.ap ue0 = aid)) as [E|E].
        { rewrite E, lookup_insert_eq. exists new'. split; [reflexivity|].
          rewrite E, Hnew in Hap0. injection Hap0 as <-.
          destruct Hnewid as (_ & -> & _).
          apply (stats_against_config self); assumption. }
        rewrite lookup_insert_ne by congruence.
        destruct (decide (UE.ap ue0 = UE.ap ue)) as [E'|E'].
        { rewrite E', lookup_insert_eq. exists cur'. split; [reflexivity|].
          rewrite E', Hcur in Hap0. injection Hap0 as <-.
          destruct Hcurid as (_ & -> & _).
          apply (stats_against_config self); assumption. }
        rewrite lookup_insert_ne by congruence.
        exists ap0. split; [exact Hap0|].
        apply (stats_against_config self); assumption.
    + rewrite (perform_handoff_not_done _ _ _ _ _ Hh Hdone). exact IH.
Qed.

Lemma reachable_ids self :
  reachable self ->
  ids_as_built self /\ 0 <= num_aps self
  /\ x_units self = Z.sqrt (num_aps self).
Proof.
  induction 1 as [n m s r rng self Hinit | self uid aid res self' Hr IH Hh].
  - assert (Hm : 0 <= m).
    { unfold __init__ in Hinit. destruct (Z.ltb_spec m 0); [discriminate|].
      lia. }
    destruct (init_returns _ _ _ _ _ _ Hinit)
      as (En & Em & _ & _ & Ex & _ & aps & ues & Haps & Hues & _ & _ & Hida
          & Hidu & _).
    split; [|rewrite Em, Ex; tauto].
    exists aps, ues. rewrite Ex, En. tauto.
  - destruct IH as ((aps & ues & Haps & Hues & Hida & Hidu) & Hm & Hx).
    destruct (reachable_well_formed self Hr)
      as (aps0 & ues0 & Haps0 & Hues0 & Hcons).
    rewrite Haps in Haps0. injection Haps0 as <-.
    rewrite Hues in Hues0. injection Hues0 as <-.
    destruct (perform_handoff_returns _ _ _ _ _ _ _ Haps Hues Hcons Hh)
      as (Hc & [(ue & _ & _ & _ & ->)
               | (ue & cur & new & ue' & cur' & new' & Hue & _ & Hcur & Hnew
                  & _ & Haps' & Hues' & _)]).
    + split; [|tauto]. exists aps, ues. tauto.
    + destruct Hc as (En & Em & _ & _ & Ex & _).
      rewrite Em, Ex. split; [|tauto].
      exists (<[aid := new']> (<[UE.ap ue := cur']> aps)),
        (<[uid := ue']> ues).
      rewrite En, Ex. split; [exact Haps'|]. split; [exact Hues'|]. split.
      * intros a. rewrite <- Hida.
        destruct (decide (a = aid)) as [->|Ha].
        { rewrite lookup_insert_eq, Hnew. split; eauto. }
        rewrite lookup_insert_ne by congruence.
        destruct (decide (a = UE.ap ue)) as [->|Ha'].
        { rewrite lookup_insert_eq, Hcur. split; eauto. }
        rewrite lookup_insert_ne by congruence. tauto.
      * intros k. rewrite <- Hidu.
        destruct (decide (k = uid)) as [->|Hk].
        { rewrite lookup_insert_eq, Hue. split; eauto. }
        rewrite lookup_insert_ne by congruence. tauto.
Qed.

(** A handoff that is carried out touches three entries of the two
    dictionaries: the UE, its old AP and its new AP.  The id of the UE
    leaves the set of its class at the old AP and joins the one at the new
    AP, so the old AP serves one UE less and the new AP one more; no other
    set changes, no AP or UE changes the fields the constructor gave it,
    the per-class counters of the UEs stay as they are and the two SLA
    counters of the network grow by one evaluation.  The scale is taken
    other than 0, here and below: at scale 0 the division by [2 * scale]
    raises in the model, while numpy yields an infinity or NaN. *)
Theorem perform_handoff_moves_ue self uid aid res self' :
  reachable self ->
  scale self <> 0 ->
  perform_handoff uid aid self = (Ok res, self') ->
  DONE res = true ->
  exists aps ues aps' ues' ue cur new ue' cur' new',
    _ap_dict self = Some aps /\ _ue_dict self = Some ues
    /\ _ap_dict self' = Some aps' /\ _ue_dict self' = Some ues'
    /\ same_config self self'
    /\ ues !! uid = Some ue /\ ues' !! uid = Some ue'
    /\ UE.ap ue <> aid /\ UE.ap ue' = aid
    /\ aps !! UE.ap ue = Some cur /\ aps' !! UE.ap ue = Some cur'
    /\ aps !! aid = Some new /\ aps' !! aid = Some new'
    /\ UE res = Some ue' /\ OLD_AP res = Some cur' /\ NEW_AP res = Some new'
    /\ (forall k, k <> uid -> ues' !! k = ues !! k)
    /\ (forall a, a <> aid -> a <> UE.ap ue -> aps' !! a = aps !! a)
    /\ same_ue_identity ue ue'
    /\ same_ap_identity cur cur' /\ same_ap_identity new new'
    /\ (forall cls, AP.n_ues cur' cls
                    = if decide (cls = UE.app ue)
                      then AP.n_ues cur cls ∖ {[uid]} else AP.n_ues cur cls)
    /\ (forall cls, AP.n_ues new' cls
                    = if decide (cls = UE.app ue)
                      then AP.n_ues new cls ∪ {[uid]} else AP.n_ues new cls)
    /\ total_ues (AP.n_ues cur') = total_ues (AP.n_ues cur) - 1
    /\ total_ues (AP.n_ues new') = total_ues (AP.n_ues new) + 1
    /\ ue_app_stats self' = ue_app_stats self
    /\ (ue_sla_stats self').1 + (ue_sla_stats self').2
       = (ue_sla_stats self).1 + (ue_sla_stats self).2 + 1.
Proof.
  intros Hr _ Hh Hdone.
  destruct (reachable_well_formed self Hr) as (aps & ues & Haps & Hues & Hcons).
  destruct (perform_handoff_effect _ _ _ _ _ _ _ Haps Hues Hh Hdone)
    as (ue & cur & new & ue' & cur' & new' & Hue & Hne & Hcur & Hnew
        & Hin & -> & Haps' & Hues' & Hc & Hcurid & Hnewid & Hcn & _ & Hnn
        & _ & Hueid & Hap' & _ & _ & Happs & Hsum).
  destruct (ue_attached _ _ _ Hcons uid ue Hue) as (Hid & _).
  rewrite Hid in *.
  assert (Hnotin : uid ∉ AP.n_ues new (UE.app ue)).
  { intros Hin'.
    destruct (ap_members _ _ _ Hcons aid new (UE.app ue) uid Hnew Hin')
      as (ue0 & Hue0 & Hap0 & _).
    rewrite Hue in Hue0. injection Hue0 as <-. contradiction. }
  exists aps, ues, (<[aid := new']> (<[UE.ap ue := cur']> aps)),
    (<[uid := ue']> ues), ue, cur, new, ue', cur', new'.
  split; [exact Haps|]. split; [exact Hues|].
  split; [exact Haps'|]. split; [exact Hues'|]. split; [exact Hc|].
  split; [exact Hue|]. split; [apply lookup_insert_eq|].
  split; [exact Hne|]. split; [exact Hap'|]. split; [exact Hcur|].
  split; [rewrite lookup_insert_ne by congruence; apply lookup_insert_eq|].
  split; [exact Hnew|]. split; [apply lookup_insert_eq|].
  split; [reflexivity|]. split; [reflexivity|]. split; [reflexivity|].
  split; [intros k Hk; apply lookup_insert_ne; congruence|].
  split.
  { intros a Ha Ha'. rewrite !lookup_insert_ne by congruence. reflexivity. }
  split; [exact Hueid|]. split; [exact Hcurid|]. split; [exact Hnewid|].
  split.
  { intros cls. rewrite Hcn. unfold dict_set.
    destruct (decide (cls = UE.app ue)) as [->|]; reflexivity. }
  split.
  { intros cls. rewrite Hnn. unfold dict_set.
    destruct (decide (cls = UE.app ue)) as [->|]; reflexivity. }
  split.
  { rewrite Hcn, total_ues_dict_set.
    rewrite size_difference by (apply singleton_subseteq_l, Hin).
    rewrite size_singleton.
    assert (size (AP.n_ues cur (UE.app ue)) <> 0%nat).
    { intros E. apply size_empty_iff in E. rewrite E in Hin.
      apply elem_of_empty in Hin. exact Hin. }
    lia. }
  split.
  { rewrite Hnn, total_ues_dict_set.
    rewrite size_union by (apply disjoint_singleton_r, Hnotin).
    rewrite size_singleton. lia. }
  split; [exact Happs | exact Hsum].
Qed.

Lemma perform_handoff_moves_ue_witness :
  exists self res self' aps' new' cls,
    reachable self
    /\ perform_handoff 1 4 self = (Ok res, self')
    /\ _ap_dict self' = Some aps'
    /\ aps' !! 4 = Some new'
    /\ 1 ∈ AP.n_ues new' cls.
Proof.
  destruct corner_network_handoff as (self & res & self' & Hinit & Hh & Hd & _).
  assert (Hr : reachable self) by (eapply reachable_init; exact Hinit).
  destruct (corner_network self Hinit) as (_ & _ & (_ & Hscale & _) & _).
  destruct (perform_handoff_moves_ue self 1 4 res self' Hr Hscale Hh Hd)
    as (aps & ues & aps' & ues' & ue & cur & new & ue' & cur' & new'
        & _ & _ & Haps' & _ & _ & _ & _ & _ & _ & _ & _ & _ & Hnew' & _ & _
        & _ & _ & _ & _ & _ & _ & _ & Hnn & _).
  exists self, res, self', aps', new', (UE.app ue).
  split; [exact Hr|]. split; [exact Hh|]. split; [exact Haps'|].
  split; [exact Hnew'|].
  rewrite (Hnn (UE.app ue)).
  destruct (decide (UE.app ue = UE.app ue)) as [_|]; [|congruence].
  apply elem_of_union. right. apply elem_of_singleton. reflexivity.
Defined.

Lemma gset_add_remove (X : gset Z) (x : Z) : x ∉ X -> (X ∪ {[x]}) ∖ {[x]} = X.
Proof.
  intros Hx. apply set_eq. intros y.
  rewrite elem_of_difference, elem_of_union, elem_of_singleton.
  split; [tauto|]. intros Hy. split; [tauto|]. intros ->. contradiction.
Qed.

Lemma gset_remove_add (X : gset Z) (x : Z) : x ∈ X -> (X ∖ {[x]}) ∪ {[x]} = X.
Proof.
  intros Hx. apply set_eq. intros y.
  rewrite elem_of_union, elem_of_difference, elem_of_singleton.
  split; [intros [[Hy _] | ->]; assumption|].
  intros Hy. destruct (decide (y = x)); tauto.
Qed.

(** For a scale other than 0, handing a UE over to another AP and back
    restores the sets of UEs of every AP, the AP and the neighbour list of
    the UE, its distance and its signal power; no other UE is touched. *)
Theorem perform_handoff_round_trip self uid aid ue res1 self1 res2 self2 :
  reachable self ->
  scale self <> 0 ->
  validate_ue self uid = Ok ue ->
  UE.ap ue <> aid ->
  perform_handoff uid aid self = (Ok res1, self1) ->
  perform_handoff uid (UE.ap ue) self1 = (Ok res2, self2) ->
  exists aps ues aps2 ues2 ue2,
    _ap_dict self = Some aps /\ _ue_dict self = Some ues
    /\ _ap_dict self2 = Some aps2 /\ _ue_dict self2 = Some ues2
    /\ DONE res1 = true /\ DONE res2 = true
    /\ (forall a ap, aps !! a = Some ap ->
          exists ap2, aps2 !! a = Some ap2 /\ same_ap_identity ap ap2
            /\ forall cls, AP.n_ues ap2 cls = AP.n_ues ap cls)
    /\ (forall k, k <> uid -> ues2 !! k = ues !! k)
    /\ ues2 !! uid = Some ue2
    /\ same_ue_identity ue ue2 /\ UE.ap ue2 = UE.ap ue
    /\ UE.neighboring_aps ue2 = UE.neighboring_aps ue
    /\ UE.distance ue2 = UE.distance ue
    /\ UE.signal_power ue2 = UE.signal_power ue.
Proof.
  intros Hr _ Hval Hne Hh1 Hh2.
  destruct (reachable_well_formed self Hr) as (aps & ues & Haps & Hues & Hcons).
  assert (Hue : ues !! uid = Some ue).
  { unfold validate_ue, subscript in Hval. rewrite Hues in Hval.
    destruct (ues !! uid); [congruence | discriminate]. }
  assert (Hd1 : DONE res1 = true).
  { destruct (perform_handoff_returns _ _ _ _ _ _ _ Haps Hues Hcons Hh1)
      as (_ & [(ue0 & Hue0 & E & _) | H]).
    - rewrite Hue in Hue0. injection Hue0 as <-. contradiction.
    - destruct H as (? & ? & ? & ? & ? & ? & _ & _ & _ & _ & -> & _).
      reflexivity. }
  destruct (perform_handoff_effect _ _ _ _ _ _ _ Haps Hues Hh1 Hd1)
    as (ue0 & cur & new & ue1 & cur1 & new1 & Hue0 & _ & Hcur & Hnew
        & Hin & _ & Haps1 & Hues1 & Hc1 & Hcurid & Hnewid & Hcn & _ & Hnn
        & _ & Hueid1 & Hap1 & _ & _).
  rewrite Hue in Hue0. injection Hue0 as <-.
  destruct (ue_attached _ _ _ Hcons uid ue Hue) as (Hid & _ & _ & Hnbs).
  assert (Hnotin : uid ∉ AP.n_ues new (UE.app ue)).
  { intros Hin'.
    destruct (ap_members _ _ _ Hcons aid new (UE.app ue) uid Hnew Hin')
      as (ue0 & Hue0 & Hap0 & _).
    rewrite Hue in Hue0. injection Hue0 as <-. contradiction. }
  assert (Hr1 : reachable self1) by (eapply reachable_handoff; eassumption).
  destruct (reachable_well_formed self1 Hr1)
    as (aps1 & ues1 & Haps1' & Hues1' & Hcons1).
  rewrite Haps1 in Haps1'. injection Haps1' as <-.
  rewrite Hues1 in Hues1'. injection Hues1' as <-.
  assert (Hue1 : <[uid := ue1]> ues !! uid = Some ue1)
    by apply lookup_insert_eq.
  assert (Hd2 : DONE res2 = true).
  { destruct (perform_handoff_returns _ _ _ _ _ _ _ Haps1 Hues1 Hcons1 Hh2)
      as (_ & [(ue0 & Hue0 & E & _) | H]).
    - rewrite Hue1 in Hue0. injection Hue0 as <-. congruence.
    - destruct H as (? & ? & ? & ? & ? & ? & _ & _ & _ & _ & -> & _).
      reflexivity. }
  destruct (perform_handoff_effect _ _ _ _ _ _ _ Haps1 Hues1 Hh2 Hd2)
    as (ue0 & cur0 & new0 & ue2 & new2 & cur2 & Hue0 & _ & Hcur0 & Hnew0
        & _ & _ & Haps2 & Hues2 & Hc2 & Hnewid2 & Hcurid2 & Hnn2 & _ & Hcn2
        & _ & Hueid2 & Hap2 & Hfetch2 & Hst2 & _).
  rewrite Hue1 in Hue0. injection Hue0 as <-.
  rewrite Hap1 in *.
  rewrite lookup_insert_eq in Hcur0. injection Hcur0 as <-.
  rewrite lookup_insert_ne, lookup_insert_eq in Hnew0 by congruence.
  injection Hnew0 as <-.
  pose proof Hueid1 as (Hid1 & Hloc1 & Happ1 & Hreq1).
  rewrite Hid1, Happ1, Hid in *.
  destruct (reachable_stats self Hr) as (aps0 & ues0 & Haps0 & Hues0 & Hstats).
  rewrite Haps in Haps0. injection Haps0 as <-.
  rewrite Hues in Hues0. injection Hues0 as <-.
  destruct (Hstats uid ue Hue) as (cur0 & Hcur0 & Hd0 & _ & _ & Hp0).
  rewrite Hcur in Hcur0. injection Hcur0 as <-.
  destruct Hst2 as (Hd2' & _ & _ & Hp2).
  assert (Hloc2 : UE.location ue2 = UE.location ue).
  { destruct Hueid2 as (_ & -> & _). exact Hloc1. }
  assert (Hcl : AP.location cur1 = AP.location cur).
  { destruct Hcurid as (_ & -> & _). reflexivity. }
  assert (Hdist : UE.distance ue2 = UE.distance ue).
  { rewrite Hd2', Hd0, Hloc2, Hcl. reflexivity. }
  exists aps, ues,
    (<[UE.ap ue := cur2]> (<[aid := new2]>
       (<[aid := new1]> (<[UE.ap ue := cur1]> aps)))),
    (<[uid := ue2]> (<[uid := ue1]> ues)), ue2.
  split; [exact Haps|]. split; [exact Hues|].
  split; [exact Haps2|]. split; [exact Hues2|].
  split; [exact Hd1|]. split; [exact Hd2|].
  split.
  { intros a ap Ha.
    destruct (decide (a = UE.ap ue)) as [->|Ha1].
    - rewrite lookup_insert_eq. exists cur2. split; [reflexivity|].
      rewrite Hcur in Ha. injection Ha as <-.
      split; [apply (same_ap_identity_trans _ cur1); assumption|].
      intros cls. rewrite Hcn2, Hcn. unfold dict_set.
      destruct (decide (cls = UE.app ue)) as [->|]; [|reflexivity].
      destruct (decide (UE.app ue = UE.app ue)) as [_|]; [|congruence].
      apply gset_remove_add, Hin.
    - rewrite lookup_insert_ne by congruence.
      destruct (decide (a = aid)) as [->|Ha2].
      + rewrite lookup_insert_eq. exists new2. split; [reflexivity|].
        rewrite Hnew in Ha. injection Ha as <-.
        split; [apply (same_ap_identity_trans _ new1); assumption|].
        intros cls. rewrite Hnn2, Hnn. unfold dict_set.
        destruct (decide (cls = UE.app ue)) as [->|]; [|reflexivity].
        destruct (decide (UE.app ue = UE.app ue)) as [_|]; [|congruence].
        apply gset_add_remove, Hnotin.
      + rewrite !lookup_insert_ne by congruence.
        exists ap. split; [exact Ha|].
        split; [apply same_ap_identity_refl | reflexivity]. }
  split; [intros k Hk; rewrite !lookup_insert_ne by congruence; reflexivity|].
  split; [apply lookup_insert_eq|].
  split.
  { apply (same_ue_identity_trans _ ue1); assumption. }
  split; [exact Hap2|].
  split.
  { destruct Hnbs as (cur0 & Hcur0 & Hf0).
    rewrite Hcur in Hcur0. injection Hcur0 as <-.
    assert (E : fetch_neighboring_aps self1 ue1 cur1
                = fetch_neighboring_aps self ue cur)
      by (apply fetch_neighboring_aps_config; assumption).
    rewrite E, Hf0 in Hfetch2. congruence. }
  split; [exact Hdist|].
  rewrite Hdist in Hp2. rewrite Hp0 in Hp2. congruence.
Qed.

Lemma perform_handoff_round_trip_witness :
  exists self self2 ues ues2 ue ue2,
    reachable self
    /\ _ue_dict self = Some ues /\ ues !! 1 = Some ue
    /\ _ue_dict self2 = Some ues2 /\ ues2 !! 1 = Some ue2
    /\ UE.ap ue2 = UE.ap ue
    /\ UE.neighboring_aps ue2 = UE.neighboring_aps ue.
Proof.
  destruct corner_network_handoff
    as (self & res1 & self1 & Hinit & Hh1 & Hd1 & Hr1).
  assert (Hr : reachable self) by (eapply reachable_init; exact Hinit).
  destruct (corner_network self Hinit)
    as (_ & _ & Hgrid & aps & ues & ue & ap1 & ap4 & Haps & Hues & Hcons
        & Hue & _ & Hap & Hap1 & _).
  destruct (perform_handoff_effect _ _ _ _ _ _ _ Haps Hues Hh1 Hd1)
    as (ue0 & cur & new & ue1 & cur1 & new1 & Hue0 & _ & _ & _ & _ & _
        & Haps1 & Hues1 & Hc1 & _).
  rewrite Hue in Hue0. injection Hue0 as <-.
  destruct (reachable_well_formed self1 Hr1)
    as (aps1 & ues1 & Haps1' & Hues1' & Hcons1).
  destruct (perform_handoff_total self1 aps1 ues1 1 (UE.ap ue) ue1 cur1
              Haps1' Hues1' Hcons1 (usable_grid_config _ _ Hc1 Hgrid))
    as (res2 & self2 & Hh2).
  { rewrite Hues1 in Hues1'. injection Hues1' as <-.
    apply lookup_insert_eq. }
  { rewrite Haps1 in Haps1'. injection Haps1' as <-.
    rewrite Hap. rewrite lookup_insert_ne by lia. apply lookup_insert_eq. }
  assert (Hval : validate_ue self 1 = Ok ue).
  { unfold validate_ue, subscript. rewrite Hues, Hue. reflexivity. }
  destruct (perform_handoff_round_trip self 1 4 ue res1 self1 res2 self2
              Hr (proj1 (proj2 Hgrid)) Hval ltac:(lia) Hh1 Hh2)
    as (aps0 & ues0 & aps2 & ues2 & ue2 & _ & Hues0 & _ & Hues2 & _ & _ & _
        & _ & Hue2 & _ & Hap2 & Hnb2 & _).
  rewrite Hues in Hues0. injection Hues0 as <-.
  exists self, self2, ues, ues2, ue, ue2. tauto.
Defined.

(** In every state the simulator reaches with a scale other than 0, each UE
    is attached to an AP of the dictionary and carries the rounded distance
    to the location of
    that AP; its signal power is [None] exactly when it sits on the
    location of its AP and is 0 or negative otherwise; its throughput does
    not exceed its required bandwidth, and its SLA is 1 exactly when the
    two are equal and 0 otherwise. *)
Theorem ue_stats_in_reachable_states self :
  reachable self ->
  scale self <> 0 ->
  exists aps ues,
    _ap_dict self = Some aps /\ _ue_dict self = Some ues
    /\ forall k ue, ues !! k = Some ue ->
         exists ap,
           aps !! UE.ap ue = Some ap
           /\ UE.distance ue
              = get_ue_ap_distance (UE.location ue) (AP.location ap)
           /\ (UE.signal_power ue = None <-> UE.location ue = AP.location ap)
           /\ (forall p, UE.signal_power ue = Some p -> p <= 0)
           /\ (UE.throughput ue <= UE.required_bandwidth ue)%R
           /\ (UE.sla ue = 1 <-> UE.throughput ue = UE.required_bandwidth ue)
           /\ (UE.sla ue = 0
               <-> (UE.throughput ue < UE.required_bandwidth ue)%R).
Proof.
  intros Hr _.
  destruct (reachable_stats self Hr) as (aps & ues & Haps & Hues & Hstats).
  exists aps, ues. split; [exact Haps|]. split; [exact Hues|].
  intros k ue Hk.
  destruct (Hstats k ue Hk)
    as (ap & Hap & Hd & (n & up & ch & _ & Ht) & Hsla & Hp).
  exists ap. split; [exact Hap|]. split; [exact Hd|].
  apply get_ue_throughput_inv in Ht as [_ Ht].
  assert (Hle : (UE.throughput ue <= UE.required_bandwidth ue)%R)
    by (rewrite Ht; apply py_min3_le_third).
  assert (Hpow : (UE.location ue = AP.location ap
                  /\ UE.signal_power ue = None)
                 \/ (UE.location ue <> AP.location ap
                     /\ exists p, UE.signal_power ue = Some p /\ p <= 0)).
  { destruct (decide (UE.location ue = AP.location ap)) as [E|E].
    - left. split; [exact E|].
      rewrite Hd, E, get_ue_ap_distance_same, get_ue_sig_power_zero in Hp.
      congruence.
    - right. split; [exact E|].
      destruct (get_ue_sig_power_far (UE.distance ue)) as (p & Hp' & Hp0).
      { rewrite Hd. apply get_ue_ap_distance_far, E. }
      exists p. split; [congruence | exact Hp0]. }
  split_and!.
  - destruct Hpow as [[E Hn] | (E & p & Hs & _)];
      [tauto | split; [congruence | contradiction]].
  - intros p Hs. destruct Hpow as [[_ Hn] | (_ & p' & Hs' & Hp0)];
      [congruence|]. rewrite Hs in Hs'. injection Hs' as <-. exact Hp0.
  - exact Hle.
  - rewrite Hsla. unfold get_ue_sla.
    destruct (Rle_dec _ _); split; intros; try lra; try reflexivity;
      discriminate.
  - rewrite Hsla. unfold get_ue_sla.
    destruct (Rle_dec _ _); split; intros; try lra; try reflexivity;
      discriminate.
Qed.

Lemma ue_stats_in_reachable_states_witness :
  exists self aps ues ue ap,
    reachable self
    /\ _ap_dict self = Some aps /\ _ue_dict self = Some ues
    /\ ues !! 1 = Some ue /\ aps !! UE.ap ue = Some ap
    /\ (UE.throughput ue <= UE.required_bandwidth ue)%R.
Proof.
  destruct corner_network_handoff as (self & _ & _ & Hinit & _).
  assert (Hr : reachable self) by (eapply reachable_init; exact Hinit).
  destruct (corner_network self Hinit)
    as (_ & _ & (_ & Hscale & _) & aps0 & ues0 & ue & _ & _ & _ & Hues0 & _
        & Hue & _).
  destruct (ue_stats_in_reachable_states self Hr Hscale)
    as (aps & ues & Haps & Hues & H).
  rewrite Hues in Hues0. injection Hues0 as <-.
  destruct (H 1 ue Hue) as (ap & Hap & _ & _ & _ & Hle & _).
  exists self, aps, ues, ue, ap. tauto.
Defined.

(** In every state the simulator reaches with a scale other than 0,
    [ue_info] returns exactly for the ids 1 to [num_ues] and [ap_info] exactly for the ids 1 to
    [x_units * x_units], which is at most [num_aps]; any other id raises
    [KeyError]; and the accessors of a UE return the fields that [ue_info]
    shows, the neighbour list that [ue_neighboring_aps] computes again
    being the stored one. *)
Theorem queries_in_reachable_states self :
  reachable self ->
  scale self <> 0 ->
  (forall uid, (exists ue, ue_info self uid = Ok ue)
               <-> 1 <= uid <= num_ues self)
  /\ (forall uid, ~ 1 <= uid <= num_ues self ->
                  ue_info self uid = Raise KeyError)
  /\ (forall aid, (exists ap, ap_info self aid = Ok ap)
                  <-> 1 <= aid <= x_units self * x_units self)
  /\ (forall aid, ~ 1 <= aid <= x_units self * x_units self ->
                  ap_info self aid = Raise KeyError)
  /\ x_units self * x_units self <= num_aps self
  /\ (forall uid ue, ue_info self uid = Ok ue ->
        UE.ue_id ue = uid
        /\ ue_sla self uid = Ok (UE.sla ue)
        /\ ue_throughput self uid = Ok (UE.throughput ue)
        /\ ue_signal_power self uid = Ok (UE.signal_power ue)
        /\ ue_neighboring_aps self uid = Ok (UE.neighboring_aps ue)
        /\ exists ap, ap_info self (UE.ap ue) = Ok ap
             /\ AP.ap_id ap = UE.ap ue
             /\ ap_sla self (UE.ap ue) = Ok (AP.ues_meeting_sla ap)).
Proof.
  intros Hr _.
  destruct (reachable_ids self Hr)
    as ((aps & ues & Haps & Hues & Hida & Hidu) & Hm & Hx).
  destruct (reachable_well_formed self Hr)
    as (aps0 & ues0 & Haps0 & Hues0 & Hcons).
  rewrite Haps in Haps0. injection Haps0 as <-.
  rewrite Hues in Hues0. injection Hues0 as <-.
  unfold ue_info, ap_info, ue_sla, ue_throughput, ue_signal_power,
    ue_neighboring_aps, ap_sla, validate_ue, validate_ap, subscript.
  rewrite Haps, Hues.
  split_and!.
  - intros uid. rewrite <- Hidu.
    destruct (ues !! uid) as [ue|]; split.
    + eauto.
    + eauto.
    + intros [ue H]. discriminate.
    + intros [ue H]. discriminate.
  - intros uid Hn. destruct (ues !! uid) as [ue|] eqn:E; [|reflexivity].
    exfalso. apply Hn, Hidu. eauto.
  - intros aid. rewrite <- Hida.
    destruct (aps !! aid) as [ap|]; split.
    + eauto.
    + eauto.
    + intros [ap H]. discriminate.
    + intros [ap H]. discriminate.
  - intros aid Hn. destruct (aps !! aid) as [ap|] eqn:E; [|reflexivity].
    exfalso. apply Hn, Hida. eauto.
  - rewrite Hx. destruct (Z.sqrt_spec (num_aps self) Hm) as [H _]. exact H.
  - intros uid ue Hue.
    destruct (ues !! uid) as [ue0|] eqn:E; [|discriminate].
    injection Hue as ->.
    destruct (ue_attached _ _ _ Hcons uid ue E)
      as (Hid & _ & _ & ap & Hap & Hf).
    simpl. rewrite Hap. simpl.
    split_and!; try reflexivity; try assumption.
    exists ap. split; [reflexivity|]. split; [|reflexivity].
    apply (ap_key _ _ _ Hcons _ _ Hap).
Qed.

Lemma queries_in_reachable_states_witness :
  exists self ue,
    reachable self /\ ue_info self 1 = Ok ue
    /\ ue_neighboring_aps self 1 = Ok (UE.neighboring_aps ue).
Proof.
  destruct corner_network_handoff as (self & _ & _ & Hinit & _).
  assert (Hr : reachable self) by (eapply reachable_init; exact Hinit).
  destruct (corner_network self Hinit)
    as (_ & _ & (_ & Hscale & _) & aps & ues & ue & _ & _ & _ & Hues & _ & Hue
        & _).
  assert (Hinfo : ue_info self 1 = Ok ue).
  { unfold ue_info, validate_ue, subscript. rewrite Hues, Hue. reflexivity. }
  destruct (queries_in_reachable_states self Hr Hscale)
    as (_ & _ & _ & _ & _ & H).
  destruct (H 1 ue Hinfo) as (_ & _ & _ & _ & Hnb & _).
  exists self, ue. tauto.
Defined.

(** A handoff of a UE that is not in the dictionary raises [KeyError] and
    changes nothing.  In a state reached with a scale other than 0, a
    handoff to an AP that is not in the dictionary
    raises [KeyError] after the UE has been taken out of the set of its
    AP; from then on every handoff of that UE to another AP raises
    [KeyError] and changes nothing more, while a handoff to the AP it still
    names is answered as not needed. *)
Theorem failed_handoff_strands_ue self uid aid ue :
  reachable self ->
  scale self <> 0 ->
  validate_ue self uid = Ok ue ->
  validate_ap self aid = Raise KeyError ->
  (forall uid0 aid0, validate_ue self uid0 = Raise KeyError ->
     perform_handoff uid0 aid0 self = (Raise KeyError, self))
  /\ exists self1,
       perform_handoff uid aid self = (Raise KeyError, self1)
       /\ same_config self self1
       /\ _ue_dict self1 = _ue_dict self
       /\ validate_ue self1 uid = Ok ue
       /\ (forall aid', aid' <> UE.ap ue ->
             perform_handoff uid aid' self1 = (Raise KeyError, self1))
       /\ perform_handoff uid (UE.ap ue) self1
          = (Ok {| DONE := false; UE := None;
                   OLD_AP := None; NEW_AP := None |}, self1).
Proof.
  intros Hr _ Hval Hnoap.
  split.
  { intros uid0 aid0 H0. unfold perform_handoff. rewrite H0. reflexivity. }
  destruct (reachable_well_formed self Hr) as (aps & ues & Haps & Hues & Hcons).
  assert (Hue : ues !! uid = Some ue).
  { unfold validate_ue, subscript in Hval. rewrite Hues in Hval.
    destruct (ues !! uid); [congruence | discriminate]. }
  assert (Hnone : aps !! aid = None).
  { unfold validate_ap, subscript in Hnoap. rewrite Haps in Hnoap.
    destruct (aps !! aid); [discriminate | reflexivity]. }
  destruct (ue_attached _ _ _ Hcons uid ue Hue)
    as (Hid & _ & (cur & Hcur & Hin) & _).
  destruct (perform_handoff_unknown_ap self aps ues uid ue cur aid
              Haps Hues Hue Hcur ltac:(rewrite Hid; exact Hin) Hnone)
    as (cur' & Hh & Hn' & _).
  set (self1 := put_ap (UE.ap ue) cur' self) in *.
  assert (Haps1 : _ap_dict self1 = Some (<[UE.ap ue := cur']> aps)).
  { unfold self1, put_ap. simpl. rewrite Haps. reflexivity. }
  assert (Hues1 : _ue_dict self1 = Some ues).
  { unfold self1, put_ap. simpl. exact Hues. }
  exists self1. split; [exact Hh|].
  split; [apply same_config_put_ap|].
  split; [rewrite Hues1, Hues; reflexivity|].
  split.
  { unfold validate_ue, subscript. rewrite Hues1, Hue. reflexivity. }
  split.
  - intros aid' Hne. unfold perform_handoff, validate_ue, subscript.
    rewrite Hues1, Hue, Haps1, lookup_insert_eq.
    destruct (decide (UE.ap ue = aid')) as [E|_]; [congruence|].
    unfold handoff_to_ap.
    destruct (decide (UE.ue_id ue ∈ AP.n_ues cur' (UE.app ue))) as [Hin'|];
      [|reflexivity].
    exfalso. rewrite Hn' in Hin'.
    apply elem_of_difference in Hin' as [_ Hin'].
    apply Hin', elem_of_singleton. reflexivity.
  - unfold perform_handoff, validate_ue, subscript.
    rewrite Hues1, Hue, Haps1, lookup_insert_eq.
    destruct (decide (UE.ap ue = UE.ap ue)) as [_|]; [reflexivity|congruence].
Qed.

Lemma failed_handoff_strands_ue_witness :
  exists self self1,
    reachable self
    /\ perform_handoff 1 99 self = (Raise KeyError, self1)
    /\ perform_handoff 1 4 self1 = (Raise KeyError, self1).
Proof.
  destruct corner_network_handoff as (self & _ & _ & Hinit & _).
  assert (Hr : reachable self) by (eapply reachable_init; exact Hinit).
  destruct (corner_network self Hinit)
    as (_ & _ & (_ & Hscale & _) & aps & ues & ue & _ & _ & Haps & Hues & _
        & Hue & _ & Hap & _).
  destruct (reachable_ids self Hr)
    as ((aps0 & ues0 & Haps0 & _ & Hida & _) & _ & Hx).
  rewrite Haps in Haps0. injection Haps0 as <-.
  destruct (init_returns _ _ _ _ _ _ Hinit) as (_ & _ & _ & _ & Ex & _).
  assert (Hval : validate_ue self 1 = Ok ue).
  { unfold validate_ue, subscript. rewrite Hues, Hue. reflexivity. }
  assert (Hno : validate_ap self 99 = Raise KeyError).
  { unfold validate_ap, subscript. rewrite Haps.
    destruct (aps !! 99) as [ap|] eqn:E; [|reflexivity].
    exfalso. assert (H : 1 <= 99 <= x_units self * x_units self)
      by (apply Hida; eauto).
    rewrite Ex in H. change (Z.sqrt 4) with 2 in H. lia. }
  destruct (failed_handoff_strands_ue self 1 99 ue Hr Hscale Hval Hno)
    as (_ & self1 & Hh & _ & _ & _ & Hstuck & _).
  exists self, self1. split; [exact Hr|]. split; [exact Hh|].
  apply Hstuck. rewrite Hap. lia.
Defined.

(** ** What the constructor builds *)

(** For at least four APs and a positive scale the constructor returns,
    whatever class and coordinates the random generator yields for each
    UE.  The network has an AP for each id from
    1 to the square of [isqrt(num_aps)], the largest square that does not
    exceed [num_aps], and a UE for each id from 1 to [num_ues]; every UE
    has the class and the location drawn for it, and the class is web or
    video; the per-class counters add up to the number of UEs, as do the
    two SLA counters. *)
Theorem init_builds_network (n m s r : Z) (rng : Z -> Z * loc) :
  4 <= m -> 0 < s ->
  exists self aps ues,
    __init__ n m s r rng = Ok self
    /\ _ap_dict self = Some aps /\ _ue_dict self = Some ues
    /\ (forall a, is_Some (aps !! a) <-> 1 <= a <= Z.sqrt m * Z.sqrt m)
    /\ (forall k, is_Some (ues !! k) <-> 1 <= k <= n)
    /\ Z.sqrt m * Z.sqrt m <= m < (Z.sqrt m + 1) * (Z.sqrt m + 1)
    /\ (forall k ue, ues !! k = Some ue ->
          UE.ue_id ue = k /\ drawn_as rng k ue
          /\ (UE.app ue = web \/ UE.app ue = video))
    /\ ue_app_stats self web + ue_app_stats self video = Z.max 0 n
    /\ ue_app_stats self voice = 0 /\ ue_app_stats self others = 0
    /\ (ue_sla_stats self).1 + (ue_sla_stats self).2 = Z.max 0 n.
Proof.
  intros Hm Hs.
  destruct (init_total n m s r rng Hm ltac:(lia)) as [self Hinit].
  destruct (init_returns _ _ _ _ _ _ Hinit)
    as (_ & _ & _ & _ & _ & _ & aps & ues & Haps & Hues & Hcons & Hdrawn
        & Hida & Hidu & _).
  destruct (init_stats _ _ _ _ _ _ Hinit) as (_ & Hwv & Hvo & Hot & Hsum).
  exists self, aps, ues.
  split; [exact Hinit|]. split; [exact Haps|]. split; [exact Hues|].
  split; [exact Hida|]. split; [exact Hidu|].
  split.
  { pose proof (Z.sqrt_spec m ltac:(lia)) as H. simpl in H.
    unfold Z.succ in H. exact H. }
  split.
  { intros k ue Hk.
    destruct (ue_attached _ _ _ Hcons k ue Hk) as (Hid & _).
    destruct (Hdrawn k ue Hk) as (_ & Hd).
    split; [exact Hid|]. split; [exact Hd|].
    destruct Hd as (-> & _). apply get_ue_app_web_or_video. }
  tauto.
Qed.

Lemma init_builds_network_witness :
  exists self aps,
    __init__ 3 10 100 2 corner_draws = Ok self
    /\ _ap_dict self = Some aps
    /\ (is_Some (aps !! 9) <-> 1 <= 9 <= Z.sqrt 10 * Z.sqrt 10).
Proof.
  destruct (init_builds_network 3 10 100 2 corner_draws ltac:(lia) ltac:(lia))
    as (self & aps & ues & Hinit & Haps & _ & Hida & _).
  exists self, aps. split; [exact Hinit|]. split; [exact Haps|]. apply Hida.
Defined.

Lemma get_interval_singleton (value a : Z) :
  get_interval value [a]
  = if value =? a then Raise IndexError else Ok (Some (a, a)).
Proof.
  unfold get_interval. simpl.
  destruct (Z.ltb_spec value a), (Z.ltb_spec a value), (Z.eqb_spec value a);
    try reflexivity; lia.
Qed.

(** With one coordinate per axis the neighbour search of a radius of 2 or
    more reads the second coordinate of the axis. *)
Lemma get_neighboring_aps_single_axis (u : loc) (a radius : Z) :
  2 <= radius -> get_neighboring_aps u [a] radius = Raise IndexError.
Proof.
  intros Hr. destruct u as [x y]. unfold get_neighboring_aps, get_aps_in_grid.
  rewrite !get_interval_singleton.
  destruct (x =? a); [reflexivity|]. destruct (y =? a); [reflexivity|].
  cbn [rbind].
  destruct (Z.ltb_spec 1 radius) as [_|]; [|lia].
  destruct (Z.to_nat (radius - 1)) as [|k] eqn:Hk; [lia|].
  cbn [get_extended_neighboring_aps].
  destruct (list_of_set [(a, a); (a, a); (a, a); (a, a)]) as [|p g] eqn:Hg.
  { exfalso. assert (Hin : (a, a) ∈ list_of_set [(a, a); (a, a); (a, a); (a, a)])
      by (apply list_of_set_elem_of; left).
    rewrite Hg in Hin. inversion Hin. }
  reflexivity.
Qed.

Lemma instantiate_loop_raises rng ids id self ues e self' :
  instantiate_ue id (rng id) self ues = (Raise e, self') ->
  instantiate_loop (id :: ids) rng self ues = (Raise e, self').
Proof. intros H. cbn [instantiate_loop]. rewrite H. reflexivity. Qed.

(** The constructor raises [ValueError] for a negative number of APs.  For
    a number of APs that is not negative it returns, with no UE, when no UE
    is asked for.  With no AP and at least one UE it raises [IndexError]
    when the first UE drawn is a web UE and [ZeroDivisionError] when it is
    a video UE; with one to three APs, a positive scale, at least one UE
    and an explore radius of 2 or more it raises [IndexError]. *)
Theorem init_errors (n s r : Z) (rng : Z -> Z * loc) :
  (forall m, m < 0 -> __init__ n m s r rng = Raise ValueError)
  /\ (forall m, 0 <= m -> n <= 0 ->
        exists self, __init__ n m s r rng = Ok self
                     /\ _ue_dict self = Some ∅)
  /\ (1 <= n -> get_ue_app (rng 1).1 = web ->
      __init__ n 0 s r rng = Raise IndexError)
  /\ (1 <= n -> get_ue_app (rng 1).1 = video ->
      __init__ n 0 s r rng = Raise ZeroDivisionError)
  /\ (forall m, 1 <= m < 4 -> 0 < s -> 1 <= n -> 2 <= r ->
        __init__ n m s r rng = Raise IndexError).
Proof.
  split_and!.
  - intros m Hm. unfold __init__.
    destruct (Z.ltb_spec m 0); [reflexivity | lia].
  - intros m Hm Hn. unfold __init__.
    destruct (Z.ltb_spec m 0); [lia|].
    destruct (_place_aps _) as [aps self1] eqn:Hplace.
    assert (En : num_ues self1 = n).
    { unfold _place_aps in Hplace. destruct (place_loop _ _ _ _).
      injection Hplace as _ <-. reflexivity. }
    unfold _instantiate_ues, range1. simpl. rewrite En.
    replace (Z.to_nat n) with 0%nat by lia. simpl.
    eexists. split; reflexivity.
  - intros Hn Hweb. unfold __init__. simpl.
    unfold _instantiate_ues. simpl.
    destruct (range1_cons n Hn) as [tl ->].
    erewrite instantiate_loop_raises; [reflexivity|].
    unfold instantiate_ue. rewrite Hweb. simpl.
    destruct (rng 1).2 as [x y]. reflexivity.
  - intros Hn Hvideo. unfold __init__. simpl.
    unfold _instantiate_ues. simpl.
    destruct (range1_cons n Hn) as [tl ->].
    erewrite instantiate_loop_raises; [reflexivity|].
    unfold instantiate_ue. rewrite Hvideo. reflexivity.
  - intros m Hm _ Hn Hr.
    assert (Hsq : Z.sqrt m = 1).
    { assert (Hc : m = 1 \/ m = 2 \/ m = 3) by lia.
      destruct Hc as [-> | [-> | ->]]; reflexivity. }
    unfold __init__. destruct (Z.ltb_spec m 0); [lia|].
    rewrite Hsq. simpl.
    unfold _instantiate_ues. simpl.
    destruct (range1_cons n Hn) as [tl ->].
    erewrite instantiate_loop_raises; [reflexivity|].
    unfold instantiate_ue. simpl.
    match goal with
    | |- context [get_ue_location ?a ?l ?d] =>
        assert (Hloc : get_ue_location a l d = Ok d)
          by (destruct a; reflexivity);
        rewrite Hloc
    end.
    unfold get_ue_ap.
    rewrite get_neighboring_aps_single_axis by exact Hr. reflexivity.
Qed.

Lemma init_errors_witness :
  __init__ 5 3 100 2 corner_draws = Raise IndexError.
Proof.
  destruct (init_errors 5 100 2 corner_draws) as (_ & _ & _ & _ & H).
  apply (H 3); lia.
Defined.

(** ** The numbering of the APs *)

Lemma grid_locations_lookup (l : list Z) (i j : nat) (x y : Z) :
  l !! i = Some x -> l !! j = Some y ->
  grid_locations l !! (i * length l + j)%nat = Some (x, y).
Proof.
  intros Hi Hj. unfold grid_locations.
  assert (H : forall (l1 : list Z) (i : nat), l1 !! i = Some x ->
            flat_map (fun xloc => map (fun yloc => (xloc, yloc)) l) l1
              !! (i * length l + j)%nat = Some (x, y)).
  { clear i Hi. induction l1 as [|x0 l1 IH]; intros i Hi; [discriminate|].
    simpl. destruct i as [|i]; simpl in Hi.
    - injection Hi as ->. rewrite lookup_app_l.
      + simpl. change (map ?f l) with (f <$> l).
        rewrite list_lookup_fmap, Hj. reflexivity.
      + rewrite length_map. apply lookup_lt_Some in Hj. simpl. lia.
    - rewrite lookup_app_r by (rewrite length_map; simpl; lia).
      rewrite length_map.
      replace (S i * length l + j - length l)%nat
        with (i * length l + j)%nat by (simpl; lia).
      apply IH, Hi. }
  apply H, Hi.
Qed.

Lemma grid_locations_NoDup (l : list Z) : NoDup l -> NoDup (grid_locations l).
Proof.
  intros Hl. unfold grid_locations.
  assert (H : forall l1 : list Z, NoDup l1 ->
            NoDup (flat_map (fun xloc => map (fun yloc => (xloc, yloc)) l) l1)
            /\ forall p, p ∈ flat_map
                           (fun xloc => map (fun yloc => (xloc, yloc)) l) l1 ->
                         p.1 ∈ l1).
  { induction 1 as [|x0 l1 Hx0 Hnd IH]; simpl.
    - split; [apply NoDup_nil_2|]. intros p Hp. inversion Hp.
    - destruct IH as [IH1 IH2]. split.
      + apply NoDup_app. split_and!.
        * change (map ?f l) with (f <$> l).
          apply NoDup_fmap_2; [|exact Hl]. intros a b [= ->]. reflexivity.
        * intros p Hp Hp'. change (map ?f l) with (f <$> l) in Hp.
          apply list_elem_of_fmap in Hp as (y & -> & _).
          apply IH2 in Hp'. simpl in Hp'. contradiction.
        * exact IH1.
      + intros p Hp. apply elem_of_app in Hp as [Hp|Hp].
        * change (map ?f l) with (f <$> l) in Hp.
          apply list_elem_of_fmap in Hp as (y & -> & _). left.
        * right. apply IH2, Hp. }
  apply H, Hl.
Qed.

Lemma axis_NoDup (s : Z) (k : nat) :
  s <> 0 -> NoDup (map (fun i => (1 + 2 * Z.of_nat i) * s) (seq 0 k)).
Proof.
  intros Hs. change (map ?f ?l) with (f <$> l).
  apply NoDup_fmap_2; [|apply NoDup_seq].
  intros a b H. apply Z.mul_cancel_r in H; [lia | exact Hs].
Qed.

Lemma axis_lookup (s : Z) (k i : nat) :
  (i < k)%nat ->
  map (fun i => (1 + 2 * Z.of_nat i) * s) (seq 0 k) !! i
  = Some ((1 + 2 * Z.of_nat i) * s).
Proof.
  intros Hi. change (map ?f ?l) with (f <$> l).
  rewrite list_lookup_fmap, lookup_seq_lt by exact Hi. reflexivity.
Qed.

(** The grid of a state the simulator reaches is the one the constructor
    laid out. *)
Lemma reachable_grid self :
  reachable self ->
  aps_per_axis self
  = map (fun i => (1 + 2 * Z.of_nat i) * scale self)
      (seq 0 (Z.to_nat (x_units self)))
  /\ 0 <= x_units self
  /\ (forall l, l ∈ grid_locations (aps_per_axis self) ->
        is_Some (_location_to_ap_lookup self !! l))
  /\ (forall l a, _location_to_ap_lookup self !! l = Some a ->
        exists j : nat,
          grid_locations (aps_per_axis self) !! j = Some l
          /\ a = 1 + Z.of_nat j).
Proof.
  induction 1 as [n m s r rng self Hinit | self uid aid res self' Hr IH Hh].
  - destruct (init_returns _ _ _ _ _ _ Hinit)
      as (_ & _ & Es & _ & Ex & Eaxis & aps & ues & _ & _ & _ & _ & _ & _
          & Hgrid & Hidx).
    rewrite Es, Ex. split; [exact Eaxis|].
    split; [apply Z.sqrt_nonneg|]. tauto.
  - destruct (reachable_well_formed self Hr)
      as (aps & ues & Haps & Hues & Hcons).
    destruct (perform_handoff_returns _ _ _ _ _ _ _ Haps Hues Hcons Hh)
      as ((_ & _ & Es & _ & Ex & Eaxis & Elk) & _).
    rewrite Es, Ex, Eaxis, Elk. exact IH.
Qed.

(** In every state the simulator reaches with a scale other than 0, the AP
    at column [i] and row [j] of the grid, at location
    [((1 + 2 i) scale, (1 + 2 j) scale)], has the id
    [1 + i * x_units + j]: the lookup table maps the location to that id and
    the dictionary holds under that id an AP at that location. *)
Theorem ap_ids_are_row_major self (i j : nat) :
  reachable self ->
  scale self <> 0 ->
  Z.of_nat i < x_units self -> Z.of_nat j < x_units self ->
  let location := ((1 + 2 * Z.of_nat i) * scale self,
                   (1 + 2 * Z.of_nat j) * scale self) in
  let ap_id := 1 + Z.of_nat i * x_units self + Z.of_nat j in
  lookup_location self location = Ok ap_id
  /\ exists ap, ap_info self ap_id = Ok ap
       /\ AP.ap_id ap = ap_id /\ AP.location ap = location.
Proof.
  intros Hr Hs Hi Hj location ap_id.
  destruct (reachable_grid self Hr) as (Eaxis & Hx & Hgrid & Hidx).
  destruct (reachable_well_formed self Hr) as (aps & ues & Haps & Hues & Hcons).
  set (k := Z.to_nat (x_units self)) in *.
  assert (Hlen : length (aps_per_axis self) = k)
    by (rewrite Eaxis, length_map, length_seq; reflexivity).
  assert (Hai : aps_per_axis self !! i = Some ((1 + 2 * Z.of_nat i) * scale self))
    by (rewrite Eaxis; apply axis_lookup; lia).
  assert (Haj : aps_per_axis self !! j = Some ((1 + 2 * Z.of_nat j) * scale self))
    by (rewrite Eaxis; apply axis_lookup; lia).
  pose proof (grid_locations_lookup _ _ _ _ _ Hai Haj) as Hg.
  rewrite Hlen in Hg. fold location in Hg.
  assert (Hnd : NoDup (grid_locations (aps_per_axis self))).
  { apply grid_locations_NoDup. rewrite Eaxis. apply axis_NoDup, Hs. }
  destruct (Hgrid location) as [a Ha].
  { eapply list_elem_of_lookup_2. exact Hg. }
  destruct (Hidx location a Ha) as (j' & Hj' & ->).
  pose proof (NoDup_lookup _ _ _ _ Hnd Hj' Hg) as ->.
  assert (Eid : 1 + Z.of_nat (i * k + j) = ap_id).
  { unfold ap_id, k. rewrite Nat2Z.inj_add, Nat2Z.inj_mul, Z2Nat.id by lia.
    lia. }
  rewrite Eid in Ha.
  split.
  - unfold lookup_location. rewrite Ha. reflexivity.
  - destruct (lookup_ap _ _ _ Hcons location ap_id Ha) as (ap & Hap & Hloc).
    exists ap. unfold ap_info, validate_ap, subscript. rewrite Haps, Hap.
    split; [reflexivity|]. split; [|exact Hloc].
    apply (ap_key _ _ _ Hcons _ _ Hap).
Qed.

Lemma ap_ids_are_row_major_witness :
  exists self,
    reachable self /\ lookup_location self (300, 100) = Ok 3.
Proof.
  destruct corner_network_handoff as (self & _ & _ & Hinit & _).
  assert (Hr : reachable self) by (eapply reachable_init; exact Hinit).
  destruct (init_returns _ _ _ _ _ _ Hinit) as (_ & _ & Es & _ & Ex & _).
  change (Z.sqrt 4) with 2 in Ex.
  destruct (ap_ids_are_row_major self 1 0 Hr) as [H _];
    [rewrite Es; lia | rewrite Ex; lia | rewrite Ex; lia |].
  rewrite Es, Ex in H. exists self. split; [exact Hr | exact H].
Defined.

(** ** The lists of APs and UEs *)

Lemma range1_sorted (n : Z) : StronglySorted Z.le (range1 n).
Proof.
  unfold range1. generalize 1%nat.
  induction (Z.to_nat n) as [|k IH]; intros start; simpl.
  - constructor.
  - constructor; [apply IH|].
    apply Forall_forall. intros x Hx.
    change (map ?f ?l) with (f <$> l) in Hx.
    apply list_elem_of_fmap in Hx as (i & -> & Hi).
    apply elem_of_seq in Hi. lia.
Qed.

(** The values of a dictionary whose keys are 1 to [n], in the order of the
    keys. *)
Lemma values_of_range {V} (m : gmap Z V) (n : Z) (id : V -> Z) :
  (forall k, is_Some (m !! k) <-> 1 <= k <= n) ->
  (forall k v, m !! k = Some v -> id v = k) ->
  exists l, values (Some m) = Ok l
    /\ map id l = range1 n
    /\ (forall v, v ∈ l <-> m !! id v = Some v).
Proof.
  intros Hkeys Hid. unfold values.
  assert (Hsort : merge_sort Z.le (elements (dom m)) = range1 n).
  { apply (StronglySorted_unique Z.le).
    - apply StronglySorted_merge_sort; apply _.
    - apply range1_sorted.
    - rewrite merge_sort_Permutation.
      apply NoDup_Permutation;
        [apply NoDup_elements | apply range1_NoDup |].
      intros k. rewrite elem_of_elements, elem_of_dom, range1_elem_of.
      apply Hkeys. }
  rewrite Hsort. eexists. split; [reflexivity|].
  assert (Hall : forall k, k ∈ range1 n -> is_Some (m !! k))
    by (intros k Hk; apply Hkeys, range1_elem_of, Hk).
  split.
  - revert Hall. generalize (range1 n). intros ks.
    induction ks as [|k ks IH]; intros Hall; [reflexivity|].
    simpl. destruct (Hall k ltac:(left)) as [v Hv]. rewrite Hv. simpl.
    rewrite (Hid k v Hv). f_equal. apply IH.
    intros k' Hk'. apply Hall. right. exact Hk'.
  - intros v. rewrite list_elem_of_omap. split.
    + intros (k & _ & Hk). rewrite (Hid k v Hk). exact Hk.
    + intros Hv. exists (id v). split; [|exact Hv].
      apply range1_elem_of, Hkeys. eauto.
Qed.

(** In every state the simulator reaches with a scale other than 0,
    [ap_list] returns the APs of the ids 1 to [x_units * x_units] in that order and [ue_list] the UEs of the
    ids 1 to [num_ues] in that order, the entries being those that
    [ap_info] and [ue_info] return for their ids. *)
Theorem lists_in_reachable_states self :
  reachable self ->
  scale self <> 0 ->
  exists aps_l ues_l,
    ap_list self = Ok aps_l /\ ue_list self = Ok ues_l
    /\ map AP.ap_id aps_l = range1 (x_units self * x_units self)
    /\ map UE.ue_id ues_l = range1 (num_ues self)
    /\ (forall ap, ap ∈ aps_l <-> ap_info self (AP.ap_id ap) = Ok ap)
    /\ (forall ue, ue ∈ ues_l <-> ue_info self (UE.ue_id ue) = Ok ue).
Proof.
  intros Hr _.
  destruct (reachable_ids self Hr)
    as ((aps & ues & Haps & Hues & Hida & Hidu) & _).
  destruct (reachable_well_formed self Hr)
    as (aps0 & ues0 & Haps0 & Hues0 & Hcons).
  rewrite Haps in Haps0. injection Haps0 as <-.
  rewrite Hues in Hues0. injection Hues0 as <-.
  destruct (values_of_range aps _ AP.ap_id Hida (ap_key _ _ _ Hcons))
    as (aps_l & Hal & Haid & Hain).
  destruct (values_of_range ues _ UE.ue_id Hidu)
    as (ues_l & Hul & Huid & Huin).
  { intros k ue Hk. apply (ue_attached _ _ _ Hcons k ue Hk). }
  exists aps_l, ues_l.
  unfold ap_list, ue_list, ap_info, ue_info, validate_ap, validate_ue,
    subscript.
  rewrite Haps, Hues. split; [exact Hal|]. split; [exact Hul|].
  split; [exact Haid|]. split; [exact Huid|]. split.
  - intros ap. rewrite Hain.
    destruct (aps !! AP.ap_id ap); split; congruence.
  - intros ue. rewrite Huin.
    destruct (ues !! UE.ue_id ue); split; congruence.
Qed.

Lemma lists_in_reachable_states_witness :
  exists self aps_l,
    reachable self /\ ap_list self = Ok aps_l
    /\ map AP.ap_id aps_l = [1; 2; 3; 4].
Proof.
  destruct corner_network_handoff as (self & _ & _ & Hinit & _).
  assert (Hr : reachable self) by (eapply reachable_init; exact Hinit).
  destruct (init_returns _ _ _ _ _ _ Hinit) as (_ & _ & Es & _ & Ex & _).
  destruct (lists_in_reachable_states self Hr ltac:(rewrite Es; lia))
    as (aps_l & ues_l & Hal & _ & Hid & _).
  rewrite Ex in Hid. exists self, aps_l. tauto.
Defined.
